(** * VSEXT: the inline completion pipeline, the API client and the chat view

    A shallow embedding of the parts of the extension that its specification
    makes testable statements about:

    - [Js]: the few pieces of the JavaScript runtime the code relies on
      (truthiness, [trim], [split]/[join], global regular-expression
      matching of the literal patterns used);
    - [Editor]: the host's text documents and positions, as the code reads
      them ([lineAt], [getText], [uri]);
    - [Heuristics]: [postProcessCompletion], [isInComment], [isInString],
      [shouldSkipCompletion], [getSmartCompletionContext] and the table of
      language settings it reads (src/providers/inlineCompletionProvider.ts);
    - [AiModels] and [ApiClient]: the descriptor table and [callModel] with
      its four request builders (models/aiModels.ts, models/apiClient.ts);
    - [Chat]: the chat history of the side panel (webviews/chatViewProvider.ts);
    - [Completion]: [provideInlineCompletionItems] as a transition system
      over the provider's fields, the debounce timer and the calls that are
      awaiting their reply;
    - [ApiKeyManager], [Extension] and [Similarity]: the key manager
      (utils/apiKeyManager.ts), and the context helpers and the cosine
      similarity of extension.ts;
    - [Spec], [Scenario] and [Examples]: the notions the specification
      words its properties with, and the concrete inputs of the examples.

    The properties follow, one module of facts per module of code. *)

From Stdlib Require Import Ascii String QArith Floats.
From stdpp Require Import gmap strings list fin_maps pretty.

Local Open Scope string_scope.
Local Open Scope Z_scope.

(** Exceptions: a computation returns a value or throws an [Error] whose
    message is kept. *)
Inductive result (A : Type) : Type :=
  | Ok (a : A)
  | Throw (msg : string).
Arguments Ok {A} a.
Arguments Throw {A} msg.

Definition bind_result {A B} (r : result A) (k : A -> result B) : result B :=
  match r with Ok a => k a | Throw m => Throw m end.

(** ** JavaScript runtime *)

Module Js.

(** Code units of a string.  [ascii] stands for the code units U+0000 to
    U+00FF; every character the code tests for lies in that range. *)
Definition LF : ascii := "010"%char.

(** White space as [String.prototype.trim] and the class [\s] see it. *)
Definition is_space (c : ascii) : bool :=
  match nat_of_ascii c with
  | 9%nat | 10%nat | 11%nat | 12%nat | 13%nat | 32%nat | 160%nat => true
  | _ => false
  end.

Fixpoint trimStart (s : string) : string :=
  match s with
  | String c r => if is_space c then trimStart r else s
  | EmptyString => EmptyString
  end.

(** [trimEnd] keeps a character when it is not white space or when
    something that is kept follows it. *)
Fixpoint trimEnd (s : string) : string :=
  match s with
  | EmptyString => EmptyString
  | String c r =>
      match trimEnd r with
      | EmptyString => if is_space c then EmptyString else String c EmptyString
      | r' => String c r'
      end
  end.

Definition trim (s : string) : string := trimEnd (trimStart s).

(** The longest prefix of white space: what the pattern anchored at the
    start of the string with one group of white space captures. *)
Fixpoint leading_space (s : string) : string :=
  match s with
  | String c r => if is_space c then String c (leading_space r) else EmptyString
  | EmptyString => EmptyString
  end.

(** A string is truthy unless it is empty. *)
Definition truthy_str (s : string) : bool :=
  match s with EmptyString => false | _ => true end.

(** [a || b] on strings. *)
Definition or_str (a b : string) : string := if truthy_str a then a else b.

(** [s.split(LF)]: always at least one piece. *)
Fixpoint split_lines (s : string) : list string :=
  match s with
  | EmptyString => [EmptyString]
  | String c r =>
      if Ascii.eqb c LF then EmptyString :: split_lines r
      else match split_lines r with
           | p :: ps => String c p :: ps
           | [] => [String c EmptyString]
           end
  end.

(** [pieces.join(sep)]. *)
Fixpoint join (sep : string) (pieces : list string) : string :=
  match pieces with
  | [] => EmptyString
  | [p] => p
  | p :: ps => p ++ sep ++ join sep ps
  end.

Definition includes_lf (s : string) : bool :=
  existsb (Ascii.eqb LF) (list_ascii_of_string s).

(** [s.slice(0, n)] and [s.substring(1)]. *)
Fixpoint slice_to (n : nat) (s : string) : string :=
  match n, s with
  | S n', String c r => String c (slice_to n' r)
  | _, _ => EmptyString
  end.

Definition substring1 (s : string) : string :=
  match s with String _ r => r | EmptyString => EmptyString end.

Definition first_char (s : string) : option ascii :=
  match s with String c _ => Some c | EmptyString => None end.

Fixpoint last_char (s : string) : option ascii :=
  match s with
  | EmptyString => None
  | String c EmptyString => Some c
  | String _ r => last_char r
  end.

(** [(s.match(/c1c2/g) || []).length] for a two-character literal
    pattern: matches are taken left to right and do not overlap. *)
Fixpoint match_count2 (c1 c2 : ascii) (s : string) : nat :=
  match s with
  | String a r =>
      match r with
      | String b r' =>
          if Ascii.eqb a c1 && Ascii.eqb b c2
          then S (match_count2 c1 c2 r')
          else match_count2 c1 c2 r
      | EmptyString => 0%nat
      end
  | EmptyString => 0%nat
  end.

Definition BACKTICK : ascii := "`"%char.
Definition DQUOTE : ascii := "034"%char.

(** [s.replace(/```[\s\S]*?```/g, '')]: every span from a fence to the
    nearest following fence is deleted, fences and content alike.  [held]
    is [Some h] inside a span, [h] being the text consumed since (and
    including) its opening fence: it is given back when the input ends
    before a closing fence, since then the pattern matches nowhere in the
    rest. *)
Fixpoint replace_fenced (held : option string) (s : string) : string :=
  match s with
  | EmptyString => match held with Some h => h | None => EmptyString end
  | String a r =>
      let plain :=
        match held with
        | None => String a (replace_fenced None r)
        | Some h => replace_fenced (Some (h ++ String a EmptyString)) r
        end in
      match r with
      | String b (String c r') =>
          if Ascii.eqb a BACKTICK && Ascii.eqb b BACKTICK && Ascii.eqb c BACKTICK
          then match held with
               | None => replace_fenced (Some "```") r'
               | Some _ => replace_fenced None r'
               end
          else plain
      | _ => plain
      end
  end.

(** The piece after the last occurrence of [sep]: [s.split(sep).pop()]. *)
Fixpoint last_piece (sep : ascii) (s : string) : string :=
  match s with
  | EmptyString => EmptyString
  | String c r =>
      if existsb (Ascii.eqb sep) (list_ascii_of_string r) then last_piece sep r
      else if Ascii.eqb c sep then r else s
  end.

Definition count_char (c : ascii) (s : string) : nat :=
  length (filter (fun x => Ascii.eqb x c = true) (list_ascii_of_string s)).

(** Numbers, as far as the code looks at them: it passes them on and
    tests them for truthiness.  Zero and [NaN] are falsy. *)
Inductive number := NaN | Num (q : Q).

Definition truthy_num (n : number) : bool :=
  match n with NaN => false | Num q => negb (Qeq_bool q 0) end.

(** [a || b || c] where [a] and [b] may be absent. *)
Definition or_num (a b : option number) (c : number) : number :=
  match a with
  | Some x => if truthy_num x then x else
                match b with Some y => if truthy_num y then y else c | None => c end
  | None => match b with Some y => if truthy_num y then y else c | None => c end
  end.

(** Values decoded from JSON (and the objects handed to
    [JSON.stringify]). *)
#[warnings="-register-all"] Inductive jsval :=
  | JUndefined
  | JNull
  | JBool (b : bool)
  | JNum (n : number)
  | JStr (s : string)
  | JArr (l : list jsval)
  | JObj (fields : list (string * jsval)).

Definition nullish (v : jsval) : bool :=
  match v with JUndefined | JNull => true | _ => false end.

Definition truthy (v : jsval) : bool :=
  match v with
  | JUndefined | JNull => false
  | JBool b => b
  | JNum n => truthy_num n
  | JStr s => truthy_str s
  | JArr _ | JObj _ => true
  end.

(** [a || b]. *)
Definition or_val (a b : jsval) : jsval := if truthy a then a else b.

(** The own property [k] of an object literal; the last binding wins. *)
Fixpoint field (k : string) (fs : list (string * jsval)) : jsval :=
  match fs with
  | [] => JUndefined
  | (k', v) :: r =>
      match field k r with
      | JUndefined => if String.eqb k k' then v else JUndefined
      | w => w
      end
  end.

(** [v?.k] for the property names the code reads (none of them is a
    built-in property of a string, a number or an array). *)
Definition opt_get (v : jsval) (k : string) : jsval :=
  match v with
  | JObj fs => field k fs
  | _ => JUndefined
  end.

(** [v.k]: reading a property of [null] or [undefined] throws. *)
Definition get (v : jsval) (k : string) : result jsval :=
  match v with
  | JUndefined => Throw ("Cannot read properties of undefined (reading '" ++ k ++ "')")
  | JNull => Throw ("Cannot read properties of null (reading '" ++ k ++ "')")
  | _ => Ok (opt_get v k)
  end.

(** [v?.[0]]. *)
Definition opt_index0 (v : jsval) : jsval :=
  match v with
  | JArr (x :: _) => x
  | JStr (String c _) => JStr (String c EmptyString)
  | JObj fs => field "0" fs
  | _ => JUndefined
  end.

(** [v?.trim()]: absent stays absent, a string is trimmed, anything else
    has no callable [trim]. *)
Definition opt_trim (v : jsval) : result jsval :=
  match v with
  | JUndefined | JNull => Ok JUndefined
  | JStr s => Ok (JStr (trim s))
  | _ => Throw "trim is not a function"
  end.

End Js.

(** ** The host's documents *)

Module Editor.

Record Position := { line : nat; character : nat }.

Inductive EndOfLine := EolLF | EolCRLF.

Definition eol_text (e : EndOfLine) : string :=
  match e with
  | EolLF => String Js.LF EmptyString
  | EolCRLF => String "013"%char (String Js.LF EmptyString)
  end.

(** A document is what the provider reads of it: its identity, its
    language and its lines (a document always has a line). *)
Record TextDocument := {
  uri : string;
  languageId : string;
  fileName : string;
  eol : EndOfLine;
  lines : list string
}.

Definition lineCount (d : TextDocument) : nat := length (lines d).

(** [document.lineAt(i).text]; the host throws for a line that does not
    exist. *)
Definition lineAt (d : TextDocument) (i : nat) : result string :=
  match lines d !! i with
  | Some t => Ok t
  | None => Throw "Illegal value for `line`"
  end.

(** The host adjusts a position to the document before reading a range:
    a line past the end becomes the end of the last line, a column past
    the end of its line becomes the end of that line. *)
Definition validatePosition (d : TextDocument) (p : Position) : Position :=
  if decide (lineCount d ≤ line p)%nat
  then {| line := pred (lineCount d);
          character := String.length (default EmptyString (last (lines d))) |}
  else {| line := line p;
          character := Nat.min (character p)
                         (String.length (default EmptyString (lines d !! line p))) |}.

(** [document.getText(new Range(new Position(0,0), p))]. *)
Definition getText_upto (d : TextDocument) (p : Position) : string :=
  let q := validatePosition d p in
  Js.join (eol_text (eol d))
    (take (line q) (lines d)
     ++ [Js.slice_to (character q) (default EmptyString (lines d !! line q))]).

End Editor.

(** ** The provider's text heuristics *)

Module Heuristics.
Import Editor.

(** Post-process the completion to strip formatting and apply
    indentation.  [language] is not used by the code. *)
Definition postProcessCompletion (text language currentLine : string) : string :=
  let text := Js.trim (Js.replace_fenced None text) in
  let indent := Js.leading_space currentLine in
  let text :=
    if Js.includes_lf text
    then Js.join (String Js.LF EmptyString)
           (imap (fun i ln => match i with O => ln | S _ => indent ++ ln end)
                 (Js.split_lines text))
    else text in
  let is_open (c : option ascii) :=
    match c with
    | Some c => Ascii.eqb c "{" || Ascii.eqb c "[" || Ascii.eqb c "("
    | None => false
    end in
  if is_open (Js.last_char (Js.trim currentLine))
     && is_open (Js.first_char (Js.trim text))
  then Js.substring1 (Js.trim text)
  else text.

(** Rough heuristic: count the opening and the closing markers of block
    comments in the text before the cursor. *)
Definition isInComment (d : TextDocument) (p : Position) : bool :=
  let txt := getText_upto d p in
  let opens := Js.match_count2 "/" "*" txt in
  let closes := Js.match_count2 "*" "/" txt in
  bool_decide (closes < opens)%nat.

(** An odd number of one kind of quote before the cursor on its line. *)
Definition isInString (d : TextDocument) (p : Position) : result bool :=
  bind_result (lineAt d (line p)) (fun t =>
    let ln := Js.slice_to (character p) t in
    let sq := Js.count_char "'" ln in
    let dq := Js.count_char Js.DQUOTE ln in
    let bt := Js.count_char Js.BACKTICK ln in
    Ok (Nat.odd sq || Nat.odd dq || Nat.odd bt)).

(** What the provider reads of the host's [InlineCompletionContext]. *)
Record InlineCompletionContext := { selectedCompletionInfo : bool }.

Definition shouldSkipCompletion (d : TextDocument) (p : Position)
    (c : InlineCompletionContext) : result bool :=
  if selectedCompletionInfo c then Ok true
  else bind_result (lineAt d (line p)) (fun lineText =>
    if negb (Js.truthy_str (Js.trim lineText)) then Ok true
    else if isInComment d p then Ok true
    else isInString d p).

(** One entry of [languageConfig], of the shape the field is declared
    with: two natural numbers and a list of patterns.  A pattern is kept
    as its source text and tested through the runtime's matcher. *)
Record LanguageSettings := {
  contextLines : nat;
  fileImportance : nat;
  importantSections : list string
}.

(** The context handed to the callback; [currentLine] is the last line
    read, [undefined] when none was. *)
Record CompletionContext := {
  prefixCode : string;
  currentLine : option string;
  completePrompt : string
}.

(** An own entry of the table.  The built-in entries have the declared
    shape.  [loadConfiguration] merges entries from the user's settings
    without checking them; for an entry of another shape (a field that is
    not a natural number, patterns that are not regular expressions) what
    building the context does with it, which lines it reads and whether it
    throws, is left open: the entry carries that behaviour, and the
    properties of the provider hold whatever it is. *)
Inductive TableEntry :=
  | Shaped (cfg : LanguageSettings)
  | Unchecked (build : TextDocument -> Position -> string -> result CompletionContext).

Definition default_settings : LanguageSettings :=
  {| contextLines := 30; fileImportance := 5; importantSections := [] |}.

Definition builtin_languageConfig : gmap string TableEntry :=
  list_to_map [
    ("typescript", Shaped {| contextLines := 50; fileImportance := 7;
       importantSections := ["interface\s+\w+"; "class\s+\w+"; "function\s+\w+"; "type\s+\w+"] |});
    ("javascript", Shaped {| contextLines := 50; fileImportance := 7;
       importantSections := ["class\s+\w+"; "function\s+\w+"; "const\s+\w+\s*=\s*function"; "export\s+"] |});
    ("python", Shaped {| contextLines := 40; fileImportance := 8;
       importantSections := ["def\s+\w+"; "class\s+\w+"; "import\s+"; "from\s+.+\s+import"] |});
    ("java", Shaped {| contextLines := 60; fileImportance := 5;
       importantSections := ["class\s+\w+"; "interface\s+\w+"; "public\s+\w+"; "private\s+\w+"] |});
    ("default", Shaped default_settings)
  ].

(** The table is a plain object: besides its own entries, a lookup finds
    what every object inherits from [Object.prototype]. *)
Definition OBJECT_PROTOTYPE_KEYS : list string :=
  ["constructor"; "hasOwnProperty"; "isPrototypeOf"; "propertyIsEnumerable";
   "toLocaleString"; "toString"; "valueOf"; "__proto__";
   "__defineGetter__"; "__defineSetter__"; "__lookupGetter__"; "__lookupSetter__"].

(** What [this.languageConfig[language]] gives: an entry, an inherited
    member (a function, or the prototype itself: truthy, and without any of
    the fields of an entry), or [undefined]. *)
Inductive TableValue :=
  | Entry (e : TableEntry)
  | Inherited
  | Undefined.

Definition table_get (cfgs : gmap string TableEntry) (k : string) : TableValue :=
  match cfgs !! k with
  | Some e => Entry e
  | None => if bool_decide (k ∈ OBJECT_PROTOTYPE_KEYS) then Inherited else Undefined
  end.

(** [this.languageConfig[language] || this.languageConfig.default] *)
Definition language_settings (cfgs : gmap string TableEntry) (language : string)
  : TableValue :=
  match table_get cfgs language with
  | Undefined => table_get cfgs "default"
  | v => v
  end.

Section WithMatcher.
(** [new RegExp(source).test(line)], supplied by the runtime. *)
Variable regexp_test : string -> string -> bool.

Definition getLanguageHint (language : string) (ext : string) : string :=
  let fileType := if Js.truthy_str ext then " (" ++ ext ++ " file)" else "" in
  "// Language: " ++ language ++ fileType.

(** The lines among the first 200 that match one of the patterns, each
    followed by a line feed. *)
Definition getImportantDeclarations (d : TextDocument) (patterns : list string) : string :=
  let max := Nat.min (lineCount d) 200 in
  foldl (fun decl ln =>
           if existsb (fun p => regexp_test p ln) patterns
           then decl ++ ln ++ String Js.LF EmptyString else decl)
        EmptyString (take max (lines d)).

(** The lines [start .. line p] of the document, the last one cut at
    the cursor; reading a line that does not exist throws. *)
Fixpoint window (d : TextDocument) (p : Position) (i n : nat) : result (list string) :=
  match n with
  | O => Ok []
  | S n' =>
      bind_result (lineAt d i) (fun txt =>
        bind_result (window d p (S i) n') (fun rest =>
          Ok ((if decide (i = line p) then Js.slice_to (character p) txt else txt) :: rest)))
  end.

(** Build smart context around the cursor for completion.  With an entry
    of the declared shape the loop runs from [start] to the cursor's line.
    With an inherited member [cfg.contextLines] is [undefined], [start] is
    [NaN], the loop does not run and nothing is compared with
    [fileImportance].  Without any value ([default] missing too) reading
    [cfg.contextLines] throws. *)
Definition getSmartCompletionContext (cfgs : gmap string TableEntry)
    (d : TextDocument) (p : Position) (language : string) : result CompletionContext :=
  let hint := getLanguageHint language (Js.last_piece "." (fileName d)) in
  match language_settings cfgs language with
  | Entry (Unchecked build) => build d p language
  | Entry (Shaped cfg) =>
      let start := (line p - contextLines cfg)%nat in
      bind_result (window d p start (S (line p) - start)) (fun ls =>
        let prefix := Js.join (String Js.LF EmptyString) ls in
        let imports :=
          if decide (3 < fileImportance cfg)%nat
          then let found := getImportantDeclarations d (importantSections cfg) in
               if Js.truthy_str found then found ++ String Js.LF EmptyString else found
          else EmptyString in
        Ok {| prefixCode := prefix;
              currentLine := last ls;
              completePrompt := hint ++ String Js.LF EmptyString ++ imports ++ prefix |})
  | Inherited =>
      Ok {| prefixCode := EmptyString;
            currentLine := None;
            completePrompt := hint ++ String Js.LF EmptyString |}
  | Undefined => Throw "Cannot read properties of undefined (reading 'contextLines')"
  end.
End WithMatcher.

End Heuristics.

(** ** The model descriptors (models/aiModels.ts) *)

Module AiModels.

Record AIModel := {
  name : string;
  id : string;
  provider : string;
  maxTokens : Z;
  description : string;
  secretKeyName : string;
  defaultEndpoint : string
}.

Definition SUPPORTED_MODELS : list AIModel := [
  {| name := "GPT-4"; id := "gpt-4"; provider := "OpenAI"; maxTokens := 4000;
     description := "OpenAI GPT-4 - Advanced reasoning capabilities";
     secretKeyName := "openaiApiKey";
     defaultEndpoint := "https://api.openai.com/v1/chat/completions" |};
  {| name := "GPT-3.5 Turbo"; id := "gpt-3.5-turbo"; provider := "OpenAI"; maxTokens := 4000;
     description := "OpenAI GPT-3.5 Turbo - Fast and cost-effective";
     secretKeyName := "openaiApiKey";
     defaultEndpoint := "https://api.openai.com/v1/chat/completions" |};
  {| name := "Claude 3 Opus"; id := "claude-3-opus"; provider := "Anthropic"; maxTokens := 4000;
     description := "Anthropic Claude 3 Opus - Most capable Claude model";
     secretKeyName := "anthropicApiKey";
     defaultEndpoint := "https://api.anthropic.com/v1/messages" |};
  {| name := "Claude 3 Sonnet"; id := "claude-3-sonnet"; provider := "Anthropic"; maxTokens := 4000;
     description := "Anthropic Claude 3 Sonnet - Balanced performance";
     secretKeyName := "anthropicApiKey";
     defaultEndpoint := "https://api.anthropic.com/v1/messages" |};
  {| name := "Gemini Pro"; id := "gemini-pro"; provider := "Google"; maxTokens := 4000;
     description := "Google Gemini Pro - Google's advanced AI model";
     secretKeyName := "googleApiKey";
     defaultEndpoint := "https://generativelanguage.googleapis.com/v1beta/models/gemini-pro:generateContent" |};
  {| name := "Gemini 1.5 Pro"; id := "gemini-1.5-pro"; provider := "Google"; maxTokens := 8000;
     description := "Google Gemini 1.5 Pro - Latest Google AI model";
     secretKeyName := "googleApiKey";
     defaultEndpoint := "https://generativelanguage.googleapis.com/v1beta/models/gemini-1.5-pro:generateContent" |};
  {| name := "Custom Model"; id := "custom"; provider := "Custom"; maxTokens := 4000;
     description := "Custom API endpoint for other models";
     secretKeyName := "customApiKey";
     defaultEndpoint := "" |}
].

Definition getModelById (i : string) : option AIModel :=
  find (fun m => String.eqb (id m) i) SUPPORTED_MODELS.

(** One turn of a conversation. *)
Record Message := { role : string; content : Js.jsval }.

(** The request handed to a provider-specific builder.  [callModel] always
    fills in the token limit, the temperature and the endpoint. *)
Record ApiRequest := {
  prompt : string;
  systemPrompt : option string;
  req_maxTokens : Js.number;
  temperature : Js.number;
  apiKey : string;
  endpoint : string;
  messages : option (list Message)
}.

Record ApiResponse := {
  text : Js.jsval;
  model : string;
  usage : option Js.jsval;
  error : option string
}.

End AiModels.

(** ** The API client (models/apiClient.ts) *)

Module ApiClient.
Import AiModels.

(** What [fetch] is called with; [body] is the object given to
    [JSON.stringify]. *)
Record WireRequest := {
  url : string;
  method : string;
  headers : list (string * string);
  body : Js.jsval
}.

(** What the code reads of a reply: [ok], [status], and the body through
    [text()] or [json()], either of which may throw. *)
Record Response := {
  ok : bool;
  status : Z;
  body_text : result string;
  body_json : result Js.jsval
}.

(** The world around the client: the secret storage (whose [get] answers
    with the stored text or [undefined], or rejects), the three settings
    the client reads, the network, and the runtime's [+] on decoded
    values. *)
Record Host := {
  secrets : string -> result (option string);
  customModelEndpoint : option string;
  cfg_maxTokens : option Js.number;
  cfg_temperature : option Js.number;
  fetch : WireRequest -> result Response;
  js_add : Js.jsval -> Js.jsval -> Js.jsval
}.

(** Computations that may throw and that record every request put on the
    wire, oldest first. *)
Definition M (A : Type) : Type := list WireRequest -> result A * list WireRequest.

Definition ret {A} (a : A) : M A := fun log => (Ok a, log).
Definition throw {A} (msg : string) : M A := fun log => (Throw msg, log).
Definition bind {A B} (m : M A) (k : A -> M B) : M B :=
  fun log => match m log with
             | (Ok a, log') => k a log'
             | (Throw msg, log') => (Throw msg, log')
             end.
Definition lift {A} (r : result A) : M A := fun log => (r, log).
Definition try_catch {A} (m : M A) (handler : string -> M A) : M A :=
  fun log => match m log with
             | (Ok a, log') => (Ok a, log')
             | (Throw msg, log') => handler msg log'
             end.
Definition do_fetch (h : Host) (w : WireRequest) : M Response :=
  fun log => (fetch h w, (log ++ [w])%list).

Notation "'let*' x ':=' m 'in' k" := (bind m (fun x => k))
  (at level 10, x name, m at level 100, k at level 200, only parsing).

Record Options := {
  o_systemPrompt : option string;
  o_maxTokens : option Js.number;
  o_temperature : option Js.number;
  o_endpoint : option string;
  o_messages : option (list Message)
}.

Definition no_options : Options :=
  {| o_systemPrompt := None; o_maxTokens := None; o_temperature := None;
     o_endpoint := None; o_messages := None |}.

Definition message_js (m : Message) : Js.jsval :=
  Js.JObj [("role", Js.JStr (role m)); ("content", content m)].

Definition opt_str_js (s : option string) : Js.jsval :=
  match s with Some s => Js.JStr s | None => Js.JUndefined end.

(** [if (!response.ok) throw new Error(vendor + " API error (status): " + text)] *)
Definition check_ok (vendor : string) (r : Response) : M unit :=
  if ok r then ret tt
  else let* errorText := lift (body_text r) in
       throw (vendor ++ " API error (" ++ pretty (status r) ++ "): " ++ errorText).

Definition callOpenAI (h : Host) (request : ApiRequest) (m : AIModel) : M ApiResponse :=
  let msgs :=
    match messages request with
    | Some ms => ms
    | None =>
        (match systemPrompt request with
         | Some sp => if Js.truthy_str sp then [{| role := "system"; content := Js.JStr sp |}] else []
         | None => []
         end ++ [{| role := "user"; content := Js.JStr (prompt request) |}])%list
    end in
  let* response := do_fetch h
    {| url := Js.or_str (endpoint request) (defaultEndpoint m);
       method := "POST";
       headers := [("Content-Type", "application/json");
                   ("Authorization", "Bearer " ++ apiKey request)];
       body := Js.JObj [("model", Js.JStr (id m));
                        ("messages", Js.JArr (map message_js msgs));
                        ("max_tokens", Js.JNum (req_maxTokens request));
                        ("temperature", Js.JNum (temperature request))] |} in
  let* _ := check_ok "OpenAI" response in
  let* data := lift (body_json response) in
  let* choices := lift (Js.get data "choices") in
  let* trimmed := lift (Js.opt_trim
      (Js.opt_get (Js.opt_get (Js.opt_index0 choices) "message") "content")) in
  let u := Js.opt_get data "usage" in
  ret {| text := Js.or_val trimmed (Js.JStr "");
         model := id m;
         usage := Some (Js.JObj [("promptTokens", Js.opt_get u "prompt_tokens");
                                 ("completionTokens", Js.opt_get u "completion_tokens");
                                 ("totalTokens", Js.opt_get u "total_tokens")]);
         error := None |}.

Definition callAnthropic (h : Host) (request : ApiRequest) (m : AIModel) : M ApiResponse :=
  let msgs :=
    match messages request with
    | Some ms => ms
    | None => [{| role := "user"; content := Js.JStr (prompt request) |}]
    end in
  let* response := do_fetch h
    {| url := Js.or_str (endpoint request) (defaultEndpoint m);
       method := "POST";
       headers := [("Content-Type", "application/json");
                   ("X-API-Key", apiKey request);
                   ("anthropic-version", "2023-06-01")];
       body := Js.JObj [("model", Js.JStr (id m));
                        ("messages", Js.JArr (map message_js msgs));
                        ("system", opt_str_js (systemPrompt request));
                        ("max_tokens", Js.JNum (req_maxTokens request))] |} in
  let* _ := check_ok "Anthropic" response in
  let* data := lift (body_json response) in
  let* parts := lift (Js.get data "content") in
  let u := Js.opt_get data "usage" in
  ret {| text := Js.or_val (Js.opt_get (Js.opt_index0 parts) "text") (Js.JStr "");
         model := id m;
         usage := Some (Js.JObj
           [("totalTokens", js_add h (Js.opt_get u "input_tokens") (Js.opt_get u "output_tokens"));
            ("promptTokens", Js.opt_get u "input_tokens");
            ("completionTokens", Js.opt_get u "output_tokens")]);
         error := None |}.

Definition callGoogle (h : Host) (request : ApiRequest) (m : AIModel) : M ApiResponse :=
  let apiEndpoint := Js.or_str (endpoint request) (defaultEndpoint m) in
  let apiUrl := apiEndpoint ++ "?key=" ++ apiKey request in
  let msgs :=
    match messages request with
    | Some ms => ms
    | None => [{| role := "user"; content := Js.JStr (prompt request) |}]
    end in
  let contents :=
    map (fun msg => Js.JObj
           [("role", Js.JStr (if String.eqb (role msg) "system" then "user" else role msg));
            ("parts", Js.JArr [Js.JObj [("text", content msg)]])]) msgs in
  let* response := do_fetch h
    {| url := apiUrl;
       method := "POST";
       headers := [("Content-Type", "application/json")];
       body := Js.JObj [("contents", Js.JArr contents);
                        ("generationConfig", Js.JObj
                           [("maxOutputTokens", Js.JNum (req_maxTokens request));
                            ("temperature", Js.JNum (temperature request))])] |} in
  let* _ := check_ok "Google" response in
  let* data := lift (body_json response) in
  let* candidates := lift (Js.get data "candidates") in
  ret {| text := Js.or_val
           (Js.opt_get (Js.opt_index0
              (Js.opt_get (Js.opt_get (Js.opt_index0 candidates) "content") "parts")) "text")
           (Js.JStr "");
         model := id m;
         usage := Some (Js.JObj
           [("totalTokens", Js.opt_get (Js.opt_get data "usageMetadata") "totalTokenCount")]);
         error := None |}.

Definition callCustomModel (h : Host) (request : ApiRequest) (m : AIModel) : M ApiResponse :=
  if negb (Js.truthy_str (endpoint request))
  then throw "No endpoint specified for custom model"
  else
  let* response := do_fetch h
    {| url := endpoint request;
       method := "POST";
       headers := [("Content-Type", "application/json");
                   ("Authorization", "Bearer " ++ apiKey request)];
       body := Js.JObj [("prompt", Js.JStr (prompt request));
                        ("max_tokens", Js.JNum (req_maxTokens request));
                        ("temperature", Js.JNum (temperature request))] |} in
  let* _ := check_ok "Custom" response in
  let* data := lift (body_json response) in
  let* choices := lift (Js.get data "choices") in
  ret {| text := Js.or_val
           (Js.or_val
              (Js.or_val (Js.opt_get (Js.opt_get (Js.opt_index0 choices) "message") "content")
                         (Js.opt_get data "text"))
              (Js.opt_get data "completion"))
           (Js.JStr "");
         model := "custom";
         usage := Some (Js.or_val (Js.opt_get data "usage") (Js.JObj []));
         error := None |}.

(** The request [callModel] builds once the descriptor and the key are
    known: the endpoint, and the token limit and temperature defaulted with
    [||]. *)
Definition build_request (h : Host) (m : AIModel) (prompt : string) (o : Options)
    (key : string) : ApiRequest :=
  let endpoint0 := Js.or_str (default EmptyString (o_endpoint o)) (defaultEndpoint m) in
  let endpoint :=
    if String.eqb (id m) "custom"
    then match customModelEndpoint h with
         | Some e => if Js.truthy_str e then e else endpoint0
         | None => endpoint0
         end
    else endpoint0 in
  {| prompt := prompt;
     systemPrompt := o_systemPrompt o;
     req_maxTokens := Js.or_num (o_maxTokens o) (cfg_maxTokens h) (Js.Num 1024);
     temperature := Js.or_num (o_temperature o) (cfg_temperature h) (Js.Num (7 # 10));
     apiKey := key;
     endpoint := endpoint;
     messages := o_messages o |}.

Definition failure (msg : string) (modelId : string) : ApiResponse :=
  {| text := Js.JStr ("Error: " ++ msg); model := modelId; usage := None; error := Some msg |}.

Definition dispatch (h : Host) (request : ApiRequest) (m : AIModel) : M ApiResponse :=
  if String.eqb (provider m) "OpenAI" then callOpenAI h request m
  else if String.eqb (provider m) "Anthropic" then callAnthropic h request m
  else if String.eqb (provider m) "Google" then callGoogle h request m
  else if String.eqb (provider m) "Custom" then callCustomModel h request m
  else ret (failure ("Unsupported model provider " ++ provider m) (id m)).

(** Call the specified AI model with a prompt. *)
Definition callModel (h : Host) (modelId prompt : string) (o : Options) : M ApiResponse :=
  match getModelById modelId with
  | None => ret (failure "Invalid model ID" modelId)
  | Some m =>
      let* apiKey := lift (secrets h (secretKeyName m)) in
      match apiKey with
      | None | Some EmptyString =>
          ret {| text := Js.JStr ("Error: No API key found for " ++ name m
                            ++ ". Please set your API key in the extension settings.");
                 model := id m; usage := None; error := Some "No API key found" |}
      | Some key =>
          try_catch (dispatch h (build_request h m prompt o key) m)
                    (fun msg => ret (failure msg (id m)))
      end
  end.

End ApiClient.

(** ** The chat view (webviews/chatViewProvider.ts) *)

Module Chat.
Import AiModels ApiClient.

(** The provider's two fields; the messages it posts to the web view only
    repaint it and are left out. *)
Record ChatViewProvider := {
  view : bool;
  chatHistory : list Message
}.

Definition _clearChat (c : ChatViewProvider) : ChatViewProvider :=
  {| view := view c; chatHistory := [] |}.

Definition clearHistory (c : ChatViewProvider) : ChatViewProvider := _clearChat c.

Definition push (c : ChatViewProvider) (m : Message) : ChatViewProvider :=
  {| view := view c; chatHistory := (chatHistory c ++ [m])%list |}.

Definition BASE_PROMPT : string :=
  "You are an AI coding assistant helping with programming tasks.".

Definition CONTEXT_INTRO : string :=
  " Here is some context from the current workspace:"
  ++ String Js.LF (String Js.LF EmptyString).

(** Send a message to the model and record the reply.  [defaultModel] is
    the setting of that name and [workspaceContext] what
    [_getWorkspaceContext] returns (it reads the active editor and never
    throws). *)
Definition _sendMessage (h : Host) (defaultModel workspaceContext : option string)
    (c : ChatViewProvider) (message : string) : M ChatViewProvider :=
  if negb (view c) then ret c
  else
    let c := push c {| role := "user"; content := Js.JStr message |} in
    try_catch
      (let modelId := Js.or_str (default EmptyString defaultModel) "gpt-4" in
       let shouldAddContext := bool_decide (length (chatHistory c) = 1%nat) in
       let msgs := chatHistory c in
       let systemPrompt :=
         if shouldAddContext
         then match workspaceContext with
              | Some w => if Js.truthy_str w then BASE_PROMPT ++ CONTEXT_INTRO ++ w
                          else BASE_PROMPT
              | None => BASE_PROMPT
              end
         else BASE_PROMPT in
       let* response := callModel h modelId message
         {| o_systemPrompt := Some systemPrompt;
            o_maxTokens := Some (Js.Num 1000);
            o_temperature := None;
            o_endpoint := None;
            o_messages := Some msgs |} in
       let reply :=
         match error response with
         | Some e => if Js.truthy_str e then Js.JStr e else text response
         | None => text response
         end in
       ret (push c {| role := "assistant"; content := reply |}))
      (fun msg => ret (push c {| role := "assistant"; content := Js.JStr ("Error: " ++ msg) |})).

End Chat.

(** ** Notions the specification uses *)

Module Spec.

(** The number of places in [s] where the two characters [c1 c2] occur. *)
Fixpoint occurrences2 (c1 c2 : ascii) (s : string) : nat :=
  match s with
  | String a r =>
      ((match r with
        | String b _ => if Ascii.eqb a c1 && Ascii.eqb b c2 then 1 else 0
        | EmptyString => 0
        end) + occurrences2 c1 c2 r)%nat
  | EmptyString => 0%nat
  end.

(** Times, newest first, any two neighbours at least a second apart. *)
Fixpoint spaced (ts : list Z) : Prop :=
  match ts with
  | t1 :: ((t2 :: _) as r) => t2 + 1000 ≤ t1 ∧ spaced r
  | _ => True
  end.

End Spec.

(** ** The completion provider (providers/inlineCompletionProvider.ts) *)

Module Completion.
Import Editor Heuristics.

Record InlineCompletionItem := { insertText : string; range : Position * Position }.
Record InlineCompletionList := { items : list InlineCompletionItem }.

Definition no_items : InlineCompletionList := {| items := [] |}.

(** What the debounced callback captured when it was created: the key, the
    promise it resolves, the cursor and the caller's cancellation token. *)
Record Job := {
  j_key : string;
  j_promise : nat;
  j_position : Position;
  j_token : nat
}.

(** A callback suspended at [await this.apiClient.callModel(...)], with the
    locals it uses afterwards. *)
Record Awaiting := {
  a_job : Job;
  a_language : string;
  a_currentLine : string
}.

(** One invocation of [callModel]; the options are always
    [{ systemPrompt, maxTokens: 150, temperature: 0.3 }]. *)
Record ModelCall := {
  c_time : Z;
  c_promise : nat;
  c_model : string;
  c_prompt : string;
  c_systemPrompt : string
}.

Record Settings := {
  completionDelay : Z;
  defaultModel : string;
  languageConfig : gmap string TableEntry
}.

(** The provider's fields, followed by the part of the event loop it acts
    on: the callbacks awaiting a reply, the promises settled so far (with
    their values), the next fresh promise, every model call made (newest
    first), the tokens whose cancellation was requested, in the order above. *)
Record Provider := {
  enabled : bool;
  debounceTimeout : option (Z * Job);
  lastCompletionTime : Z;
  pendingCompletions : gmap string nat;
  completionCache : gmap string (Z * InlineCompletionList);
  settings : Settings;
  awaiting : list Awaiting;
  settled : gmap nat InlineCompletionList;
  next_promise : nat;
  calls : list ModelCall;
  cancelled : gset nat
}.

Definition initial (cfg : Settings) : Provider :=
  {| enabled := true; debounceTimeout := None; lastCompletionTime := 0;
     pendingCompletions := ∅; completionCache := ∅; settings := cfg;
     awaiting := []; settled := ∅; next_promise := 0%nat; calls := [];
     cancelled := ∅ |}.

Definition set_enabled (b : bool) (s : Provider) : Provider :=
  {| enabled := b; debounceTimeout := debounceTimeout s;
     lastCompletionTime := lastCompletionTime s;
     pendingCompletions := pendingCompletions s; completionCache := completionCache s;
     settings := settings s; awaiting := awaiting s; settled := settled s;
     next_promise := next_promise s; calls := calls s; cancelled := cancelled s |}.

Definition set_timer (t : option (Z * Job)) (s : Provider) : Provider :=
  {| enabled := enabled s; debounceTimeout := t;
     lastCompletionTime := lastCompletionTime s;
     pendingCompletions := pendingCompletions s; completionCache := completionCache s;
     settings := settings s; awaiting := awaiting s; settled := settled s;
     next_promise := next_promise s; calls := calls s; cancelled := cancelled s |}.

Definition set_last (t : Z) (s : Provider) : Provider :=
  {| enabled := enabled s; debounceTimeout := debounceTimeout s;
     lastCompletionTime := t;
     pendingCompletions := pendingCompletions s; completionCache := completionCache s;
     settings := settings s; awaiting := awaiting s; settled := settled s;
     next_promise := next_promise s; calls := calls s; cancelled := cancelled s |}.

Definition set_pending (m : gmap string nat) (s : Provider) : Provider :=
  {| enabled := enabled s; debounceTimeout := debounceTimeout s;
     lastCompletionTime := lastCompletionTime s;
     pendingCompletions := m; completionCache := completionCache s;
     settings := settings s; awaiting := awaiting s; settled := settled s;
     next_promise := next_promise s; calls := calls s; cancelled := cancelled s |}.

Definition set_cache (m : gmap string (Z * InlineCompletionList)) (s : Provider) : Provider :=
  {| enabled := enabled s; debounceTimeout := debounceTimeout s;
     lastCompletionTime := lastCompletionTime s;
     pendingCompletions := pendingCompletions s; completionCache := m;
     settings := settings s; awaiting := awaiting s; settled := settled s;
     next_promise := next_promise s; calls := calls s; cancelled := cancelled s |}.

Definition set_awaiting (l : list Awaiting) (s : Provider) : Provider :=
  {| enabled := enabled s; debounceTimeout := debounceTimeout s;
     lastCompletionTime := lastCompletionTime s;
     pendingCompletions := pendingCompletions s; completionCache := completionCache s;
     settings := settings s; awaiting := l; settled := settled s;
     next_promise := next_promise s; calls := calls s; cancelled := cancelled s |}.

Definition set_settled (m : gmap nat InlineCompletionList) (s : Provider) : Provider :=
  {| enabled := enabled s; debounceTimeout := debounceTimeout s;
     lastCompletionTime := lastCompletionTime s;
     pendingCompletions := pendingCompletions s; completionCache := completionCache s;
     settings := settings s; awaiting := awaiting s; settled := m;
     next_promise := next_promise s; calls := calls s; cancelled := cancelled s |}.

Definition set_next (n : nat) (s : Provider) : Provider :=
  {| enabled := enabled s; debounceTimeout := debounceTimeout s;
     lastCompletionTime := lastCompletionTime s;
     pendingCompletions := pendingCompletions s; completionCache := completionCache s;
     settings := settings s; awaiting := awaiting s; settled := settled s;
     next_promise := n; calls := calls s; cancelled := cancelled s |}.

Definition set_calls (l : list ModelCall) (s : Provider) : Provider :=
  {| enabled := enabled s; debounceTimeout := debounceTimeout s;
     lastCompletionTime := lastCompletionTime s;
     pendingCompletions := pendingCompletions s; completionCache := completionCache s;
     settings := settings s; awaiting := awaiting s; settled := settled s;
     next_promise := next_promise s; calls := l; cancelled := cancelled s |}.

Definition set_cancelled (c : gset nat) (s : Provider) : Provider :=
  {| enabled := enabled s; debounceTimeout := debounceTimeout s;
     lastCompletionTime := lastCompletionTime s;
     pendingCompletions := pendingCompletions s; completionCache := completionCache s;
     settings := settings s; awaiting := awaiting s; settled := settled s;
     next_promise := next_promise s; calls := calls s; cancelled := c |}.

(** The cache key: document, line and column. *)
Definition cache_key (d : TextDocument) (p : Position) : string :=
  uri d ++ "|" ++ pretty (line p) ++ ":" ++ pretty (character p).

(** What a caller of [provideInlineCompletionItems] gets: a list at once,
    the value of a stored promise once that settles, or a rejection. *)
Inductive answer :=
  | Returned (l : InlineCompletionList)
  | Awaits (promise : nat)
  | Rejected (msg : string).

(** [resolve(v)] followed by [this.pendingCompletions.delete(key)]; a
    promise keeps the first value it is resolved with. *)
Definition settle (j : Job) (v : InlineCompletionList) (s : Provider) : Provider :=
  set_pending (delete (j_key j) (pendingCompletions s))
    (set_settled (match settled s !! j_promise j with
                  | None => <[j_promise j := v]> (settled s)
                  | Some _ => settled s
                  end) s).

Section WithMatcher.
Variable regexp_test : string -> string -> bool.

(** Provide inline completion items with caching and debouncing. *)
Definition provideInlineCompletionItems (s : Provider) (d : TextDocument) (p : Position)
    (c : InlineCompletionContext) (token : nat) (now : Z) : answer * Provider :=
  if negb (enabled s) then (Returned no_items, s)
  else match shouldSkipCompletion d p c with
  | Throw msg => (Rejected msg, s)
  | Ok true => (Returned no_items, s)
  | Ok false =>
      let key := cache_key d p in
      let fresh :=
        match completionCache s !! key with
        | Some (expiresAt, l) => if decide (now < expiresAt) then Some l else None
        | None => None
        end in
      match fresh with
      | Some l => (Returned l, s)
      | None =>
          match pendingCompletions s !! key with
          | Some pr => (Awaits pr, s)
          | None =>
              let pr := next_promise s in
              let j := {| j_key := key; j_promise := pr; j_position := p; j_token := token |} in
              (Awaits pr,
               set_pending (<[key := pr]> (pendingCompletions s))
                 (set_timer (Some (now + completionDelay (settings s), j))
                    (set_next (S pr) s)))
          end
      end
  end.

Definition SYSTEM_PROMPT (language : string) : string :=
  "You are an AI programming assistant for " ++ language
  ++ ". Continue the code after the cursor, closing brackets and respecting indentation. Return only the code completion.".

(** The debounced callback up to its [await]: [d] is the document as it is
    when the timer fires. *)
Definition on_timeout (j : Job) (d : TextDocument) (now : Z) (s : Provider) : Provider :=
  if decide (now - lastCompletionTime s < 1000) then settle j no_items s
  else
    let s := set_last now s in
    let language := languageId d in
    match getSmartCompletionContext regexp_test (languageConfig (settings s)) d (j_position j) language with
    | Throw _ => settle j no_items s
    | Ok ctx =>
        match currentLine ctx with
        | None => settle j no_items s
        | Some current =>
            if bool_decide (String.length current < 10)%nat
               && bool_decide (String.length (prefixCode ctx) < 20)%nat
            then settle j no_items s
            else if decide (j_token j ∈ cancelled s) then settle j no_items s
            else
              set_calls ({| c_time := now; c_promise := j_promise j;
                            c_model := defaultModel (settings s);
                            c_prompt := completePrompt ctx;
                            c_systemPrompt := SYSTEM_PROMPT language |} :: calls s)
                (set_awaiting ({| a_job := j; a_language := language;
                                  a_currentLine := current |} :: awaiting s) s)
        end
    end.

(** The rest of the callback, once [callModel] has answered (or thrown). *)
Definition on_reply (a : Awaiting) (r : result AiModels.ApiResponse) (now : Z)
    (s : Provider) : Provider :=
  let j := a_job a in
  match r with
  | Throw _ => settle j no_items s
  | Ok response =>
      let failed :=
        match AiModels.error response with
        | Some e => Js.truthy_str e
        | None => false
        end in
      if failed || negb (Js.truthy (AiModels.text response)) then settle j no_items s
      else match AiModels.text response with
           | Js.JStr t =>
               let text := postProcessCompletion (Js.trim t) (a_language a) (a_currentLine a) in
               let l := {| items := [{| insertText := text;
                                        range := (j_position j, j_position j) |}] |} in
               settle j l
                 (set_cache (<[j_key j := (now + 30000, l)]> (completionCache s)) s)
           | _ => settle j no_items s
           end
  end.

(** What can happen next. *)
Inductive event :=
  | Provide (d : TextDocument) (p : Position) (c : InlineCompletionContext)
            (token : nat) (now : Z)
  | TimerFires (d : TextDocument) (now : Z)
  | Reply (promise : nat) (r : result AiModels.ApiResponse) (now : Z)
  | SetEnabled (b : bool)
  | Cancel (token : nat).

Definition take_awaiting (pr : nat) (l : list Awaiting)
  : option (Awaiting * list Awaiting) :=
  match filter (fun a => j_promise (a_job a) = pr) l with
  | a :: _ => Some (a, filter (fun a => j_promise (a_job a) ≠ pr) l)
  | [] => None
  end.

(** One turn of the event loop.  A timer does not fire before its delay
    has passed, and only a call that was made can be answered. *)
Definition step (s : Provider) (e : event) : option Provider :=
  match e with
  | Provide d p c token now =>
      Some (snd (provideInlineCompletionItems s d p c token now))
  | TimerFires d now =>
      match debounceTimeout s with
      | Some (due, j) =>
          if decide (due ≤ now) then Some (on_timeout j d now (set_timer None s))
          else None
      | None => None
      end
  | Reply pr r now =>
      match take_awaiting pr (awaiting s) with
      | Some (a, rest) => Some (on_reply a r now (set_awaiting rest s))
      | None => None
      end
  | SetEnabled b => Some (set_enabled b s)
  | Cancel token => Some (set_cancelled ({[token]} ∪ cancelled s) s)
  end.

(** When an event happens, for those that read the clock. *)
Definition event_time (e : event) : option Z :=
  match e with
  | Provide _ _ _ _ now | TimerFires _ now | Reply _ _ now => Some now
  | SetEnabled _ | Cancel _ => None
  end.

Fixpoint run (s : Provider) (es : list event) : option Provider :=
  match es with
  | [] => Some s
  | e :: es' => match step s e with Some s' => run s' es' | None => None end
  end.

Inductive reachable : Provider -> Prop :=
  | reachable_initial cfg : reachable (initial cfg)
  | reachable_step s e s' : reachable s -> step s e = Some s' -> reachable s'.

End WithMatcher.

(** The callbacks that have not finished: the one behind the armed timer
    and those awaiting a reply. *)
Definition jobs (s : Provider) : list Job :=
  (match debounceTimeout s with Some (_, j) => [j] | None => [] end
   ++ map a_job (awaiting s))%list.

(** What holds of the fields after every event. *)
Record invariant (s : Provider) : Prop := {
  inv_pending_fresh : ∀ k p,
    pendingCompletions s !! k = Some p -> (p < next_promise s)%nat;
  inv_settled_fresh : ∀ p v,
    settled s !! p = Some v -> (p < next_promise s)%nat;
  inv_pending_unsettled : ∀ k p,
    pendingCompletions s !! k = Some p -> settled s !! p = None;
  inv_pending_inj : ∀ k k' p,
    pendingCompletions s !! k = Some p -> pendingCompletions s !! k' = Some p -> k = k';
  inv_jobs_pending : ∀ j,
    j ∈ jobs s -> pendingCompletions s !! j_key j = Some (j_promise j);
  inv_jobs_nodup : NoDup (map j_key (jobs s));
  inv_calls_fresh : ∀ c,
    c ∈ calls s -> (c_promise c < next_promise s)%nat;
  inv_calls_nodup : NoDup (map c_promise (calls s));
  inv_timer_uncalled : ∀ due j,
    debounceTimeout s = Some (due, j) -> j_promise j ∉ map c_promise (calls s);
  inv_calls_time : ∀ c,
    c ∈ calls s -> c_time c ≤ lastCompletionTime s;
  inv_calls_spaced : Spec.spaced (map c_time (calls s))
}.

(** The list a successful reply [t] is turned into. *)
Definition completion_of (a : Awaiting) (t : string) : InlineCompletionList :=
  {| items := [{| insertText := postProcessCompletion (Js.trim t) (a_language a)
                                  (a_currentLine a);
                  range := (j_position (a_job a), j_position (a_job a)) |}] |}.

(** The key [k] is cached as [l] until [e] and nothing is under way for
    it. *)
Definition cached_at (k : string) (e : Z) (l : InlineCompletionList) (s : Provider) : Prop :=
  completionCache s !! k = Some (e, l)
  ∧ pendingCompletions s !! k = None
  ∧ ∀ j, j ∈ jobs s -> j_key j ≠ k.

(** The key [k] is in the map with a promise that no callback is left to
    settle. *)
Definition stranded (k : string) (p : nat) (s : Provider) : Prop :=
  pendingCompletions s !! k = Some p
  ∧ ∀ j, j ∈ jobs s -> j_key j ≠ k.

End Completion.

(** ** Concrete documents, hosts and replies used in the examples *)

Module Scenario.
Import Editor Heuristics AiModels ApiClient Chat Completion.

Definition NL : string := String Js.LF EmptyString.

Definition cfg : Settings :=
  {| completionDelay := 300; defaultModel := "gpt-4";
     languageConfig := builtin_languageConfig |}.

Definition no_match : string -> string -> bool := fun _ _ => false.

Definition plain : InlineCompletionContext := {| selectedCompletionInfo := false |}.

(** A line long enough to be sent, with the cursor at its end. *)
Definition doc_reduce : TextDocument :=
  {| uri := "file:///a.ts"; languageId := "typescript"; fileName := "/a.ts";
     eol := EolLF; lines := ["const total = items.reduce("] |}.
Definition at_reduce : Position := {| line := 0; character := 27 |}.

(** A second, equally long line in another file. *)
Definition doc_filter : TextDocument :=
  {| uri := "file:///b.ts"; languageId := "typescript"; fileName := "/b.ts";
     eol := EolLF; lines := ["const evens = items.filter("] |}.
Definition at_filter : Position := {| line := 0; character := 27 |}.

(** A line too short to be sent. *)
Definition doc_short : TextDocument :=
  {| uri := "file:///c.ts"; languageId := "typescript"; fileName := "/c.ts";
     eol := EolLF; lines := ["x = "] |}.
Definition at_short : Position := {| line := 0; character := 4 |}.

(** The cursor inside a block comment that is still open. *)
Definition doc_comment : TextDocument :=
  {| uri := "file:///d.ts"; languageId := "typescript"; fileName := "/d.ts";
     eol := EolLF; lines := ["let a = 1; /* sum of"; "   the items"] |}.
Definition at_comment : Position := {| line := 1; character := 6 |}.

Definition reply_ok (t : string) : result ApiResponse :=
  Ok {| text := Js.JStr t; model := "gpt-4"; usage := None; error := None |}.

(** A reply wrapped in a fence, as chat models like to send it. *)
Definition fenced_reply : string := "```ts" ++ NL ++ "bar)" ++ NL ++ "```".

(** A host that holds an OpenAI key and whose network answers every request
    with one choice. *)
Definition openai_json : Js.jsval :=
  Js.JObj [("choices", Js.JArr [Js.JObj [("message",
     Js.JObj [("role", Js.JStr "assistant"); ("content", Js.JStr "Hi there.")])]])].

Definition host_openai : Host :=
  {| secrets := fun k => Ok (if String.eqb k "openaiApiKey" then Some "sk-test" else None);
     customModelEndpoint := None;
     cfg_maxTokens := None;
     cfg_temperature := None;
     fetch := fun _ => Ok {| ok := true; status := 200;
                             body_text := Ok "{}"; body_json := Ok openai_json |};
     js_add := fun _ _ => Js.JNum Js.NaN |}.

(** The same host with a network that is down. *)
Definition host_offline : Host :=
  {| secrets := secrets host_openai;
     customModelEndpoint := None;
     cfg_maxTokens := None;
     cfg_temperature := Some (Js.Num (2 # 10));
     fetch := fun _ => Throw "getaddrinfo ENOTFOUND api.openai.com";
     js_add := js_add host_openai |}.

(** The provider after a first request. *)
Definition state_requested : Provider :=
  snd (provideInlineCompletionItems (initial cfg) doc_reduce at_reduce plain 1 100000).

(** A first request, its timer, and the state in which its call awaits the
    reply. *)
Definition trace_calling : list event :=
  [Provide doc_reduce at_reduce plain 1 100000; TimerFires doc_reduce 100300].
Definition state_calling : Provider :=
  default (initial cfg) (run no_match (initial cfg) trace_calling).

Definition the_call : Awaiting :=
  {| a_job := {| j_key := "file:///a.ts|0:27"; j_promise := 0;
                 j_position := at_reduce; j_token := 1 |};
     a_language := "typescript";
     a_currentLine := "const total = items.reduce(" |}.

Definition the_reply : ApiResponse :=
  {| text := Js.JStr "(sum, x) => sum + x, 0)"; model := "gpt-4";
     usage := None; error := None |}.

(** The reply arrives a second after the call was made. *)
Definition state_replied : Provider :=
  default (initial cfg) (step no_match state_calling (Reply 0 (Ok the_reply) 101300)).

(** While the first call is under way, a request in another file arms the
    timer again, 400 ms after the first call started. *)
Definition state_second_armed : Provider :=
  default (initial cfg)
    (step no_match state_calling (Provide doc_filter at_filter plain 2 100400)).

(** The first call takes five seconds; a tenth of a second after its reply
    a request in another file arrives, and its timer fires after the delay. *)
Definition trace_slow_call : list event :=
  [Provide doc_reduce at_reduce plain 1 100000;
   TimerFires doc_reduce 100300;
   Reply 0 (Ok the_reply) 105300;
   Provide doc_filter at_filter plain 2 105400;
   TimerFires doc_filter 105700].

(** Two requests for one key, ten milliseconds apart, on a line too short
    to be sent, and then the timer. *)
Definition trace_twice_short : list event :=
  [Provide doc_short at_short plain 1 100000;
   Provide doc_short at_short plain 2 100010;
   TimerFires doc_short 100310].

(** Events between the reply and a later request for the same key. *)
Definition trace_between : list event :=
  [Provide doc_filter at_filter plain 2 105000; TimerFires doc_filter 105300;
   Cancel 1].
Definition state_later : Provider :=
  default (initial cfg) (run no_match state_replied trace_between).

Definition second_job : Job :=
  {| j_key := "file:///b.ts|0:27"; j_promise := 1; j_position := at_filter;
     j_token := 2 |}.

(** The first descriptor of the table, and options that ask for a
    temperature and a token limit of zero. *)
Definition gpt4 : AIModel :=
  {| name := "GPT-4"; id := "gpt-4"; provider := "OpenAI"; maxTokens := 4000;
     description := "OpenAI GPT-4 - Advanced reasoning capabilities";
     secretKeyName := "openaiApiKey";
     defaultEndpoint := "https://api.openai.com/v1/chat/completions" |}.

Definition zero_options : Options :=
  {| o_systemPrompt := None; o_maxTokens := Some (Js.Num 0);
     o_temperature := Some (Js.Num 0); o_endpoint := None; o_messages := None |}.

(** A host that holds an Anthropic key instead. *)
Definition host_anthropic : Host :=
  {| secrets := fun k => Ok (if String.eqb k "anthropicApiKey" then Some "sk-ant" else None);
     customModelEndpoint := None;
     cfg_maxTokens := None;
     cfg_temperature := None;
     fetch := fun _ => Ok {| ok := true; status := 200; body_text := Ok "{}";
                             body_json := Ok (Js.JObj [("content",
                               Js.JArr [Js.JObj [("type", Js.JStr "text");
                                                 ("text", Js.JStr "Hi there.")]])]) |};
     js_add := fun _ _ => Js.JNum Js.NaN |}.

(** A chat with one earlier exchange. *)
Definition chat_used : ChatViewProvider :=
  {| view := true;
     chatHistory := [{| role := "user"; content := Js.JStr "What is a monad?" |};
                     {| role := "assistant"; content := Js.JStr "A monoid." |}] |}.

End Scenario.

(** ** The key manager (utils/apiKeyManager.ts) *)

Module ApiKeyManager.
Import AiModels.

(** What a call leaves behind: its return value, the message it shows, and
    the secret storage. *)
Record Outcome := {
  succeeded : bool;
  notice : string;
  secrets_after : gmap string string
}.

(** Set API key for a model.  [rejects] is [Some msg] when the host's
    [secrets.store] rejects with that message. *)
Definition setApiKey (rejects : option string) (secrets : gmap string string)
    (modelId apiKey : string) : Outcome :=
  match find (fun m => String.eqb (id m) modelId) SUPPORTED_MODELS with
  | None => {| succeeded := false; notice := "Unknown model: " ++ modelId;
               secrets_after := secrets |}
  | Some m =>
      match rejects with
      | None => {| succeeded := true;
                   notice := name m ++ " API key saved successfully.";
                   secrets_after := <[secretKeyName m := apiKey]> secrets |}
      | Some msg => {| succeeded := false;
                       notice := "Failed to save API key: " ++ msg;
                       secrets_after := secrets |}
      end
  end.

(** Remove API key for a model. *)
Definition removeApiKey (rejects : option string) (secrets : gmap string string)
    (modelId : string) : Outcome :=
  match find (fun m => String.eqb (id m) modelId) SUPPORTED_MODELS with
  | None => {| succeeded := false; notice := "Unknown model: " ++ modelId;
               secrets_after := secrets |}
  | Some m =>
      match rejects with
      | None => {| succeeded := true;
                   notice := name m ++ " API key removed.";
                   secrets_after := delete (secretKeyName m) secrets |}
      | Some msg => {| succeeded := false;
                       notice := "Failed to remove API key: " ++ msg;
                       secrets_after := secrets |}
      end
  end.

(** Check if API key is set for a model: [!!key]. *)
Definition hasApiKey (secrets : gmap string string) (modelId : string) : bool :=
  match find (fun m => String.eqb (id m) modelId) SUPPORTED_MODELS with
  | None => false
  | Some m =>
      match secrets !! secretKeyName m with
      | Some key => Js.truthy_str key
      | None => false
      end
  end.

(** The client's host reading the same secret storage. *)
Definition with_secrets (secrets : gmap string string) (h : ApiClient.Host) : ApiClient.Host :=
  {| ApiClient.secrets := fun k => Ok (secrets !! k);
     ApiClient.customModelEndpoint := ApiClient.customModelEndpoint h;
     ApiClient.cfg_maxTokens := ApiClient.cfg_maxTokens h;
     ApiClient.cfg_temperature := ApiClient.cfg_temperature h;
     ApiClient.fetch := ApiClient.fetch h;
     ApiClient.js_add := ApiClient.js_add h |}.

End ApiKeyManager.

(** ** Context helpers of the first version (extension.ts) *)

Module Extension.

(** [s.slice(0, n)] for an integer [n]: a negative end counts from the end
    of the string. *)
Definition slice0 (n : Z) (s : string) : string :=
  if decide (0 ≤ n) then Js.slice_to (Z.to_nat n) s
  else Js.slice_to (Z.to_nat (Z.of_nat (String.length s) + n)) s.

Definition TRIMMED_MARK : string := String Js.LF "... [context trimmed]".

(** Trim the context to an approximate token budget (1 token ~ 4 chars);
    [maxTokens] is an integer. *)
Definition trimContextToTokenLimit (contextText : string) (maxTokens : Z) : string :=
  let maxLen := maxTokens * 4 in
  if decide (maxLen < Z.of_nat (String.length contextText))
  then slice0 maxLen contextText ++ TRIMMED_MARK
  else contextText.

(** [(context.globalState.get('eyAgent.attachedContext') as string) || ''] *)
Definition getAttachedContext (stored : option string) : string :=
  Js.or_str (default EmptyString stored) EmptyString.

Definition CONTEXT_HEAD : string := "CONTEXT:" ++ String Js.LF EmptyString.
Definition PROMPT_HEAD : string :=
  String Js.LF (String Js.LF ("USER PROMPT:" ++ String Js.LF EmptyString)).

(** The last definition of [callGpt4ApiWithContext]: the attached context
    is trimmed to 2000 tokens and put in front of the prompt.
    [callGpt4Api] is the helper that sends the prompt. *)
Definition callGpt4ApiWithContext {R : Type} (callGpt4Api : string -> string -> R)
    (stored : option string) (apiKey prompt : string) : R :=
  let attached := getAttachedContext stored in
  let trimmed := if Js.truthy_str attached then trimContextToTokenLimit attached 2000
                 else EmptyString in
  let fullPrompt := if Js.truthy_str trimmed
                    then CONTEXT_HEAD ++ trimmed ++ PROMPT_HEAD ++ prompt
                    else prompt in
  callGpt4Api apiKey fullPrompt.

End Extension.

(** ** Similarity of embeddings (extension.ts) *)

Module Similarity.

(** The three sums of the loop; JavaScript's numbers are the binary64
    floating-point numbers. *)
Record Sums := { dot : float; normA : float; normB : float }.

Definition start : Sums := {| dot := 0%float; normA := 0%float; normB := 0%float |}.





End Similarity.

(** ** More inputs for the examples *)

Module Examples.
Import Editor Heuristics AiModels ApiClient Chat Completion.

(** A network that answers with a success and an empty object. *)
Definition reply_empty : Response :=
  {| ok := true; status := 200; body_text := Ok "{}"; body_json := Ok (Js.JObj []) |}.

Definition host_empty_reply : Host :=
  {| secrets := secrets Scenario.host_openai;
     customModelEndpoint := None;
     cfg_maxTokens := None;
     cfg_temperature := None;
     fetch := fun _ => Ok reply_empty;
     js_add := js_add Scenario.host_openai |}.

Definition reply_unavailable : Response :=
  {| ok := false; status := 503; body_text := Ok "upstream down";
     body_json := Throw "Unexpected token" |}.

(** A network that answers every request with status 503. *)
Definition host_unavailable : Host :=
  {| secrets := secrets Scenario.host_openai;
     customModelEndpoint := None;
     cfg_maxTokens := None;
     cfg_temperature := None;
     fetch := fun _ => Ok reply_unavailable;
     js_add := js_add Scenario.host_openai |}.


(** The result of a call for which no key is stored. *)
Definition reply_no_key : ApiResponse :=
  {| text := Js.JStr "Error: No API key found for GPT-4. Please set your API key in the extension settings.";
     model := "gpt-4"; usage := None; error := Some "No API key found" |}.

(** The host's context while the completion menu is open. *)
Definition menu_open : InlineCompletionContext := {| selectedCompletionInfo := true |}.

(** A per-call endpoint. *)
Definition options_elsewhere : Options :=
  {| o_systemPrompt := None; o_maxTokens := None; o_temperature := None;
     o_endpoint := Some "https://other.example/api"; o_messages := None |}.

(** A host with a key for the custom model and an endpoint in the
    settings. *)
Definition host_custom : Host :=
  {| secrets := fun k => Ok (if String.eqb k "customApiKey" then Some "ck-test" else None);
     customModelEndpoint := Some "https://llm.example/v1";
     cfg_maxTokens := None;
     cfg_temperature := None;
     fetch := fetch Scenario.host_openai;
     js_add := js_add Scenario.host_openai |}.

(** The same without the endpoint. *)
Definition host_custom_unset : Host :=
  {| secrets := secrets host_custom;
     customModelEndpoint := None;
     cfg_maxTokens := None;
     cfg_temperature := None;
     fetch := fetch Scenario.host_openai;
     js_add := js_add Scenario.host_openai |}.

(** A host with a Google key. *)
Definition host_google : Host :=
  {| secrets := fun k => Ok (if String.eqb k "googleApiKey" then Some "gk-test" else None);
     customModelEndpoint := None;
     cfg_maxTokens := None;
     cfg_temperature := None;
     fetch := fetch Scenario.host_openai;
     js_add := js_add Scenario.host_openai |}.

Definition claude_opus : AIModel :=
  {| name := "Claude 3 Opus"; id := "claude-3-opus"; provider := "Anthropic";
     maxTokens := 4000;
     description := "Anthropic Claude 3 Opus - Most capable Claude model";
     secretKeyName := "anthropicApiKey";
     defaultEndpoint := "https://api.anthropic.com/v1/messages" |}.

Definition options_with (sp : option string) (t : option Js.number) : Options :=
  {| o_systemPrompt := sp; o_maxTokens := None; o_temperature := t;
     o_endpoint := None; o_messages := None |}.

(** An empty secret storage, and one with an OpenAI key. *)
Definition no_secrets : gmap string string := ∅.
Definition openai_secrets : gmap string string := {[ "openaiApiKey" := "sk-test" ]}.

(** A line that ends inside a string. *)
Definition doc_string : TextDocument :=
  {| uri := "file:///e.ts"; languageId := "typescript"; fileName := "/e.ts";
     eol := EolLF; lines := ["const greeting = 'hello"] |}.
Definition at_string : Position := {| line := 0; character := 23 |}.


(** The provider after the caller of the first request has cancelled. *)
Definition state_cancelled : Provider :=
  default (initial Scenario.cfg) (step Scenario.no_match Scenario.state_requested (Cancel 1)).

(** The provider after a request on a line too short to be sent. *)
Definition state_short_requested : Provider :=
  snd (provideInlineCompletionItems (initial Scenario.cfg) Scenario.doc_short
         Scenario.at_short Scenario.plain 1 100000).

(** The provider after two requests in different files: the timer of the
    first was cleared. *)
Definition state_superseded : Provider :=
  default (initial Scenario.cfg)
    (run Scenario.no_match (initial Scenario.cfg)
       [Provide Scenario.doc_reduce Scenario.at_reduce Scenario.plain 1 100000;
        Provide Scenario.doc_filter Scenario.at_filter Scenario.plain 2 100100]).

(** The provider switched off while a timer is armed. *)
Definition state_disabled : Provider :=
  default (initial Scenario.cfg) (step Scenario.no_match Scenario.state_requested (SetEnabled false)).

(** What follows the first request when a second one, in another file,
    arrives before the timer fires: the timer of the second, and the reply
    to its call. *)
Definition trace_superseding : list event :=
  [Provide Scenario.doc_filter Scenario.at_filter Scenario.plain 2 100100;
   TimerFires Scenario.doc_filter 100400;
   Reply 1 (Ok Scenario.the_reply) 101400].
Definition state_superseded_replied : Provider :=
  default (initial Scenario.cfg)
    (run Scenario.no_match Scenario.state_requested trace_superseding).

(** The timer of the request on the short line has fired. *)
Definition state_short_fired : Provider :=
  default (initial Scenario.cfg)
    (step Scenario.no_match state_short_requested (TimerFires Scenario.doc_short 100300)).

(** A request on a line long enough, made a tenth of a second later, and
    its timer. *)
Definition trace_after_short : list event :=
  [Provide Scenario.doc_reduce Scenario.at_reduce Scenario.plain 2 100400;
   TimerFires Scenario.doc_reduce 100700].
Definition state_after_short : Provider :=
  default (initial Scenario.cfg)
    (run Scenario.no_match state_short_fired trace_after_short).

End Examples.

(** * Properties *)

(** ** The text heuristics *)

Module HeuristicsFacts.
Import Editor Heuristics Completion Spec.

Lemma match_count2_step (c1 c2 a b : ascii) (r : string) :
  Js.match_count2 c1 c2 (String a (String b r))
  = if Ascii.eqb a c1 && Ascii.eqb b c2
    then S (Js.match_count2 c1 c2 r)
    else Js.match_count2 c1 c2 (String b r).
Proof. reflexivity. Qed.

Lemma occurrences2_step (c1 c2 a b : ascii) (r : string) :
  occurrences2 c1 c2 (String a (String b r))
  = ((if Ascii.eqb a c1 && Ascii.eqb b c2 then 1 else 0)
     + occurrences2 c1 c2 (String b r))%nat.
Proof. reflexivity. Qed.

Lemma occurrences2_skip (c1 c2 b : ascii) (r : string) :
  Ascii.eqb b c1 = false ->
  occurrences2 c1 c2 (String b r) = occurrences2 c1 c2 r.
Proof. intros Hb. destruct r; simpl; rewrite ?Hb; reflexivity. Qed.

(** A two-character pattern made of different characters cannot overlap
    itself, so counting matches left to right counts every occurrence. *)
Lemma match_count2_bounded (c1 c2 : ascii) (n : nat) :
  c1 ≠ c2 -> ∀ s, (String.length s ≤ n)%nat ->
  Js.match_count2 c1 c2 s = occurrences2 c1 c2 s.
Proof.
  intros Hne. induction n as [|n IH]; intros s Hlen.
  - destruct s; simpl in *; [reflexivity | lia].
  - destruct s as [|a r]; [reflexivity|].
    destruct r as [|b r']; [reflexivity|].
    rewrite match_count2_step, occurrences2_step.
    destruct (Ascii.eqb a c1 && Ascii.eqb b c2) eqn:Hab.
    + apply andb_prop in Hab as [_ Hb]. apply Ascii.eqb_eq in Hb. subst b.
      rewrite occurrences2_skip by (apply Ascii.eqb_neq; congruence).
      rewrite IH by (simpl in Hlen; lia). reflexivity.
    + rewrite IH by (simpl in Hlen; simpl; lia). reflexivity.
Qed.

Lemma match_count2_occurrences (c1 c2 : ascii) (s : string) :
  c1 ≠ c2 -> Js.match_count2 c1 c2 s = occurrences2 c1 c2 s.
Proof. intros Hne. now apply (match_count2_bounded c1 c2 (String.length s)). Qed.

Lemma isInComment_occurrences (d : TextDocument) (p : Position) :
  isInComment d p
  = bool_decide (occurrences2 "*" "/" (getText_upto d p)
                 < occurrences2 "/" "*" (getText_upto d p))%nat.
Proof.
  unfold isInComment.
  rewrite !match_count2_occurrences by discriminate. reflexivity.
Qed.

Lemma shouldSkip_in_comment (d : TextDocument) (p : Position)
    (c : InlineCompletionContext) :
  (line p < lineCount d)%nat -> isInComment d p = true ->
  shouldSkipCompletion d p c = Ok true.
Proof.
  intros Hline Hcom. unfold shouldSkipCompletion, lineAt.
  destruct (selectedCompletionInfo c); [reflexivity|].
  destruct (lookup_lt_is_Some_2 (lines d) (line p) Hline) as [t Ht].
  rewrite Ht. simpl. rewrite Hcom.
  now destruct (negb (Js.truthy_str (Js.trim t))).
Qed.

(** C7.  Whenever the text from the start of the document to a cursor in
    the document has more occurrences of the opening marker of a block
    comment than of the closing one, [isInComment] answers true and
    [provideInlineCompletionItems] returns the empty list at once, leaving
    every field as it was: nothing is scheduled and no call is made. *)
Theorem unterminated_comment_suppresses (s : Provider) (d : TextDocument)
    (p : Position) (c : InlineCompletionContext) (token : nat) (now : Z) :
  (line p < lineCount d)%nat ->
  (occurrences2 "*" "/" (getText_upto d p)
   < occurrences2 "/" "*" (getText_upto d p))%nat ->
  isInComment d p = true
  ∧ provideInlineCompletionItems s d p c token now = (Returned no_items, s).
Proof.
  intros Hline Hocc.
  assert (Hcom : isInComment d p = true).
  { rewrite isInComment_occurrences. now apply bool_decide_eq_true. }
  split; [exact Hcom|].
  unfold provideInlineCompletionItems.
  destruct (enabled s); [|reflexivity]. simpl.
  now rewrite (shouldSkip_in_comment d p c Hline Hcom).
Qed.

Lemma unterminated_comment_suppresses_witness :
  (line Scenario.at_comment < lineCount Scenario.doc_comment)%nat
  ∧ (occurrences2 "*" "/" (getText_upto Scenario.doc_comment Scenario.at_comment)
     < occurrences2 "/" "*" (getText_upto Scenario.doc_comment Scenario.at_comment))%nat
  ∧ isInComment Scenario.doc_comment Scenario.at_comment = true
  ∧ provideInlineCompletionItems (initial Scenario.cfg) Scenario.doc_comment
      Scenario.at_comment Scenario.plain 0 0
    = (Returned no_items, initial Scenario.cfg).
Proof.
  assert (H1 : (line Scenario.at_comment < lineCount Scenario.doc_comment)%nat)
    by (vm_compute; lia).
  assert (H2 : (occurrences2 "*" "/" (getText_upto Scenario.doc_comment Scenario.at_comment)
     < occurrences2 "/" "*" (getText_upto Scenario.doc_comment Scenario.at_comment))%nat)
    by (vm_compute; lia).
  split; [exact H1|]. split; [exact H2|].
  exact (unterminated_comment_suppresses (initial Scenario.cfg) Scenario.doc_comment
           Scenario.at_comment Scenario.plain 0 0 H1 H2).
Defined.

(** The example of the specification: the bracket the line already ends
    with is dropped from the reply. *)
Lemma postProcess_duplicated_bracket :
  postProcessCompletion "(bar)" "typescript" "  foo(" = "bar)".
Proof. reflexivity. Qed.

(** Continuation lines get the indentation of the current line in front. *)
Lemma postProcess_reindents :
  postProcessCompletion ("if (x) {" ++ Scenario.NL ++ "  y();" ++ Scenario.NL ++ "}")
    "typescript" "    foo"
  = "if (x) {" ++ Scenario.NL ++ "      y();" ++ Scenario.NL ++ "    }".
Proof. reflexivity. Qed.

(** Text without a backtick goes through the fence pattern unchanged. *)
Lemma replace_fenced_plain (s : string) :
  Js.count_char Js.BACKTICK s = 0%nat -> Js.replace_fenced None s = s.
Proof.
  induction s as [|a r IH]; [reflexivity|].
  unfold Js.count_char. cbn [list_ascii_of_string]. rewrite filter_cons.
  destruct (decide (Ascii.eqb a Js.BACKTICK = true)) as [Ha|Ha]; [discriminate|].
  intros Hr. apply not_true_is_false in Ha.
  cbn [Js.replace_fenced]. rewrite Ha. simpl.
  rewrite (IH Hr). now destruct r as [|b [|c r']].
Qed.

Lemma count_char_cons (c a : ascii) (r : string) :
  Js.count_char c (String a r)
  = ((if Ascii.eqb a c then 1 else 0) + Js.count_char c r)%nat.
Proof.
  unfold Js.count_char. cbn [list_ascii_of_string]. rewrite filter_cons.
  destruct (Ascii.eqb a c); [by rewrite decide_True | by rewrite decide_False].
Qed.

(** Inside a fence, text without a backtick that ends in a fence is
    dropped together with what was held. *)
Lemma replace_fenced_closes (x h : string) :
  Js.count_char Js.BACKTICK x = 0%nat ->
  Js.replace_fenced (Some h) (x ++ "```") = "".
Proof.
  revert h. induction x as [|a r IH]; intros h; [reflexivity|].
  rewrite count_char_cons. destruct (Ascii.eqb a Js.BACKTICK) eqn:Ha; [discriminate|].
  simpl. intros Hr. cbn [Js.replace_fenced]. rewrite Ha. simpl.
  rewrite (IH _ Hr). by destruct (r ++ "```") as [|b [|c r']].
Qed.

(** So a reply that is one fenced block comes out empty, whatever code the
    block holds and whatever the current line is. *)
Lemma postProcess_fenced_is_empty (x language currentLine : string) :
  Js.count_char Js.BACKTICK x = 0%nat ->
  postProcessCompletion ("```" ++ x ++ "```") language currentLine = "".
Proof.
  intros Hx. unfold postProcessCompletion.
  assert (Hdel : Js.replace_fenced None ("```" ++ x ++ "```") = "").
  { change ("```" ++ x ++ "```") with (String "`" (String "`" (String "`" (x ++ "```")))).
    cbn [Js.replace_fenced]. simpl. by apply replace_fenced_closes. }
  rewrite Hdel. simpl. by rewrite andb_false_r.
Qed.

(** C6.  A reply wrapped in a code fence is not unwrapped but deleted: the
    pattern spans from the opening fence to the closing one and takes the
    code between them with it.  For the current line [  foo(] the fenced
    reply [bar)] comes out as the empty string, while the same reply
    without the fence, with or without the echoed bracket, comes out as
    [bar)]. *)
Theorem postProcess_deletes_fenced_code :
  postProcessCompletion Scenario.fenced_reply "typescript" "  foo(" = ""
  ∧ postProcessCompletion "bar)" "typescript" "  foo(" = "bar)"
  ∧ postProcessCompletion "(bar)" "typescript" "  foo(" = "bar)".
Proof. repeat split; reflexivity. Qed.

End HeuristicsFacts.

(** ** The API client *)

Module ApiClientFacts.
Import AiModels ApiClient.

(** Whatever is thrown inside a [try] is handed to the handler, and a
    handler that returns makes the whole block return. *)
Lemma try_catch_returns {A} (m : M A) (handler : string -> A) (log : list WireRequest) :
  ∃ a log', try_catch m (fun msg => ret (handler msg)) log = (Ok a, log')
    ∧ log' = snd (m log)
    ∧ (∀ msg, fst (m log) = Throw msg -> a = handler msg).
Proof.
  unfold try_catch, ret. destruct (m log) as [[a|msg] log'] eqn:Hm; simpl.
  - exists a, log'. repeat split. intros msg' Hmsg. discriminate.
  - exists (handler msg), log'. repeat split. intros msg' [= ->]. reflexivity.
Qed.

Lemma failure_error (msg modelId : string) : error (failure msg modelId) = Some msg.
Proof. reflexivity. Qed.

(** An identifier that is not in the table is not found. *)
Lemma getModelById_known (i : string) (m : AIModel) :
  getModelById i = Some m -> id m = i ∧ m ∈ SUPPORTED_MODELS.
Proof.
  unfold getModelById. intros H.
  split.
  - apply find_some in H as [_ H]. now apply String.eqb_eq in H.
  - apply find_some in H as [H _]. now apply list_elem_of_In.
Qed.

(** Once the storage has answered, the call goes on with the key. *)
Lemma callModel_answered (h : Host) (modelId prompt : string) (o : Options) (m : AIModel)
    (k : option string) :
  getModelById modelId = Some m -> secrets h (secretKeyName m) = Ok k ->
  callModel h modelId prompt o
  = match k with
    | None | Some EmptyString =>
        ret {| text := Js.JStr ("Error: No API key found for " ++ name m
                          ++ ". Please set your API key in the extension settings.");
               model := id m; usage := None; error := Some "No API key found" |}
    | Some key =>
        try_catch (dispatch h (build_request h m prompt o key) m)
                  (fun msg => ret (failure msg (id m)))
    end.
Proof. intros Hm Hk. unfold callModel, bind, lift. rewrite Hm, Hk. reflexivity. Qed.

(** Once the descriptor and the key are known, the call is the dispatch on
    the request built by [build_request], inside the [try]. *)
Lemma callModel_dispatches (h : Host) (modelId prompt : string) (o : Options)
    (m : AIModel) (key : string) :
  getModelById modelId = Some m ->
  secrets h (secretKeyName m) = Ok (Some key) -> key ≠ EmptyString ->
  callModel h modelId prompt o
  = try_catch (dispatch h (build_request h m prompt o key) m)
              (fun msg => ret (failure msg (id m))).
Proof.
  intros Hm Hkey Hne. rewrite (callModel_answered h modelId prompt o m _ Hm Hkey).
  destruct key; [congruence | reflexivity].
Qed.

Lemma table_cases (P : AIModel -> Prop) :
  Forall P SUPPORTED_MODELS -> ∀ i m, getModelById i = Some m -> P m.
Proof.
  intros HP i m Hm. apply getModelById_known in Hm as [_ Hin].
  by apply (proj1 (Forall_forall P SUPPORTED_MODELS) HP).
Qed.

Lemma dispatch_cases (h : Host) (request : ApiRequest) (i : string) (m : AIModel) :
  getModelById i = Some m ->
  (provider m = "OpenAI" ∧ dispatch h request m = callOpenAI h request m)
  ∨ (provider m = "Anthropic" ∧ dispatch h request m = callAnthropic h request m)
  ∨ (provider m = "Google" ∧ dispatch h request m = callGoogle h request m)
  ∨ (provider m = "Custom" ∧ dispatch h request m = callCustomModel h request m).
Proof.
  revert i m. apply table_cases. unfold dispatch.
  repeat constructor; simpl; tauto.
Qed.

Lemma check_ok_fails (vendor t : string) (r : Response) (log : list WireRequest) :
  ok r = false -> body_text r = Ok t ->
  check_ok vendor r log
  = (Throw (vendor ++ " API error (" ++ pretty (status r) ++ "): " ++ t), log).
Proof. intros Hok Ht. unfold check_ok, bind, lift, throw. by rewrite Hok, Ht. Qed.

(** *** The failures of a request

    Each of them makes the request builder throw, after the one request
    it sends. *)


(** The status of the reply is not a success. *)
Lemma dispatch_status_fails (h : Host) (request : ApiRequest) (i : string) (m : AIModel)
    (resp : Response) (t : string) (log : list WireRequest) :
  getModelById i = Some m ->
  (provider m = "Custom" -> Js.truthy_str (endpoint request) = true) ->
  (∀ w, fetch h w = Ok resp) -> ok resp = false -> body_text resp = Ok t ->
  ∃ w, dispatch h request m log
       = (Throw (provider m ++ " API error (" ++ pretty (status resp) ++ "): " ++ t),
          (log ++ [w])%list).
Proof.
  intros Hm Hcustom Hfetch Hok Ht.
  destruct (dispatch_cases h request i m Hm) as [[Hp ->]|[[Hp ->]|[[Hp ->]|[Hp ->]]]];
    rewrite Hp.
  - unfold callOpenAI, bind at 1, do_fetch. rewrite Hfetch.
    unfold bind at 1. rewrite (check_ok_fails _ t) by done. eauto.
  - unfold callAnthropic, bind at 1, do_fetch. rewrite Hfetch.
    unfold bind at 1. rewrite (check_ok_fails _ t) by done. eauto.
  - unfold callGoogle, bind at 1, do_fetch. rewrite Hfetch.
    unfold bind at 1. rewrite (check_ok_fails _ t) by done. eauto.
  - unfold callCustomModel. rewrite (Hcustom Hp). simpl.
    unfold bind at 1, do_fetch. rewrite Hfetch.
    unfold bind at 1. rewrite (check_ok_fails _ t) by done. eauto.
Qed.


(** What the builder throws is the [error] of the result. *)
Lemma callModel_catches (h : Host) (modelId prompt : string) (o : Options) (m : AIModel)
    (key msg : string) (log l : list WireRequest) :
  getModelById modelId = Some m ->
  secrets h (secretKeyName m) = Ok (Some key) -> key ≠ EmptyString ->
  dispatch h (build_request h m prompt o key) m log = (Throw msg, l) ->
  callModel h modelId prompt o log = (Ok (failure msg (id m)), l).
Proof.
  intros Hm Hkey Hne Hd.
  rewrite (callModel_dispatches h modelId prompt o m key Hm Hkey Hne).
  unfold try_catch. by rewrite Hd.
Qed.

(** A status that is not a success, for any model of the table. *)
Lemma callModel_status_error (h : Host) (modelId prompt : string) (o : Options)
    (m : AIModel) (key t : string) (resp : Response) (log : list WireRequest) :
  getModelById modelId = Some m ->
  secrets h (secretKeyName m) = Ok (Some key) -> key ≠ EmptyString ->
  (provider m = "Custom" ->
   Js.truthy_str (endpoint (build_request h m prompt o key)) = true) ->
  (∀ w, fetch h w = Ok resp) -> ok resp = false -> body_text resp = Ok t ->
  ∃ r w, callModel h modelId prompt o log = (Ok r, (log ++ [w])%list)
    ∧ error r = Some (provider m ++ " API error (" ++ pretty (status resp) ++ "): " ++ t)
    ∧ model r = id m.
Proof.
  intros Hm Hkey Hne Hcustom Hfetch Hok Ht.
  destruct (dispatch_status_fails h (build_request h m prompt o key) modelId m resp t log
              Hm Hcustom Hfetch Hok Ht) as [w Hd].
  eexists _, w. by rewrite (callModel_catches h modelId prompt o m key _ log _ Hm Hkey Hne Hd).
Qed.




(** A network that is down ends in an [error], not in an exception. *)
Lemma callModel_offline :
  ∃ r w, callModel Scenario.host_offline "gpt-4" "Explain this" no_options [] = (Ok r, [w])
         ∧ error r = Some "getaddrinfo ENOTFOUND api.openai.com".
Proof. eexists _, _. split; reflexivity. Qed.

Lemma or_num_truthy (a b : option Js.number) (c : Js.number) :
  Js.truthy_num c = true -> Js.truthy_num (Js.or_num a b c) = true.
Proof.
  intros Hc. unfold Js.or_num.
  destruct a as [x|]; [destruct (Js.truthy_num x) eqn:Hx; [exact Hx|]|];
    (destruct b as [y|]; [destruct (Js.truthy_num y) eqn:Hy; [exact Hy|exact Hc]|exact Hc]).
Qed.

Lemma or_num_falsy (z : Js.number) (b : option Js.number) (c : Js.number) :
  Js.truthy_num z = false -> Js.or_num (Some z) b c = Js.or_num None b c.
Proof. intros Hz. unfold Js.or_num. now rewrite Hz. Qed.

(** C10.  For a known model with a stored key, [callModel] dispatches on a
    request in which a temperature of zero passed in the options has been
    replaced by the configured temperature or, failing that, by 0.7, and a
    token limit of zero by the configured limit or 1024; the temperature
    and the token limit of that request are never zero, whatever the
    options are. *)
Theorem zero_options_are_ignored (h : Host) (modelId prompt : string) (o : Options)
    (m : AIModel) (key : string) (z : Js.number) :
  getModelById modelId = Some m ->
  secrets h (secretKeyName m) = Ok (Some key) -> key ≠ EmptyString ->
  Js.truthy_num z = false ->
  ∃ request,
    callModel h modelId prompt o
    = try_catch (dispatch h request m) (fun msg => ret (failure msg (id m)))
    ∧ (o_temperature o = Some z ->
         temperature request = Js.or_num None (cfg_temperature h) (Js.Num (7 # 10)))
    ∧ (o_maxTokens o = Some z ->
         req_maxTokens request = Js.or_num None (cfg_maxTokens h) (Js.Num 1024))
    ∧ Js.truthy_num (temperature request) = true
    ∧ Js.truthy_num (req_maxTokens request) = true.
Proof.
  intros Hm Hkey Hne Hz.
  exists (build_request h m prompt o key).
  split; [by apply callModel_dispatches|].
  unfold build_request. cbn [temperature req_maxTokens].
  split; [intros ->; now apply or_num_falsy|].
  split; [intros ->; now apply or_num_falsy|].
  split; now apply or_num_truthy.
Qed.

Lemma zero_options_are_ignored_witness :
  getModelById "gpt-4" = Some Scenario.gpt4
  ∧ secrets Scenario.host_offline (secretKeyName Scenario.gpt4) = Ok (Some "sk-test")
  ∧ Js.truthy_num (Js.Num 0) = false
  ∧ ∃ request,
      callModel Scenario.host_offline "gpt-4" "Explain this" Scenario.zero_options
      = try_catch (dispatch Scenario.host_offline request Scenario.gpt4)
                  (fun msg => ret (failure msg "gpt-4"))
      ∧ temperature request = Js.Num (2 # 10)
      ∧ req_maxTokens request = Js.Num 1024.
Proof.
  assert (Hm : getModelById "gpt-4" = Some Scenario.gpt4) by reflexivity.
  assert (Hkey : secrets Scenario.host_offline (secretKeyName Scenario.gpt4)
                 = Ok (Some "sk-test"))
    by reflexivity.
  split; [exact Hm|]. split; [exact Hkey|]. split; [reflexivity|].
  destruct (zero_options_are_ignored Scenario.host_offline "gpt-4" "Explain this"
              Scenario.zero_options Scenario.gpt4 "sk-test" (Js.Num 0)
              Hm Hkey ltac:(discriminate) eq_refl)
    as (request & Hcall & Htemp & Hmax & _).
  exists request. split; [exact Hcall|].
  split; [exact (Htemp eq_refl) | exact (Hmax eq_refl)].
Defined.

(** When the caller supplies the conversation, the OpenAI builder sends it
    as it is: the system prompt of the request is not looked at. *)
Lemma callOpenAI_drops_systemPrompt (h : Host) (m : AIModel) (ms : list Message)
    (prompt key endpoint : string) (mt t : Js.number) (sp sp' : option string) :
  callOpenAI h {| prompt := prompt; systemPrompt := sp; req_maxTokens := mt;
                  temperature := t; apiKey := key; endpoint := endpoint;
                  messages := Some ms |} m
  = callOpenAI h {| prompt := prompt; systemPrompt := sp'; req_maxTokens := mt;
                    temperature := t; apiKey := key; endpoint := endpoint;
                    messages := Some ms |} m.
Proof. reflexivity. Qed.

End ApiClientFacts.

(** ** The chat view *)

Module ChatFacts.
Import AiModels ApiClient Chat.

Lemma clearHistory_empties (c : ChatViewProvider) : chatHistory (clearHistory c) = [].
Proof. reflexivity. Qed.

Lemma prefix_app (a b : string) : String.prefix a (a ++ b) = true.
Proof.
  induction a as [|c a IH]; simpl; [now destruct b|].
  destruct (ascii_dec c c); [exact IH | congruence].
Qed.

(** The conversation sent with the first message after a clear is that
    message alone, and the system prompt goes into the options. *)
Lemma first_message_options (h : Host) (dm ws : option string) (c : ChatViewProvider)
    (message : string) :
  view c = true ->
  ∃ sp,
    _sendMessage h dm ws (clearHistory c) message
    = try_catch
        (let* response := callModel h (Js.or_str (default EmptyString dm) "gpt-4") message
           {| o_systemPrompt := Some sp; o_maxTokens := Some (Js.Num 1000);
              o_temperature := None; o_endpoint := None;
              o_messages := Some [{| role := "user"; content := Js.JStr message |}] |} in
         ret (push (push (clearHistory c) {| role := "user"; content := Js.JStr message |})
                {| role := "assistant";
                   content := match error response with
                              | Some e => if Js.truthy_str e then Js.JStr e else text response
                              | None => text response
                              end |}))
        (fun msg => ret (push (push (clearHistory c)
                                 {| role := "user"; content := Js.JStr message |})
                              {| role := "assistant"; content := Js.JStr ("Error: " ++ msg) |}))
    ∧ String.prefix BASE_PROMPT sp = true.
Proof.
  intros Hview. unfold _sendMessage. cbn [clearHistory _clearChat view].
  rewrite Hview. cbn [negb push chatHistory app length bool_decide].
  destruct ws as [w|]; [destruct (Js.truthy_str w)|]; eexists; (split; [reflexivity|]).
  - apply prefix_app.
  - reflexivity.
  - reflexivity.
Qed.

(** C9.  Clearing empties the history.  The first message sent afterwards
    to the default model puts one request on the wire whose conversation is
    that single user message: the earlier turns are gone, and so is the
    system prompt, which the OpenAI builder leaves out whenever the caller
    supplies the conversation. *)
Theorem chat_after_clear_openai_request :
  chatHistory (clearHistory Scenario.chat_used) = []
  ∧ ∃ c',
      _sendMessage Scenario.host_openai None None (clearHistory Scenario.chat_used)
        "hello" []
      = (Ok c',
         [{| url := "https://api.openai.com/v1/chat/completions";
             method := "POST";
             headers := [("Content-Type", "application/json");
                         ("Authorization", "Bearer sk-test")];
             body := Js.JObj
               [("model", Js.JStr "gpt-4");
                ("messages", Js.JArr
                   [Js.JObj [("role", Js.JStr "user"); ("content", Js.JStr "hello")]]);
                ("max_tokens", Js.JNum (Js.Num 1000));
                ("temperature", Js.JNum (Js.Num (7 # 10)))] |}])
      ∧ chatHistory c'
        = [{| role := "user"; content := Js.JStr "hello" |};
           {| role := "assistant"; content := Js.JStr "Hi there." |}].
Proof.
  split; [reflexivity|].
  exists {| view := true;
            chatHistory := [{| role := "user"; content := Js.JStr "hello" |};
                            {| role := "assistant"; content := Js.JStr "Hi there." |}] |}.
  split; vm_compute; reflexivity.
Qed.

(** The sibling builder does send the system prompt next to the
    conversation. *)
Lemma chat_after_clear_anthropic_request :
  ∃ c' w,
    _sendMessage Scenario.host_anthropic (Some "claude-3-opus") None
      (clearHistory Scenario.chat_used) "hello" []
    = (Ok c', [w])
    ∧ body w = Js.JObj
        [("model", Js.JStr "claude-3-opus");
         ("messages", Js.JArr
            [Js.JObj [("role", Js.JStr "user"); ("content", Js.JStr "hello")]]);
         ("system", Js.JStr BASE_PROMPT);
         ("max_tokens", Js.JNum (Js.Num 1000))].
Proof. eexists _, _. split; vm_compute; reflexivity. Qed.

End ChatFacts.

(** ** The completion provider *)

Module CompletionFacts.
Import Editor Heuristics Completion Spec.

(** *** The invariant *)

Lemma invariant_initial (cfg : Settings) : invariant (initial cfg).
Proof.
  constructor; unfold jobs; simpl.
  - intros k p H. by rewrite lookup_empty in H.
  - intros p v H. by rewrite lookup_empty in H.
  - intros k p H. by rewrite lookup_empty in H.
  - intros k k' p H. by rewrite lookup_empty in H.
  - intros j H. by apply elem_of_nil in H.
  - constructor.
  - intros c H. by apply elem_of_nil in H.
  - constructor.
  - intros due j H. discriminate.
  - intros c H. by apply elem_of_nil in H.
  - exact I.
Qed.

Lemma jobs_settle j v s : jobs (settle j v s) = jobs s.
Proof. reflexivity. Qed.

Lemma settle_invariant (j : Job) (v : InlineCompletionList) (s : Provider) :
  invariant s ->
  pendingCompletions s !! j_key j = Some (j_promise j) ->
  (∀ j', j' ∈ jobs s -> j_key j' ≠ j_key j) ->
  invariant (settle j v s).
Proof.
  intros [] Hj Hothers.
  assert (Hnone : settled s !! j_promise j = None) by eauto.
  constructor; rewrite ?jobs_settle; unfold settle; simpl; rewrite ?Hnone; try done.
  - intros k p Hk. apply lookup_delete_Some in Hk as [_ Hk]. eauto.
  - intros p v' Hp. destruct (decide (p = j_promise j)) as [->|Hne].
    + eauto.
    + rewrite lookup_insert_ne in Hp by done. eauto.
  - intros k p Hk. apply lookup_delete_Some in Hk as [Hne Hk].
    rewrite lookup_insert_ne; [eauto|].
    intros <-. apply Hne. eauto.
  - intros k k' p Hk Hk'. apply lookup_delete_Some in Hk as [_ Hk].
    apply lookup_delete_Some in Hk' as [_ Hk']. eauto.
  - intros j' Hj'. rewrite lookup_delete_ne; [eauto|].
    intros Heq. now apply (Hothers j' Hj').
Qed.

Ltac split_invariant H :=
  destruct H as [Hpf Hsf Hpu Hpi Hjp Hjn Hcf Hcn Htu Hct Hcs].

Lemma set_cache_invariant m s : invariant s -> invariant (set_cache m s).
Proof. intros []. by constructor. Qed.

Lemma set_enabled_invariant b s : invariant s -> invariant (set_enabled b s).
Proof. intros []. by constructor. Qed.

Lemma set_cancelled_invariant c s : invariant s -> invariant (set_cancelled c s).
Proof. intros []. by constructor. Qed.

Lemma set_last_invariant now s :
  invariant s -> lastCompletionTime s ≤ now -> invariant (set_last now s).
Proof.
  intros Hinv Hle. split_invariant Hinv. constructor; try done.
  simpl. intros c Hc. specialize (Hct c Hc). lia.
Qed.

Lemma set_timer_None_invariant s : invariant s -> invariant (set_timer None s).
Proof.
  intros Hinv. split_invariant Hinv. constructor; try done.
  - intros j Hj. apply Hjp. unfold jobs in *. simpl in Hj.
    apply elem_of_app. by right.
  - unfold jobs in *. simpl. destruct (debounceTimeout s) as [[due j]|]; [|done].
    simpl in Hjn. by apply NoDup_cons in Hjn as [_ ?].
Qed.

Lemma take_awaiting_Some pr l a rest :
  take_awaiting pr l = Some (a, rest) ->
  a ∈ l ∧ j_promise (a_job a) = pr
  ∧ rest = filter (fun a => j_promise (a_job a) ≠ pr) l.
Proof.
  unfold take_awaiting.
  destruct (filter (λ a0, j_promise (a_job a0) = pr) l) as [|a' r] eqn:Hf; [done|].
  intros [= <- <-].
  assert (Ha : a' ∈ filter (λ a0, j_promise (a_job a0) = pr) l)
    by (rewrite Hf; apply list_elem_of_here).
  apply list_elem_of_filter in Ha as [? ?]. done.
Qed.

Lemma filter_jobs_subset (P : Awaiting -> Prop) `{∀ a, Decision (P a)}
    (l : list Awaiting) (k : string) :
  k ∈ map j_key (map a_job (filter P l)) -> k ∈ map j_key (map a_job l).
Proof.
  intros Hk.
  apply list_elem_of_fmap in Hk as (j & -> & Hj).
  apply list_elem_of_fmap in Hj as (a & -> & Ha).
  apply list_elem_of_filter in Ha as [_ Ha].
  apply list_elem_of_fmap. exists (a_job a). split; [done|].
  apply list_elem_of_fmap. eauto.
Qed.

Lemma filter_jobs_nodup (P : Awaiting -> Prop) `{∀ a, Decision (P a)}
    (l : list Awaiting) :
  NoDup (map j_key (map a_job l)) -> NoDup (map j_key (map a_job (filter P l))).
Proof.
  induction l as [|a l IH]; [constructor|].
  simpl. intros [Hnot Hl]%NoDup_cons.
  rewrite filter_cons. destruct (decide (P a)); [|by apply IH].
  simpl. apply NoDup_cons. split; [|by apply IH].
  intros Hin. apply Hnot. by apply (filter_jobs_subset P).
Qed.

Lemma set_awaiting_filter_invariant (P : Awaiting -> Prop) `{∀ a, Decision (P a)} s :
  invariant s -> invariant (set_awaiting (filter P (awaiting s)) s).
Proof.
  intros Hinv. split_invariant Hinv. constructor; try done.
  - intros j Hj. apply Hjp. unfold jobs in *. simpl in Hj.
    apply elem_of_app in Hj as [Hj|Hj]; apply elem_of_app; [by left|right].
    apply list_elem_of_fmap in Hj as (a & -> & Ha).
    apply list_elem_of_filter in Ha as [_ Ha].
    apply list_elem_of_fmap. eauto.
  - unfold jobs in *. simpl.
    rewrite map_app in *. apply NoDup_app in Hjn as (H1 & H2 & H3).
    apply NoDup_app. split; [done|]. split.
    + intros k Hk Hk'. apply (H2 k Hk). by apply (filter_jobs_subset P).
    + by apply filter_jobs_nodup.
Qed.

Section WithMatcher.
Variable rt : string -> string -> bool.

Lemma provide_cases s d p c token now :
  let r := provideInlineCompletionItems s d p c token now in
  snd r = s
  ∨ (enabled s = true ∧ shouldSkipCompletion d p c = Ok false
     ∧ pendingCompletions s !! cache_key d p = None
     ∧ (∀ e l, completionCache s !! cache_key d p = Some (e, l) -> e ≤ now)
     ∧ fst r = Awaits (next_promise s)
     ∧ snd r = set_pending (<[cache_key d p := next_promise s]> (pendingCompletions s))
                 (set_timer (Some (now + completionDelay (settings s),
                                   {| j_key := cache_key d p; j_promise := next_promise s;
                                      j_position := p; j_token := token |}))
                    (set_next (S (next_promise s)) s))).
Proof.
  unfold provideInlineCompletionItems.
  destruct (enabled s); simpl; [|by left].
  destruct (shouldSkipCompletion d p c) as [[|]|]; [by left| |by left].
  destruct (completionCache s !! cache_key d p) as [[e l]|].
  - destruct (decide (now < e)); [by left|].
    destruct (pendingCompletions s !! cache_key d p); [by left|right].
    repeat split; try done. intros e' l' [= <- <-]. lia.
  - destruct (pendingCompletions s !! cache_key d p); [by left|by right].
Qed.

Lemma provide_invariant s d p c token now :
  invariant s -> invariant (snd (provideInlineCompletionItems s d p c token now)).
Proof.
  intros Hinv.
  destruct (provide_cases s d p c token now) as [->|(_ & _ & Hnone & _ & _ & ->)]; [done|].
  split_invariant Hinv. constructor; simpl.
  - intros k q Hk. apply lookup_insert_Some in Hk as [[_ <-]|[_ Hk]]; [lia|].
    specialize (Hpf k q Hk). lia.
  - intros q v Hq. specialize (Hsf q v Hq). lia.
  - intros k q Hk. apply lookup_insert_Some in Hk as [[_ <-]|[_ Hk]]; [|eauto].
    destruct (settled s !! next_promise s) as [v|] eqn:Hs; [|done].
    specialize (Hsf _ _ Hs). lia.
  - intros k k' q Hk Hk'.
    apply lookup_insert_Some in Hk as [[<- <-]|[Hne Hk]];
      apply lookup_insert_Some in Hk' as [[<- Heq]|[Hne' Hk']]; try done.
    + specialize (Hpf _ _ Hk'). lia.
    + subst q. specialize (Hpf _ _ Hk). lia.
    + eauto.
  - intros j Hj. unfold jobs in Hj. simpl in Hj.
    apply elem_of_cons in Hj as [->|Hj]; simpl; [by rewrite lookup_insert_eq|].
    assert (Hold : pendingCompletions s !! j_key j = Some (j_promise j)).
    { apply Hjp. unfold jobs. apply elem_of_app. by right. }
    rewrite lookup_insert_ne; [done|]. intros Heq. rewrite <- Heq in Hold. congruence.
  - unfold jobs in *. simpl. apply NoDup_cons. split.
    + intros Hin. apply list_elem_of_fmap in Hin as (j & Hk & Hj).
      assert (Hold : pendingCompletions s !! j_key j = Some (j_promise j)).
      { apply Hjp. apply elem_of_app. by right. }
      rewrite <- Hk in Hold. congruence.
    + rewrite map_app in Hjn. by apply NoDup_app in Hjn as (_ & _ & ?).
  - intros c' Hc. specialize (Hcf c' Hc). lia.
  - done.
  - intros due j [= _ <-]. simpl. intros Hin.
    apply list_elem_of_fmap in Hin as (c' & Hp & Hc).
    specialize (Hcf c' Hc). lia.
  - done.
  - done.
Qed.

Lemma on_timeout_invariant s due j d now :
  invariant s -> debounceTimeout s = Some (due, j) ->
  invariant (on_timeout rt j d now (set_timer None s)).
Proof.
  intros Hinv Ht.
  assert (Hj : pendingCompletions s !! j_key j = Some (j_promise j)).
  { apply (inv_jobs_pending s Hinv). unfold jobs. rewrite Ht. apply list_elem_of_here. }
  assert (Hothers : ∀ j', j' ∈ jobs (set_timer None s) -> j_key j' ≠ j_key j).
  { intros j' Hj' Heq. pose proof (inv_jobs_nodup s Hinv) as Hnd.
    unfold jobs in Hnd, Hj'. rewrite Ht in Hnd. simpl in Hnd, Hj'.
    apply NoDup_cons in Hnd as [Hnot _]. apply Hnot.
    rewrite <- Heq. by apply list_elem_of_fmap_2. }
  assert (Huncalled : j_promise j ∉ map c_promise (calls s))
    by (by apply (inv_timer_uncalled s Hinv due)).
  apply set_timer_None_invariant in Hinv.
  unfold on_timeout.
  destruct (decide (now - lastCompletionTime (set_timer None s) < 1000)) as [|Hlate].
  { by apply settle_invariant. }
  assert (Hinv' : invariant (set_last now (set_timer None s))).
  { apply set_last_invariant; [done|]. simpl in *. lia. }
  destruct (getSmartCompletionContext _ _ _ _ _) as [ctx|].
  2: { by apply settle_invariant. }
  destruct (currentLine ctx) as [current|].
  2: { by apply settle_invariant. }
  destruct (_ && _). { by apply settle_invariant. }
  destruct (decide (j_token j ∈ _)). { by apply settle_invariant. }
  pose proof (inv_calls_time _ Hinv) as Hold. simpl in Hold.
  clear Hinv. split_invariant Hinv'. constructor; simpl in *; try done.
  - intros j' Hj'. unfold jobs in Hj'. simpl in Hj'.
    apply elem_of_cons in Hj' as [->|Hj']; [done|].
    apply Hjp. by unfold jobs.
  - unfold jobs in *. simpl in *. apply NoDup_cons. split; [|done].
    intros Hin. apply list_elem_of_fmap in Hin as (j' & Hk & Hj').
    by apply (Hothers j' Hj').
  - intros c Hc. apply elem_of_cons in Hc as [->|Hc]; simpl; [|eauto].
    eauto.
  - apply NoDup_cons. by split.
  - intros c Hc. apply elem_of_cons in Hc as [->|Hc]; simpl; [lia|].
    apply (Hct c Hc).
  - destruct (calls s) as [|c0 cs] eqn:Hcalls; simpl; [done|].
    split; [|done].
    assert (Hc0 : c_time c0 ≤ lastCompletionTime s)
      by (apply Hold; apply list_elem_of_here).
    lia.
Qed.

Lemma others_after_take s pr a :
  invariant s -> a ∈ awaiting s -> j_promise (a_job a) = pr ->
  ∀ j', j' ∈ jobs (set_awaiting (filter (λ a0, j_promise (a_job a0) ≠ pr) (awaiting s)) s) ->
        j_key j' ≠ j_key (a_job a).
Proof.
  intros Hinv Ha Hpr j' Hj' Heq.
  assert (Hj : pendingCompletions s !! j_key (a_job a) = Some (j_promise (a_job a))).
  { apply (inv_jobs_pending s Hinv). unfold jobs. apply elem_of_app. right.
    by apply list_elem_of_fmap_2. }
  unfold jobs in Hj'. simpl in Hj'.
  apply elem_of_app in Hj' as [Hj'|Hj'].
  - pose proof (inv_jobs_nodup s Hinv) as Hnd. unfold jobs in Hnd.
    rewrite map_app in Hnd. apply NoDup_app in Hnd as (_ & Hdisj & _).
    apply (Hdisj (j_key j')); [by apply list_elem_of_fmap_2|].
    rewrite Heq. apply list_elem_of_fmap_2. by apply list_elem_of_fmap_2.
  - apply list_elem_of_fmap in Hj' as (a' & -> & Ha').
    apply list_elem_of_filter in Ha' as [Hne Ha'].
    assert (Hj' : pendingCompletions s !! j_key (a_job a') = Some (j_promise (a_job a'))).
    { apply (inv_jobs_pending s Hinv). unfold jobs. apply elem_of_app. right.
      by apply list_elem_of_fmap_2. }
    rewrite Heq in Hj'. congruence.
Qed.

Lemma on_reply_invariant s pr a rest r now :
  invariant s -> take_awaiting pr (awaiting s) = Some (a, rest) ->
  invariant (on_reply a r now (set_awaiting rest s)).
Proof.
  intros Hinv Hta.
  apply take_awaiting_Some in Hta as (Ha & Hpr & ->).
  assert (Hin : a_job a ∈ jobs s).
  { unfold jobs. apply elem_of_app. right. by apply list_elem_of_fmap_2. }
  assert (Hj : pendingCompletions s !! j_key (a_job a) = Some (j_promise (a_job a)))
    by (by apply (inv_jobs_pending s Hinv)).
  set (s0 := set_awaiting (filter (λ a0, j_promise (a_job a0) ≠ pr) (awaiting s)) s).
  assert (Hothers : ∀ j', j' ∈ jobs s0 -> j_key j' ≠ j_key (a_job a))
    by (by apply (others_after_take s pr)).
  assert (Hinv0 : invariant s0) by (by apply set_awaiting_filter_invariant).
  unfold on_reply. fold s0.
  destruct r as [response|]; [|by apply settle_invariant].
  destruct (_ || _); [by apply settle_invariant|].
  destruct (AiModels.text response); try (by apply settle_invariant).
  apply settle_invariant; [by apply set_cache_invariant|done|done].
Qed.

Lemma step_invariant s e s' : invariant s -> step rt s e = Some s' -> invariant s'.
Proof.
  intros Hinv. destruct e as [d p c token now|d now|pr r now|b|token]; simpl.
  - intros [= <-]. by apply provide_invariant.
  - destruct (debounceTimeout s) as [[due j]|] eqn:Ht; [|done].
    destruct (decide (due ≤ now)); [|done].
    intros [= <-]. by apply (on_timeout_invariant s due).
  - destruct (take_awaiting pr (awaiting s)) as [[a rest]|] eqn:Hta; [|done].
    intros [= <-]. by apply (on_reply_invariant s pr).
  - intros [= <-]. by apply set_enabled_invariant.
  - intros [= <-]. by apply set_cancelled_invariant.
Qed.

Lemma reachable_invariant s : reachable rt s -> invariant s.
Proof.
  induction 1 as [cfg|s e s' _ IH Hstep]; [apply invariant_initial|].
  by apply (step_invariant s e).
Qed.


Lemma run_reachable s es s' : reachable rt s -> run rt s es = Some s' -> reachable rt s'.
Proof.
  revert s. induction es as [|e es IH]; intros s Hs; simpl.
  - by intros [= <-].
  - destruct (step rt s e) as [s1|] eqn:Hstep; [|done].
    apply IH. by apply (reachable_step rt s e).
Qed.

Lemma settle_pending j v s k :
  pendingCompletions (settle j v s) !! k
  = if decide (j_key j = k) then None else pendingCompletions s !! k.
Proof. unfold settle. simpl. apply lookup_delete. Qed.

(** A turn of the loop never replaces the promise stored under a key: the
    entry stays or goes. *)
Lemma step_pending_kept s e s' k p :
  step rt s e = Some s' -> pendingCompletions s !! k = Some p ->
  pendingCompletions s' !! k = Some p ∨ pendingCompletions s' !! k = None.
Proof.
  intros Hstep Hk.
  assert (Hsettle : ∀ j v s0, pendingCompletions s0 !! k = Some p ->
            pendingCompletions (settle j v s0) !! k = Some p
            ∨ pendingCompletions (settle j v s0) !! k = None).
  { intros j v s0 H0. rewrite settle_pending. case_decide; auto. }
  destruct e as [d q c token now|d now|pr r now|b|token]; simpl in Hstep.
  - injection Hstep as <-.
    destruct (provide_cases s d q c token now) as [->|(_ & _ & Hnone & _ & _ & ->)]; [auto|].
    simpl. left. rewrite lookup_insert_ne; [done|]. congruence.
  - destruct (debounceTimeout s) as [[due j]|]; [|done].
    destruct (decide (due ≤ now)); [|done]. injection Hstep as <-.
    unfold on_timeout.
    repeat (case_match; try (by apply Hsettle)); auto.
  - destruct (take_awaiting pr (awaiting s)) as [[a rest]|]; [|done].
    injection Hstep as <-. unfold on_reply.
    repeat (case_match; try (by apply Hsettle)); auto.
  - injection Hstep as <-. auto.
  - injection Hstep as <-. auto.
Qed.

(** Every way the callback can end after the reply settles the promise
    and removes the key: a reply that is used, a reply with an error or
    without text, and a call that threw. *)
Lemma on_reply_settles a r now s :
  settled s !! j_promise (a_job a) = None ->
  is_Some (settled (on_reply a r now s) !! j_promise (a_job a))
  ∧ pendingCompletions (on_reply a r now s) !! j_key (a_job a) = None.
Proof.
  intros Hnone.
  assert (Hsettle : ∀ v s0, settled s0 !! j_promise (a_job a) = None ->
    is_Some (settled (settle (a_job a) v s0) !! j_promise (a_job a))
    ∧ pendingCompletions (settle (a_job a) v s0) !! j_key (a_job a) = None).
  { intros v s0 H0. unfold settle. simpl.
    rewrite H0, lookup_insert_eq, lookup_delete_eq. eauto. }
  unfold on_reply. repeat (case_match; try (by apply Hsettle)); by apply Hsettle.
Qed.

(** A caller that cancelled before the timer fired gets the empty list, and
    the key is removed. *)
Lemma on_timeout_cancelled j d now s ctx current :
  ¬ now - lastCompletionTime s < 1000 ->
  getSmartCompletionContext rt (languageConfig (settings s)) d (j_position j) (languageId d)
  = Ok ctx ->
  currentLine ctx = Some current ->
  ¬ ((String.length current < 10)%nat ∧ (String.length (prefixCode ctx) < 20)%nat) ->
  j_token j ∈ cancelled s ->
  on_timeout rt j d now s = settle j no_items (set_last now s).
Proof.
  intros Hlate Hctx Hcur Hlong Hcancel. unfold on_timeout.
  rewrite decide_False by done. simpl. rewrite Hctx, Hcur.
  destruct (bool_decide _ && bool_decide _) eqn:Hshort.
  - apply andb_prop in Hshort as [H1%bool_decide_eq_true H2%bool_decide_eq_true].
    by destruct Hlong.
  - by rewrite decide_True.
Qed.

(** The debounced callback either settles its promise with the empty list
    (after updating [lastCompletionTime] or not) or makes its call. *)
Lemma on_timeout_cases (j : Job) (d : TextDocument) (now : Z) (s : Provider) :
  on_timeout rt j d now s = settle j no_items s
  ∨ on_timeout rt j d now s = settle j no_items (set_last now s)
  ∨ ((j_token j ∉ cancelled s) ∧ 1000 ≤ now - lastCompletionTime s
     ∧ ∃ call a,
         on_timeout rt j d now s
         = set_calls (call :: calls s) (set_awaiting (a :: awaiting s) (set_last now s))
         ∧ c_time call = now ∧ c_promise call = j_promise j ∧ a_job a = j).
Proof.
  unfold on_timeout.
  destruct (decide (now - lastCompletionTime s < 1000)); [by left|].
  destruct (getSmartCompletionContext _ _ _ _ _) as [ctx|]; [|by right; left].
  destruct (currentLine ctx) as [current|]; [|by right; left].
  destruct (andb _ _); [by right; left|].
  simpl. destruct (decide (j_token j ∈ cancelled s)); [by right; left|].
  right; right. split; [done|]. split; [lia|]. eexists _, _. split; [reflexivity|done].
Qed.

(** After the reply the callback settles its promise, with the empty list
    or with a list of one item that it has put in the cache. *)
Lemma on_reply_cases (a : Awaiting) (r : result AiModels.ApiResponse) (now : Z)
    (s : Provider) :
  on_reply a r now s = settle (a_job a) no_items s
  ∨ ∃ t, on_reply a r now s
         = settle (a_job a) (completion_of a t)
             (set_cache (<[j_key (a_job a) := (now + 30000, completion_of a t)]>
                           (completionCache s)) s).
Proof.
  unfold on_reply. destruct r as [response|]; [|by left].
  destruct (orb _ _); [by left|].
  destruct (AiModels.text response); try (by left). right. by eexists.
Qed.

Lemma step_reply s pr a rest r now :
  take_awaiting pr (awaiting s) = Some (a, rest) ->
  step rt s (Reply pr r now) = Some (on_reply a r now (set_awaiting rest s)).
Proof. intros Hta. unfold step. by rewrite Hta. Qed.

(** C5.  An entry of the map of pending requests is removed when its
    request settles, however it settles.  In every state the provider can
    reach:
    - the reply to a call that is awaited (a reply that is used, a reply
      with an error, a call that threw) settles the promise stored under
      the key of that call and removes the key, in the same turn; an error
      or an exception settles it with the empty list;
    - the timer that fires settles the promise of its request with the
      empty list and removes the key, or makes the call and leaves the
      entry in place until the reply; the limiter and a cancelled token
      always end in the former;
    - whatever the event, a key whose promise is settled afterwards is no
      longer in the map, and no promise in the map is a settled one. *)
Theorem pending_entry_removed_on_settle s :
  reachable rt s ->
  (∀ pr a rest r now, take_awaiting pr (awaiting s) = Some (a, rest) ->
     pendingCompletions s !! j_key (a_job a) = Some pr
     ∧ settled s !! pr = None
     ∧ ∃ s', step rt s (Reply pr r now) = Some s'
          ∧ (settled s' !! pr = Some no_items
             ∨ ∃ t, settled s' !! pr = Some (completion_of a t))
          ∧ pendingCompletions s' !! j_key (a_job a) = None
          ∧ (∀ msg, r = Throw msg -> settled s' !! pr = Some no_items)
          ∧ (∀ resp e, r = Ok resp -> AiModels.error resp = Some e -> e ≠ EmptyString ->
               settled s' !! pr = Some no_items))
  ∧ (∀ due j d now, debounceTimeout s = Some (due, j) -> due ≤ now ->
     pendingCompletions s !! j_key j = Some (j_promise j)
     ∧ settled s !! j_promise j = None
     ∧ ∃ s', step rt s (TimerFires d now) = Some s'
          ∧ ((settled s' !! j_promise j = Some no_items
              ∧ pendingCompletions s' !! j_key j = None
              ∧ calls s' = calls s)
             ∨ (settled s' !! j_promise j = None
                ∧ pendingCompletions s' !! j_key j = Some (j_promise j)
                ∧ (∃ call, calls s' = call :: calls s ∧ c_promise call = j_promise j)
                ∧ ∃ a rest, take_awaiting (j_promise j) (awaiting s') = Some (a, rest)
                            ∧ a_job a = j))
          ∧ (now - lastCompletionTime s < 1000 ∨ j_token j ∈ cancelled s ->
               settled s' !! j_promise j = Some no_items
               ∧ pendingCompletions s' !! j_key j = None))
  ∧ (∀ e s', step rt s e = Some s' ->
     (∀ k p v, pendingCompletions s !! k = Some p -> settled s' !! p = Some v ->
               pendingCompletions s' !! k = None)
     ∧ (∀ k p, pendingCompletions s' !! k = Some p -> settled s' !! p = None)).
Proof.
  intros Hs. pose proof (reachable_invariant s Hs) as Hinv.
  assert (Hsettle : ∀ j v s0, settled s0 !! j_promise j = None ->
            settled (settle j v s0) !! j_promise j = Some v
            ∧ pendingCompletions (settle j v s0) !! j_key j = None
            ∧ calls (settle j v s0) = calls s0).
  { intros j v s0 H0. unfold settle. simpl.
    by rewrite H0, lookup_insert_eq, lookup_delete_eq. }
  split; [|split].
  - intros pr a rest r now Hta.
    pose proof Hta as Hta'. apply take_awaiting_Some in Hta' as (Ha & Hpr & ->).
    assert (Hj : pendingCompletions s !! j_key (a_job a) = Some (j_promise (a_job a))).
    { apply (inv_jobs_pending s Hinv). unfold jobs. apply elem_of_app. right.
      by apply list_elem_of_fmap_2. }
    pose proof (inv_pending_unsettled s Hinv _ _ Hj) as Hnone.
    rewrite Hpr in Hj, Hnone. split; [done|]. split; [done|].
    eexists. split; [by apply step_reply|].
    set (s0 := set_awaiting _ s).
    assert (H0 : settled s0 !! j_promise (a_job a) = None) by (by rewrite Hpr).
    rewrite <- Hpr.
    split; [|split; [|split]].
    + destruct (on_reply_cases a r now s0) as [->|[t ->]].
      * left. by destruct (Hsettle (a_job a) no_items s0 H0).
      * right. exists t. by destruct (Hsettle (a_job a) (completion_of a t) (set_cache _ s0) H0).
    + destruct (on_reply_cases a r now s0) as [->|[t ->]].
      * by destruct (Hsettle (a_job a) no_items s0 H0) as (_ & ? & _).
      * by destruct (Hsettle (a_job a) (completion_of a t) (set_cache _ s0) H0) as (_ & ? & _).
    + intros msg ->. simpl. by destruct (Hsettle (a_job a) no_items s0 H0).
    + intros resp e -> He Hne. unfold on_reply. rewrite He.
      destruct e; [done|]. simpl. by destruct (Hsettle (a_job a) no_items s0 H0).
  - intros due j d now Ht Hdue.
    assert (Hj : pendingCompletions s !! j_key j = Some (j_promise j)).
    { apply (inv_jobs_pending s Hinv). unfold jobs. rewrite Ht. apply list_elem_of_here. }
    pose proof (inv_pending_unsettled s Hinv _ _ Hj) as Hnone.
    split; [done|]. split; [done|].
    eexists. simpl. rewrite Ht, decide_True by done. split; [reflexivity|].
    destruct (on_timeout_cases j d now (set_timer None s))
      as [->|[->|(Hnot & Hfree & call & a & -> & _ & Hcall & Hjob)]].
    + split; [left|intros _];
        by destruct (Hsettle j no_items (set_timer None s) Hnone) as (? & ? & ?).
    + split; [left|intros _];
        by destruct (Hsettle j no_items (set_last now (set_timer None s)) Hnone)
          as (? & ? & ?).
    + split.
      * right. simpl. split; [done|]. split; [done|]. split; [by exists call|].
        exists a. eexists. split; [|done].
        unfold take_awaiting. rewrite filter_cons_True by (by rewrite Hjob). done.
      * simpl in *. intros [Hsoon|Hcancel]; [lia|done].
  - intros e s' Hstep.
    assert (Hinv' : invariant s').
    { apply reachable_invariant. by apply (reachable_step rt s e). }
    split; [|apply (inv_pending_unsettled s' Hinv')].
    intros k p v Hk Hv.
    destruct (step_pending_kept s e s' k p Hstep Hk) as [Hkept|Hgone]; [|done].
    rewrite (inv_pending_unsettled s' Hinv' k p Hkept) in Hv. discriminate.
Qed.

Lemma on_timeout_limited j d now s :
  now - lastCompletionTime s < 1000 ->
  on_timeout rt j d now s = settle j no_items s.
Proof. intros Hsoon. unfold on_timeout. by rewrite decide_True. Qed.

(** C3 (as amended).  The limiter spaces the starts of the model calls:
    any two calls are started at least a second apart, none later than
    [lastCompletionTime], which is the time at which the last callback got
    past the limiter (before its call is made, not when the call
    completes).  A callback whose timer fires less than a second after that
    time settles its promise with the empty list, removes its key, makes no
    call and leaves [lastCompletionTime] as it is. *)
Theorem rate_limit_spaces_call_starts s :
  reachable rt s ->
  spaced (map c_time (calls s))
  ∧ (∀ c, c ∈ calls s -> c_time c ≤ lastCompletionTime s)
  ∧ (∀ due j d now, debounceTimeout s = Some (due, j) -> due ≤ now ->
       now - lastCompletionTime s < 1000 ->
       ∃ s', step rt s (TimerFires d now) = Some s'
             ∧ settled s' !! j_promise j = Some no_items
             ∧ pendingCompletions s' !! j_key j = None
             ∧ calls s' = calls s ∧ awaiting s' = awaiting s
             ∧ lastCompletionTime s' = lastCompletionTime s).
Proof.
  intros Hs. pose proof (reachable_invariant s Hs) as Hinv.
  split; [apply (inv_calls_spaced s Hinv)|].
  split; [apply (inv_calls_time s Hinv)|].
  intros due j d now Ht Hdue Hsoon.
  eexists. simpl. rewrite Ht, decide_True by done. split; [reflexivity|].
  rewrite on_timeout_limited by done.
  assert (Hj : pendingCompletions s !! j_key j = Some (j_promise j)).
  { apply (inv_jobs_pending s Hinv). unfold jobs. rewrite Ht. apply list_elem_of_here. }
  pose proof (inv_pending_unsettled s Hinv _ _ Hj) as Hnone.
  unfold settle. simpl. rewrite Hnone, lookup_insert_eq, lookup_delete_eq. done.
Qed.

Lemma filter_absent {A B} `{EqDecision B} (f : A -> B) (v : B) (l : list A) :
  v ∉ map f l -> filter (λ x, f x = v) l = [].
Proof.
  induction l as [|x l IH]; [done|].
  simpl. intros Hnot. apply not_elem_of_cons in Hnot as [Hx Hl].
  rewrite filter_cons, decide_False by done. by apply IH.
Qed.

Lemma NoDup_filter_at_most_one {A B} `{EqDecision B} (f : A -> B) (v : B) (l : list A) :
  NoDup (map f l) -> (length (filter (λ x, f x = v) l) ≤ 1)%nat.
Proof.
  induction l as [|x l IH]; simpl; [lia|].
  intros [Hnot Hl]%NoDup_cons. rewrite filter_cons.
  destruct (decide (f x = v)) as [Hx|Hx]; [|by apply IH].
  subst v. rewrite filter_absent by done. simpl. lia.
Qed.

(** A request that is handed a pending promise passed every earlier check,
    and afterwards its key is in the map. *)
Lemma provide_awaits s d p c token now pr s1 :
  provideInlineCompletionItems s d p c token now = (Awaits pr, s1) ->
  enabled s1 = true ∧ shouldSkipCompletion d p c = Ok false
  ∧ completionCache s1 = completionCache s
  ∧ (∀ e l, completionCache s !! cache_key d p = Some (e, l) -> e ≤ now)
  ∧ pendingCompletions s1 !! cache_key d p = Some pr.
Proof.
  unfold provideInlineCompletionItems.
  destruct (enabled s) eqn:Hen; simpl; [|done].
  destruct (shouldSkipCompletion d p c) as [[|]|]; [done| |done].
  assert (Hrest :
    match pendingCompletions s !! cache_key d p with
    | Some pr0 => (Awaits pr0, s)
    | None =>
        (Awaits (next_promise s),
         set_pending (<[cache_key d p := next_promise s]> (pendingCompletions s))
           (set_timer (Some (now + completionDelay (settings s),
              {| j_key := cache_key d p; j_promise := next_promise s;
                 j_position := p; j_token := token |}))
              (set_next (S (next_promise s)) s)))
    end = (Awaits pr, s1) ->
    enabled s1 = true ∧ completionCache s1 = completionCache s
    ∧ pendingCompletions s1 !! cache_key d p = Some pr).
  { destruct (pendingCompletions s !! cache_key d p) as [q|] eqn:Hq; intros [= <- <-].
    - done.
    - simpl. by rewrite lookup_insert_eq. }
  destruct (completionCache s !! cache_key d p) as [[e l]|].
  - destruct (decide (now < e)); [done|].
    intros (? & ? & ?)%Hrest. repeat split; try done.
    intros e' l' [= <- <-]. lia.
  - intros (? & ? & ?)%Hrest. done.
Qed.

(** A request whose key is in the map is handed the stored promise, and
    nothing changes. *)
Lemma provide_pending s d p c token now pr :
  enabled s = true -> shouldSkipCompletion d p c = Ok false ->
  (∀ e l, completionCache s !! cache_key d p = Some (e, l) -> e ≤ now) ->
  pendingCompletions s !! cache_key d p = Some pr ->
  provideInlineCompletionItems s d p c token now = (Awaits pr, s).
Proof.
  intros Hen Hskip Hstale Hpending. unfold provideInlineCompletionItems.
  rewrite Hen, Hskip, Hpending. simpl.
  destruct (completionCache s !! cache_key d p) as [[e l]|] eqn:Hc; [|done].
  specialize (Hstale e l eq_refl). by rewrite decide_False by lia.
Qed.

(** C1 (as amended).  In every state the provider can reach: a request
    that gets as far as the map of pending requests and finds its key there
    is handed the stored promise, and nothing changes (no timer is armed,
    no call is made); so a request that was handed a pending promise,
    repeated for the same document, position and context no earlier than
    the first, is handed the same promise, and both callers see the value
    that one promise settles with.  At most one model call has been made
    for any promise, and no two calls for one key await their reply.  (A
    promise may settle without any call.) *)
Theorem same_key_requests_share_one_call s :
  reachable rt s ->
  (∀ d p c token now pr,
     enabled s = true -> shouldSkipCompletion d p c = Ok false ->
     (∀ e l, completionCache s !! cache_key d p = Some (e, l) -> e ≤ now) ->
     pendingCompletions s !! cache_key d p = Some pr ->
     provideInlineCompletionItems s d p c token now = (Awaits pr, s))
  ∧ (∀ d p c tok1 tok2 now1 now2 pr s1,
       provideInlineCompletionItems s d p c tok1 now1 = (Awaits pr, s1) ->
       now1 ≤ now2 ->
       provideInlineCompletionItems s1 d p c tok2 now2 = (Awaits pr, s1))
  ∧ (∀ pr, (length (filter (λ call, c_promise call = pr) (calls s)) ≤ 1)%nat)
  ∧ NoDup (map (λ a, j_key (a_job a)) (awaiting s)).
Proof.
  intros Hs. pose proof (reachable_invariant s Hs) as Hinv.
  split; [intros; by apply provide_pending|].
  split; [|split].
  - intros d p c tok1 tok2 now1 now2 pr s1 Hfirst Hle.
    apply provide_awaits in Hfirst as (Hen & Hskip & Hcache & Hstale & Hpending).
    apply provide_pending; try done.
    rewrite Hcache. intros e l Hc. specialize (Hstale e l Hc). lia.
  - intros pr. apply NoDup_filter_at_most_one, (inv_calls_nodup s Hinv).
  - pose proof (inv_jobs_nodup s Hinv) as Hnd. unfold jobs in Hnd.
    rewrite map_app in Hnd. apply NoDup_app in Hnd as (_ & _ & Hnd).
    by rewrite map_map in Hnd.
Qed.

Lemma settle_cached_at k e l j v s :
  cached_at k e l s -> cached_at k e l (settle j v s).
Proof.
  intros (Hc & Hp & Hj). repeat split; [done| |done].
  rewrite settle_pending. by case_decide.
Qed.

Lemma step_cached_at k e l s ev s' :
  cached_at k e l s -> step rt s ev = Some s' ->
  (∀ t, event_time ev = Some t -> t < e) ->
  cached_at k e l s'.
Proof.
  intros Hcached Hstep Htime.
  destruct ev as [d q c token now|d now|pr r now|b|token]; simpl in Hstep.
  - injection Hstep as <-. specialize (Htime now eq_refl).
    destruct (provide_cases s d q c token now)
      as [->|(_ & _ & Hnone & Hstale & _ & ->)]; [done|].
    destruct Hcached as (Hc & Hp & Hj).
    assert (Hne : cache_key d q ≠ k).
    { intros <-. specialize (Hstale _ _ Hc). lia. }
    repeat split; simpl; [done|by rewrite lookup_insert_ne|].
    intros j Hin. unfold jobs in Hin. simpl in Hin.
    apply elem_of_cons in Hin as [->|Hin]; [done|].
    apply Hj. unfold jobs. apply elem_of_app. by right.
  - destruct (debounceTimeout s) as [[due j]|] eqn:Ht; [|done].
    destruct (decide (due ≤ now)); [|done]. injection Hstep as <-.
    destruct Hcached as (Hc & Hp & Hj).
    assert (Hjk : j_key j ≠ k).
    { apply Hj. unfold jobs. rewrite Ht. apply list_elem_of_here. }
    assert (H0 : cached_at k e l (set_timer None s)).
    { repeat split; [done..|]. intros j' Hj'. apply Hj. unfold jobs in *.
      simpl in Hj'. apply elem_of_app. by right. }
    assert (H1 : cached_at k e l (set_last now (set_timer None s))) by done.
    unfold on_timeout.
    repeat (case_match; try (by apply settle_cached_at)).
    destruct H1 as (Hc1 & Hp1 & Hj1). repeat split; [done..|].
    intros j' Hj'. unfold jobs in Hj'. simpl in Hj'.
    apply elem_of_cons in Hj' as [->|Hj']; [done|]. by apply Hj1.
  - destruct (take_awaiting pr (awaiting s)) as [[a rest]|] eqn:Hta; [|done].
    injection Hstep as <-.
    apply take_awaiting_Some in Hta as (Ha & Hpr & ->).
    destruct Hcached as (Hc & Hp & Hj).
    assert (Hjk : j_key (a_job a) ≠ k).
    { apply Hj. unfold jobs. apply elem_of_app. right. by apply list_elem_of_fmap_2. }
    set (s0 := set_awaiting _ s).
    assert (H0 : cached_at k e l s0).
    { repeat split; [done..|]. intros j' Hj'. apply Hj. unfold jobs, s0 in *.
      simpl in Hj'. apply elem_of_app in Hj' as [Hj'|Hj']; apply elem_of_app; [by left|right].
      apply list_elem_of_fmap in Hj' as (a' & -> & Ha').
      apply list_elem_of_filter in Ha' as [_ Ha']. by apply list_elem_of_fmap_2. }
    unfold on_reply.
    destruct H0 as (Hc0 & Hp0 & Hj0).
    repeat (case_match; try (by apply settle_cached_at));
      (apply settle_cached_at; repeat split; [|done..];
       simpl; by rewrite lookup_insert_ne).
  - by injection Hstep as <-.
  - by injection Hstep as <-.
Qed.

Lemma run_cached_at k e l es : ∀ s s',
  cached_at k e l s -> run rt s es = Some s' ->
  Forall (λ ev, ∀ t, event_time ev = Some t -> t < e) es ->
  cached_at k e l s'.
Proof.
  induction es as [|ev es IH]; intros s s' Hc; simpl.
  - by intros [= <-].
  - destruct (step rt s ev) as [s1|] eqn:Hstep; [|done].
    intros Hrun [Hev Hes]%Forall_cons.
    apply (IH s1); [|done..]. by apply (step_cached_at k e l s ev).
Qed.

Lemma provide_cached s d p c token now e l :
  enabled s = true -> shouldSkipCompletion d p c = Ok false ->
  completionCache s !! cache_key d p = Some (e, l) -> now < e ->
  provideInlineCompletionItems s d p c token now = (Returned l, s).
Proof.
  intros Hen Hskip Hc Hnow. unfold provideInlineCompletionItems.
  rewrite Hen, Hskip, Hc. simpl. by rewrite decide_True.
Qed.

Lemma on_reply_success a resp t now s :
  AiModels.text resp = Js.JStr t -> t ≠ EmptyString ->
  default EmptyString (AiModels.error resp) = EmptyString ->
  on_reply a (Ok resp) now s
  = settle (a_job a) (completion_of a t)
      (set_cache (<[j_key (a_job a) := (now + 30000, completion_of a t)]> (completionCache s)) s).
Proof.
  intros Htext Ht Herr. unfold on_reply. rewrite Htext.
  assert (Hfailed : match AiModels.error resp with
                    | Some e => Js.truthy_str e | None => false end = false).
  { destruct (AiModels.error resp) as [e|]; [|done]. simpl in Herr. by subst e. }
  rewrite Hfailed. simpl. destruct t; [done|reflexivity].
Qed.

(** C2 (as amended).  When a reply is turned into a completion, the promise settles
    with that list, and every later request for the same key is answered
    with that very list at once, without arming a timer or making a call
    (the provider is left as it is), as long as the request and the events
    in between happen less than 30000 ms after the reply, the provider is
    enabled and the request is not one that is skipped. *)
Theorem cached_result_served_within_ttl s pr a rest resp t now0 s1 es s2 d p c token now :
  reachable rt s ->
  take_awaiting pr (awaiting s) = Some (a, rest) ->
  AiModels.text resp = Js.JStr t -> t ≠ EmptyString ->
  default EmptyString (AiModels.error resp) = EmptyString ->
  step rt s (Reply pr (Ok resp) now0) = Some s1 ->
  run rt s1 es = Some s2 ->
  Forall (λ ev, ∀ t', event_time ev = Some t' -> t' < now0 + 30000) es ->
  cache_key d p = j_key (a_job a) ->
  enabled s2 = true -> shouldSkipCompletion d p c = Ok false ->
  now < now0 + 30000 ->
  settled s1 !! pr = Some (completion_of a t)
  ∧ provideInlineCompletionItems s2 d p c token now = (Returned (completion_of a t), s2).
Proof.
  intros Hs Hta Htext Ht Herr Hstep Hrun Htimes Hkey Hen Hskip Hnow.
  pose proof (reachable_invariant s Hs) as Hinv.
  rewrite (step_reply s pr a rest _ now0 Hta) in Hstep.
  assert (Hs1 : s1 = on_reply a (Ok resp) now0 (set_awaiting rest s)) by congruence.
  clear Hstep. subst s1.
  pose proof Hta as Hta'. apply take_awaiting_Some in Hta' as (Ha & Hpr & ->).
  assert (Hj : pendingCompletions s !! j_key (a_job a) = Some (j_promise (a_job a))).
  { apply (inv_jobs_pending s Hinv). unfold jobs. apply elem_of_app. right.
    by apply list_elem_of_fmap_2. }
  pose proof (inv_pending_unsettled s Hinv _ _ Hj) as Hnone.
  rewrite (on_reply_success a resp t now0) in * by done. split.
  - unfold settle. simpl. by rewrite Hnone, <- Hpr, lookup_insert_eq.
  - assert (Hcached : cached_at (j_key (a_job a)) (now0 + 30000) (completion_of a t) s2).
    { refine (run_cached_at _ _ _ es _ s2 _ Hrun Htimes).
      repeat split.
      - simpl. by rewrite lookup_insert_eq.
      - by rewrite settle_pending, decide_True.
      - rewrite jobs_settle. intros j' Hj'. by apply (others_after_take s pr a). }
    destruct Hcached as (Hc & _ & _). rewrite <- Hkey in Hc.
    by apply (provide_cached s2 d p c token now (now0 + 30000)).
Qed.

(** *** Requests whose timer was cleared

    A request for another key clears the armed timer.  The key of the
    request that armed it stays in the map, and nothing is left that could
    settle its promise or remove the key: later requests for that key are
    handed a promise that never settles. *)

Lemma step_stranded k p s e s' :
  stranded k p s -> step rt s e = Some s' -> stranded k p s'.
Proof.
  intros (Hp & Hj) Hstep.
  assert (Hsettle : ∀ j v s0, stranded k p s0 -> j_key j ≠ k -> stranded k p (settle j v s0)).
  { intros j v s0 (Hp0 & Hj0) Hne. split; [|done].
    rewrite settle_pending. by rewrite decide_False. }
  destruct e as [d q c token now|d now|pr r now|b|token]; simpl in Hstep.
  - injection Hstep as <-.
    destruct (provide_cases s d q c token now)
      as [->|(_ & _ & Hnone & _ & _ & ->)]; [done|].
    assert (Hne : cache_key d q ≠ k) by congruence.
    split; simpl; [by rewrite lookup_insert_ne|].
    intros j Hin. unfold jobs in Hin. simpl in Hin.
    apply elem_of_cons in Hin as [->|Hin]; [done|].
    apply Hj. unfold jobs. apply elem_of_app. by right.
  - destruct (debounceTimeout s) as [[due j]|] eqn:Ht; [|done].
    destruct (decide (due ≤ now)); [|done]. injection Hstep as <-.
    assert (Hjk : j_key j ≠ k).
    { apply Hj. unfold jobs. rewrite Ht. apply list_elem_of_here. }
    assert (H0 : stranded k p (set_timer None s)).
    { split; [done|]. intros j' Hj'. apply Hj. unfold jobs in *.
      simpl in Hj'. apply elem_of_app. by right. }
    assert (H1 : stranded k p (set_last now (set_timer None s))) by done.
    unfold on_timeout.
    repeat (case_match; try (by apply Hsettle)).
    destruct H1 as (Hp1 & Hj1). split; [done|].
    intros j' Hj'. unfold jobs in Hj'. simpl in Hj'.
    apply elem_of_cons in Hj' as [->|Hj']; [done|]. by apply Hj1.
  - destruct (take_awaiting pr (awaiting s)) as [[a rest]|] eqn:Hta; [|done].
    injection Hstep as <-.
    apply take_awaiting_Some in Hta as (Ha & Hpr & ->).
    assert (Hjk : j_key (a_job a) ≠ k).
    { apply Hj. unfold jobs. apply elem_of_app. right. by apply list_elem_of_fmap_2. }
    set (s0 := set_awaiting _ s).
    assert (H0 : stranded k p s0).
    { split; [done|]. intros j' Hj'. apply Hj. unfold jobs, s0 in *.
      simpl in Hj'. apply elem_of_app in Hj' as [Hj'|Hj']; apply elem_of_app; [by left|right].
      apply list_elem_of_fmap in Hj' as (a' & -> & Ha').
      apply list_elem_of_filter in Ha' as [_ Ha']. by apply list_elem_of_fmap_2. }
    unfold on_reply.
    repeat (case_match; try (by apply Hsettle)); by apply Hsettle.
  - by injection Hstep as <-.
  - by injection Hstep as <-.
Qed.

Lemma stranded_forever k p es : ∀ s s',
  reachable rt s -> stranded k p s -> run rt s es = Some s' ->
  pendingCompletions s' !! k = Some p ∧ settled s' !! p = None.
Proof.
  induction es as [|e es IH]; intros s s' Hs Hst; simpl.
  - intros [= <-]. destruct Hst as (Hp & _). split; [done|].
    by apply (inv_pending_unsettled s (reachable_invariant s Hs) k).
  - destruct (step rt s e) as [s1|] eqn:Hstep; [|done].
    apply IH; [by apply (reachable_step rt s e) | by apply (step_stranded k p s e)].
Qed.
End WithMatcher.

(** *** The examples *)

Lemma state_calling_run :
  run Scenario.no_match (initial Scenario.cfg) Scenario.trace_calling
  = Some Scenario.state_calling.
Proof. vm_compute. reflexivity. Qed.

Lemma state_calling_reachable : reachable Scenario.no_match Scenario.state_calling.
Proof.
  exact (run_reachable Scenario.no_match _ _ _ (reachable_initial _ Scenario.cfg)
           state_calling_run).
Qed.

Lemma state_cancelled_reachable : reachable Scenario.no_match Examples.state_cancelled.
Proof.
  apply (reachable_step _ Scenario.state_requested (Cancel 1));
    [|vm_compute; reflexivity].
  exact (reachable_step Scenario.no_match (initial Scenario.cfg)
           (Provide Scenario.doc_reduce Scenario.at_reduce Scenario.plain 1 100000)
           Scenario.state_requested (reachable_initial _ Scenario.cfg) eq_refl).
Qed.

Lemma pending_entry_removed_on_settle_witness :
  reachable Scenario.no_match Scenario.state_calling
  ∧ take_awaiting 0 (awaiting Scenario.state_calling) = Some (Scenario.the_call, [])
  ∧ (∃ s', step Scenario.no_match Scenario.state_calling
             (Reply 0 (Throw "socket hang up") 101300) = Some s'
           ∧ settled s' !! 0%nat = Some no_items
           ∧ pendingCompletions s' !! "file:///a.ts|0:27" = None)
  ∧ (∃ s', step Scenario.no_match Scenario.state_calling
             (Reply 0 (Ok Examples.reply_no_key) 101300) = Some s'
           ∧ settled s' !! 0%nat = Some no_items
           ∧ pendingCompletions s' !! "file:///a.ts|0:27" = None)
  ∧ (∃ s', step Scenario.no_match Scenario.state_calling
             (Reply 0 (Ok Scenario.the_reply) 101300) = Some s'
           ∧ is_Some (settled s' !! 0%nat)
           ∧ pendingCompletions s' !! "file:///a.ts|0:27" = None)
  ∧ reachable Scenario.no_match Examples.state_cancelled
  ∧ debounceTimeout Examples.state_cancelled = Some (100300, a_job Scenario.the_call)
  ∧ j_token (a_job Scenario.the_call) ∈ cancelled Examples.state_cancelled
  ∧ ∃ s', step Scenario.no_match Examples.state_cancelled
            (TimerFires Scenario.doc_reduce 100300) = Some s'
          ∧ settled s' !! 0%nat = Some no_items
          ∧ pendingCompletions s' !! "file:///a.ts|0:27" = None.
Proof.
  assert (Hta : take_awaiting 0 (awaiting Scenario.state_calling)
                = Some (Scenario.the_call, [])) by (vm_compute; reflexivity).
  assert (Ht : debounceTimeout Examples.state_cancelled
               = Some (100300, a_job Scenario.the_call)) by (vm_compute; reflexivity).
  assert (Hc : j_token (a_job Scenario.the_call) ∈ cancelled Examples.state_cancelled).
  { apply (bool_decide_unpack _). vm_compute. exact I. }
  pose proof (proj1 (pending_entry_removed_on_settle Scenario.no_match _
                       state_calling_reachable)) as Hreply.
  pose proof (proj1 (proj2 (pending_entry_removed_on_settle Scenario.no_match _
                              state_cancelled_reachable))) as Htimer.
  split; [exact state_calling_reachable|]. split; [exact Hta|].
  split; [|split; [|split; [|split; [exact state_cancelled_reachable|
                                      split; [exact Ht|split; [exact Hc|]]]]]].
  - destruct (Hreply _ _ _ (Throw "socket hang up") 101300 Hta)
      as (_ & _ & s' & Hstep & _ & Hgone & Hthrown & _).
    exists s'. split; [exact Hstep|]. split; [exact (Hthrown _ eq_refl) | exact Hgone].
  - destruct (Hreply _ _ _ (Ok Examples.reply_no_key) 101300 Hta)
      as (_ & _ & s' & Hstep & _ & Hgone & _ & Herror).
    exists s'. split; [exact Hstep|].
    split; [exact (Herror _ "No API key found" eq_refl eq_refl ltac:(discriminate))
           | exact Hgone].
  - destruct (Hreply _ _ _ (Ok Scenario.the_reply) 101300 Hta)
      as (_ & _ & s' & Hstep & Hsettled & Hgone & _).
    exists s'. split; [exact Hstep|]. split; [|exact Hgone].
    destruct Hsettled as [->|[t ->]]; eexists; reflexivity.
  - destruct (Htimer 100300 (a_job Scenario.the_call) Scenario.doc_reduce 100300 Ht
                ltac:(lia)) as (_ & _ & s' & Hstep & _ & Hends).
    exists s'. split; [exact Hstep|]. exact (Hends (or_intror Hc)).
Defined.

Lemma state_second_armed_reachable : reachable Scenario.no_match Scenario.state_second_armed.
Proof.
  apply (reachable_step _ Scenario.state_calling
           (Provide Scenario.doc_filter Scenario.at_filter Scenario.plain 2 100400));
    [exact state_calling_reachable | vm_compute; reflexivity].
Qed.

Lemma rate_limit_spaces_call_starts_witness :
  reachable Scenario.no_match Scenario.state_second_armed
  ∧ debounceTimeout Scenario.state_second_armed = Some (100700, Scenario.second_job)
  ∧ 100700 - lastCompletionTime Scenario.state_second_armed < 1000
  ∧ map c_time (calls Scenario.state_second_armed) = [100300]
  ∧ ∃ s', step Scenario.no_match Scenario.state_second_armed
            (TimerFires Scenario.doc_filter 100700) = Some s'
          ∧ settled s' !! 1%nat = Some no_items
          ∧ calls s' = calls Scenario.state_second_armed.
Proof.
  assert (Htimer : debounceTimeout Scenario.state_second_armed = Some (100700, Scenario.second_job))
    by (vm_compute; reflexivity).
  assert (Hsoon : 100700 - lastCompletionTime Scenario.state_second_armed < 1000)
    by (vm_compute; reflexivity).
  split; [exact state_second_armed_reachable|].
  split; [exact Htimer|]. split; [exact Hsoon|]. split; [vm_compute; reflexivity|].
  destruct (proj2 (proj2 (rate_limit_spaces_call_starts Scenario.no_match _
                            state_second_armed_reachable))
              100700 Scenario.second_job Scenario.doc_filter 100700 Htimer ltac:(lia) Hsoon)
    as (s' & Hstep & Hsettled & _ & Hcalls & _).
  exists s'. split; [exact Hstep|]. split; [exact Hsettled | exact Hcalls].
Defined.

Lemma state_requested_reachable : reachable Scenario.no_match Scenario.state_requested.
Proof.
  exact (reachable_step Scenario.no_match (initial Scenario.cfg)
           (Provide Scenario.doc_reduce Scenario.at_reduce Scenario.plain 1 100000)
           Scenario.state_requested (reachable_initial _ Scenario.cfg) eq_refl).
Qed.

Lemma same_key_requests_share_one_call_witness :
  reachable Scenario.no_match Scenario.state_requested
  ∧ enabled Scenario.state_requested = true
  ∧ shouldSkipCompletion Scenario.doc_reduce Scenario.at_reduce Scenario.plain = Ok false
  ∧ pendingCompletions Scenario.state_requested
      !! cache_key Scenario.doc_reduce Scenario.at_reduce = Some 0%nat
  ∧ provideInlineCompletionItems Scenario.state_requested Scenario.doc_reduce
      Scenario.at_reduce Scenario.plain 2 100010
    = (Awaits 0, Scenario.state_requested).
Proof.
  assert (Hen : enabled Scenario.state_requested = true) by reflexivity.
  assert (Hskip : shouldSkipCompletion Scenario.doc_reduce Scenario.at_reduce Scenario.plain
                  = Ok false) by (vm_compute; reflexivity).
  assert (Hpending : pendingCompletions Scenario.state_requested
                       !! cache_key Scenario.doc_reduce Scenario.at_reduce = Some 0%nat)
    by (vm_compute; reflexivity).
  assert (Hstale : ∀ e l, completionCache Scenario.state_requested
                            !! cache_key Scenario.doc_reduce Scenario.at_reduce = Some (e, l) ->
                          e ≤ 100010).
  { intros e l Hc. vm_compute in Hc. discriminate. }
  split; [exact state_requested_reachable|].
  split; [exact Hen|]. split; [exact Hskip|]. split; [exact Hpending|].
  exact (proj1 (same_key_requests_share_one_call Scenario.no_match Scenario.state_requested
                  state_requested_reachable)
           Scenario.doc_reduce Scenario.at_reduce Scenario.plain 2%nat 100010 0%nat
           Hen Hskip Hstale Hpending).
Defined.

(** Against C1 as it was stated: two requests for one key, ten
    milliseconds apart, are handed the same promise, and when the timer
    fires the line is too short to be sent: the promise settles with the
    empty list and the number of model calls is not one but zero. *)
Lemma two_requests_no_call :
  ∃ s1 s3,
    provideInlineCompletionItems (initial Scenario.cfg) Scenario.doc_short
      Scenario.at_short Scenario.plain 1 100000 = (Awaits 0, s1)
    ∧ provideInlineCompletionItems s1 Scenario.doc_short
        Scenario.at_short Scenario.plain 2 100010 = (Awaits 0, s1)
    ∧ step Scenario.no_match s1 (TimerFires Scenario.doc_short 100310) = Some s3
    ∧ settled s3 !! 0%nat = Some no_items
    ∧ length (calls s3) ≠ 1%nat.
Proof.
  eexists _, _. split; [vm_compute; reflexivity|].
  split; [vm_compute; reflexivity|].
  split; [vm_compute; reflexivity|].
  split; [vm_compute; reflexivity|].
  vm_compute. discriminate.
Qed.

(** Against C3 as it was stated: the first call starts at 100300 and its
    reply arrives at 105300; a request that arrives a tenth of a second
    after that reply is not answered with the empty list: when its timer
    fires at 105700 the last start lies 5400 ms back, the second call is
    made and its promise awaits the reply. *)
Lemma request_after_slow_call_is_sent :
  ∃ s, run Scenario.no_match (initial Scenario.cfg) Scenario.trace_slow_call = Some s
       ∧ map c_time (calls s) = [105700; 100300]
       ∧ map c_promise (calls s) = [1%nat; 0%nat]
       ∧ settled s !! 1%nat = None
       ∧ map (λ a, j_promise (a_job a)) (awaiting s) = [1%nat].
Proof.
  eexists. split; [vm_compute; reflexivity|].
  repeat split; vm_compute; reflexivity.
Qed.

Lemma cached_result_served_within_ttl_witness :
  reachable Scenario.no_match Scenario.state_calling
  ∧ take_awaiting 0 (awaiting Scenario.state_calling) = Some (Scenario.the_call, [])
  ∧ step Scenario.no_match Scenario.state_calling (Reply 0 (Ok Scenario.the_reply) 101300)
    = Some Scenario.state_replied
  ∧ run Scenario.no_match Scenario.state_replied Scenario.trace_between = Some Scenario.state_later
  ∧ Forall (λ ev, ∀ t', event_time ev = Some t' -> t' < 101300 + 30000) Scenario.trace_between
  ∧ cache_key Scenario.doc_reduce Scenario.at_reduce = j_key (a_job Scenario.the_call)
  ∧ enabled Scenario.state_later = true
  ∧ shouldSkipCompletion Scenario.doc_reduce Scenario.at_reduce Scenario.plain = Ok false
  ∧ 120000 < 101300 + 30000
  ∧ provideInlineCompletionItems Scenario.state_later Scenario.doc_reduce Scenario.at_reduce
      Scenario.plain 3 120000
    = (Returned (completion_of Scenario.the_call "(sum, x) => sum + x, 0)"), Scenario.state_later).
Proof.
  assert (Hta : take_awaiting 0 (awaiting Scenario.state_calling)
                = Some (Scenario.the_call, [])) by (vm_compute; reflexivity).
  assert (Hstep : step Scenario.no_match Scenario.state_calling
                    (Reply 0 (Ok Scenario.the_reply) 101300)
                  = Some Scenario.state_replied) by (vm_compute; reflexivity).
  assert (Hrun : run Scenario.no_match Scenario.state_replied Scenario.trace_between
                 = Some Scenario.state_later) by (vm_compute; reflexivity).
  assert (Htimes : Forall (λ ev, ∀ t', event_time ev = Some t' -> t' < 101300 + 30000)
                     Scenario.trace_between).
  { repeat constructor; simpl; intros t' Ht'; simplify_eq; lia. }
  assert (Hkey : cache_key Scenario.doc_reduce Scenario.at_reduce
                 = j_key (a_job Scenario.the_call)) by (vm_compute; reflexivity).
  assert (Hen : enabled Scenario.state_later = true) by (vm_compute; reflexivity).
  assert (Hskip : shouldSkipCompletion Scenario.doc_reduce Scenario.at_reduce Scenario.plain
                  = Ok false) by (vm_compute; reflexivity).
  assert (Hnow : 120000 < 101300 + 30000) by lia.
  split; [exact state_calling_reachable|].
  repeat (split; [assumption|]).
  exact (proj2 (cached_result_served_within_ttl Scenario.no_match
                  Scenario.state_calling 0%nat Scenario.the_call [] Scenario.the_reply
                  "(sum, x) => sum + x, 0)" 101300 Scenario.state_replied
                  Scenario.trace_between Scenario.state_later Scenario.doc_reduce Scenario.at_reduce
                  Scenario.plain 3%nat 120000
                  state_calling_reachable Hta eq_refl ltac:(discriminate) eq_refl
                  Hstep Hrun Htimes Hkey Hen Hskip Hnow)).
Defined.

(** Against C2 as it was stated: a completion for the key has succeeded
    and is cached until 131300.  A request for the same key at 120000 that
    is made while the completion menu is open, or while the provider is
    switched off, is answered with the empty list and not with the cached
    one: both checks come before the cache is looked at. *)
Lemma cached_key_not_served_when_skipped :
  run Scenario.no_match (initial Scenario.cfg)
    (Scenario.trace_calling ++ Reply 0 (Ok Scenario.the_reply) 101300 :: Scenario.trace_between)
  = Some Scenario.state_later
  ∧ completionCache Scenario.state_later !! cache_key Scenario.doc_reduce Scenario.at_reduce
    = Some (131300, completion_of Scenario.the_call "(sum, x) => sum + x, 0)")
  ∧ 120000 < 131300
  ∧ provideInlineCompletionItems Scenario.state_later Scenario.doc_reduce Scenario.at_reduce
      Examples.menu_open 3 120000
    = (Returned no_items, Scenario.state_later)
  ∧ provideInlineCompletionItems (set_enabled false Scenario.state_later) Scenario.doc_reduce
      Scenario.at_reduce Scenario.plain 3 120000
    = (Returned no_items, set_enabled false Scenario.state_later)
  ∧ completion_of Scenario.the_call "(sum, x) => sum + x, 0)" ≠ no_items.
Proof.
  split; [vm_compute; reflexivity|]. split; [vm_compute; reflexivity|].
  split; [lia|]. split; [reflexivity|]. split; [reflexivity|]. discriminate.
Qed.

(** Two requests in different files, a tenth of a second apart: the second
    clears the timer of the first. *)
Lemma superseded_request_is_stranded :
  ∃ s, run Scenario.no_match (initial Scenario.cfg)
         [Provide Scenario.doc_reduce Scenario.at_reduce Scenario.plain 1 100000;
          Provide Scenario.doc_filter Scenario.at_filter Scenario.plain 2 100100] = Some s
       ∧ stranded "file:///a.ts|0:27" 0 s.
Proof.
  eexists. split; [vm_compute; reflexivity|].
  split; [vm_compute; reflexivity|].
  intros j Hj. vm_compute in Hj. apply list_elem_of_singleton in Hj as ->. done.
Qed.

End CompletionFacts.

(** ** More on the API client *)

Module MoreApiClientFacts.
Import AiModels ApiClient ApiClientFacts.

(** *** One request per call *)

Lemma bind_keeps_log {A B} (m : M A) (k : A -> M B) :
  (∀ log, snd (m log) = log) -> (∀ a log, snd (k a log) = log) ->
  ∀ log, snd (bind m k log) = log.
Proof.
  intros Hm Hk log. unfold bind. specialize (Hm log).
  destruct (m log) as [[a|msg] log']; simpl in *; subst; [apply Hk | done].
Qed.

Lemma fetch_then_keeps {B} (h : Host) (w : WireRequest) (k : Response -> M B) :
  (∀ a log, snd (k a log) = log) ->
  ∀ log, snd (bind (do_fetch h w) k log) = (log ++ [w])%list.
Proof.
  intros Hk log. unfold bind, do_fetch.
  destruct (fetch h w) as [r|msg]; simpl; [apply Hk | done].
Qed.

Lemma check_ok_keeps_log (vendor : string) (r : Response) (log : list WireRequest) :
  snd (check_ok vendor r log) = log.
Proof.
  unfold check_ok. destruct (ok r); [done|].
  apply bind_keeps_log; [done|]. intros. done.
Qed.

Ltac keeps_log :=
  repeat first
    [ apply check_ok_keeps_log
    | apply bind_keeps_log; intros
    | reflexivity ].

Lemma dispatch_log (h : Host) (request : ApiRequest) (m : AIModel) (log : list WireRequest) :
  snd (dispatch h request m log) = log
  ∨ ∃ w, snd (dispatch h request m log) = (log ++ [w])%list.
Proof.
  unfold dispatch.
  destruct (String.eqb (provider m) "OpenAI");
    [|destruct (String.eqb (provider m) "Anthropic");
      [|destruct (String.eqb (provider m) "Google");
        [|destruct (String.eqb (provider m) "Custom"); [|by left]]]].
  - right. eexists. unfold callOpenAI. apply fetch_then_keeps. intros. keeps_log.
  - right. eexists. unfold callAnthropic. apply fetch_then_keeps. intros. keeps_log.
  - right. eexists. unfold callGoogle. apply fetch_then_keeps. intros. keeps_log.
  - unfold callCustomModel. destruct (negb _); [by left|].
    right. eexists. apply fetch_then_keeps. intros. keeps_log.
Qed.

(** A call returns or rejects, with at most one request sent. *)
Lemma callModel_ends (h : Host) (modelId prompt : string) (o : Options)
    (log : list WireRequest) :
  ∃ res log', callModel h modelId prompt o log = (res, log')
    ∧ (log' = log ∨ ∃ w, log' = (log ++ [w])%list).
Proof.
  unfold callModel.
  destruct (getModelById modelId) as [m|]; [|by eexists _, _; split; [|left]].
  unfold bind at 1, lift.
  destruct (secrets h (secretKeyName m)) as [[[|c key]|]|msg];
    try (by eexists _, _; split; [|left]).
  destruct (try_catch_returns (dispatch h (build_request h m prompt o (String c key)) m)
              (fun msg => failure msg (id m)) log) as (r & log' & Heq & Hlog & _).
  exists (Ok r), log'. split; [exact Heq|]. rewrite Hlog. apply dispatch_log.
Qed.

(** X1.  Whatever the model, the prompt and the options are, and however the
    network behaves, one call of [callModel] puts at most one request on the
    wire, after what was there: nothing is retried. *)
Theorem callModel_sends_at_most_once (h : Host) (modelId prompt : string) (o : Options)
    (log : list WireRequest) :
  ∃ log', snd (callModel h modelId prompt o log) = log'
    ∧ (log' = log ∨ ∃ w, log' = (log ++ [w])%list).
Proof.
  destruct (callModel_ends h modelId prompt o log) as (res & log' & Heq & Hlog).
  exists log'. by rewrite Heq.
Qed.

(** *** The table and the dispatch *)

(** X2.  Looking a descriptor up by its identifier gives that descriptor back:
    the identifiers of the table are pairwise different. *)
Theorem getModelById_finds_each (i : string) (m : AIModel) :
  getModelById i = Some m ↔ m ∈ SUPPORTED_MODELS ∧ id m = i.
Proof.
  split.
  - intros H. apply getModelById_known in H. tauto.
  - intros [Hin <-]. revert m Hin. apply Forall_forall.
    repeat constructor.
Qed.

(** X3.  Every descriptor of the table is served by one of the four request
    builders: the branch for an unsupported provider is never taken. *)
Theorem dispatch_covers_table (h : Host) (request : ApiRequest) (i : string) (m : AIModel) :
  getModelById i = Some m ->
  (provider m = "OpenAI" ∧ dispatch h request m = callOpenAI h request m)
  ∨ (provider m = "Anthropic" ∧ dispatch h request m = callAnthropic h request m)
  ∨ (provider m = "Google" ∧ dispatch h request m = callGoogle h request m)
  ∨ (provider m = "Custom" ∧ dispatch h request m = callCustomModel h request m).
Proof. apply dispatch_cases. Qed.

Lemma dispatch_covers_table_witness :
  getModelById "claude-3-opus" = Some Examples.claude_opus
  ∧ dispatch Scenario.host_anthropic
      (build_request Scenario.host_anthropic Examples.claude_opus "hi" no_options "k")
      Examples.claude_opus
    = callAnthropic Scenario.host_anthropic
        (build_request Scenario.host_anthropic Examples.claude_opus "hi" no_options "k")
        Examples.claude_opus.
Proof.
  split; [reflexivity|].
  destruct (dispatch_covers_table Scenario.host_anthropic
              (build_request Scenario.host_anthropic Examples.claude_opus "hi" no_options "k")
              "claude-3-opus" Examples.claude_opus eq_refl)
    as [[Hp _]|[[_ Hd]|[[Hp _]|[Hp _]]]]; [discriminate| exact Hd |discriminate..].
Defined.

Lemma getModelById_finds_each_witness :
  Scenario.gpt4 ∈ SUPPORTED_MODELS ∧ getModelById "gpt-4" = Some Scenario.gpt4.
Proof.
  assert (Hin : Scenario.gpt4 ∈ SUPPORTED_MODELS) by apply list_elem_of_here.
  split; [exact Hin|].
  exact (proj2 (getModelById_finds_each "gpt-4" Scenario.gpt4) (conj Hin eq_refl)).
Defined.

(** *** Failures of the transport *)

(** X4.  A reply whose status is not a success comes back as an error that names
    the vendor, the status code and the body of the reply, after exactly one
    request. *)
Theorem failed_status_becomes_error (h : Host) (modelId prompt : string) (o : Options)
    (m : AIModel) (key t : string) (resp : Response) (log : list WireRequest) :
  getModelById modelId = Some m ->
  secrets h (secretKeyName m) = Ok (Some key) -> key ≠ EmptyString ->
  (provider m = "Custom" ->
   Js.truthy_str (endpoint (build_request h m prompt o key)) = true) ->
  (∀ w, fetch h w = Ok resp) -> ok resp = false -> body_text resp = Ok t ->
  ∃ r w, callModel h modelId prompt o log = (Ok r, (log ++ [w])%list)
    ∧ error r = Some (provider m ++ " API error (" ++ pretty (status resp) ++ "): " ++ t)
    ∧ model r = id m.
Proof. apply callModel_status_error. Qed.

Lemma failed_status_becomes_error_witness :
  ∃ r w, callModel Examples.host_unavailable "gpt-4" "Explain this" no_options []
         = (Ok r, [w])
    ∧ error r = Some "OpenAI API error (503): upstream down"
    ∧ model r = "gpt-4".
Proof.
  destruct (failed_status_becomes_error Examples.host_unavailable "gpt-4" "Explain this"
              no_options Scenario.gpt4 "sk-test" "upstream down"
              Examples.reply_unavailable []
              eq_refl eq_refl ltac:(discriminate) ltac:(discriminate)
              ltac:(reflexivity) eq_refl eq_refl)
    as (r & w & Hcall & Herr & Hmodel).
  exists r, w. split; [exact Hcall|]. split; [exact Herr | exact Hmodel].
Defined.

(** *** The custom model *)

(** X5.  With a key but no endpoint, neither in the options nor in the
    settings, the custom model fails before anything is sent. *)
Theorem custom_without_endpoint (h : Host) (prompt key : string) (o : Options)
    (log : list WireRequest) :
  secrets h "customApiKey" = Ok (Some key) -> key ≠ EmptyString ->
  default EmptyString (customModelEndpoint h) = EmptyString ->
  default EmptyString (o_endpoint o) = EmptyString ->
  ∃ r, callModel h "custom" prompt o log = (Ok r, log)
    ∧ error r = Some "No endpoint specified for custom model".
Proof.
  intros Hkey Hne Hset Hopt. unfold callModel. simpl. rewrite Hkey.
  destruct key as [|c key]; [done|].
  unfold try_catch, dispatch, build_request, callCustomModel. simpl.
  rewrite Hopt. destruct (customModelEndpoint h) as [e|]; simpl in *.
  - subst e. simpl. eexists. done.
  - eexists. done.
Qed.

Lemma custom_without_endpoint_witness :
  ∃ r, callModel Examples.host_custom_unset "custom" "Explain this" no_options []
       = (Ok r, [])
    ∧ error r = Some "No endpoint specified for custom model".
Proof.
  exact (custom_without_endpoint Examples.host_custom_unset "Explain this" "ck-test"
           no_options [] eq_refl ltac:(discriminate) eq_refl eq_refl).
Defined.

Lemma callCustomModel_url (h : Host) (request : ApiRequest) (m : AIModel)
    (log : list WireRequest) :
  Js.truthy_str (endpoint request) = true ->
  ∃ w, snd (callCustomModel h request m log) = (log ++ [w])%list
       ∧ url w = endpoint request.
Proof.
  intros He. unfold callCustomModel. rewrite He. simpl.
  eexists. split; [apply fetch_then_keeps; intros; keeps_log | reflexivity].
Qed.

(** X6.  For the custom model the endpoint of the settings wins, also over an
    endpoint given with the call. *)
Theorem custom_endpoint_setting_wins (h : Host) (prompt key e : string) (o : Options)
    (log : list WireRequest) :
  secrets h "customApiKey" = Ok (Some key) -> key ≠ EmptyString ->
  customModelEndpoint h = Some e -> e ≠ EmptyString ->
  ∃ r w, callModel h "custom" prompt o log = (Ok r, (log ++ [w])%list) ∧ url w = e.
Proof.
  intros Hkey Hne Hset He.
  assert (Hm : getModelById "custom" = Some (default Scenario.gpt4 (getModelById "custom")))
    by reflexivity.
  set (m := default Scenario.gpt4 (getModelById "custom")) in *.
  rewrite (callModel_dispatches h "custom" prompt o m key Hm Hkey Hne).
  destruct (try_catch_returns (dispatch h (build_request h m prompt o key) m)
              (fun msg => failure msg (id m)) log) as (r & log' & Heq & Hlog & _).
  assert (Hend : endpoint (build_request h m prompt o key) = e).
  { unfold build_request. simpl. rewrite Hset. by destruct e. }
  destruct (callCustomModel_url h (build_request h m prompt o key) m log) as (w & Hw & Hurl).
  { rewrite Hend. by destruct e. }
  exists r, w. rewrite Heq, Hlog. split; [|congruence].
  f_equal. exact Hw.
Qed.

Lemma custom_endpoint_setting_wins_witness :
  ∃ r w, callModel Examples.host_custom "custom" "Explain this"
           Examples.options_elsewhere []
         = (Ok r, [w])
    ∧ url w = "https://llm.example/v1".
Proof.
  exact (custom_endpoint_setting_wins Examples.host_custom "Explain this" "ck-test"
           "https://llm.example/v1" Examples.options_elsewhere [] eq_refl ltac:(discriminate) eq_refl
           ltac:(discriminate)).
Defined.

(** *** What a vendor is not sent *)

(** X7.  For an Anthropic model the temperature of the options makes no
    difference to the request or to the result: it is not sent. *)
Theorem anthropic_ignores_temperature (h : Host) (modelId prompt : string) (m : AIModel)
    (sp : option string) (mt t t' : option Js.number) (ep : option string)
    (ms : option (list Message)) (log : list WireRequest) :
  getModelById modelId = Some m -> provider m = "Anthropic" ->
  callModel h modelId prompt
    {| o_systemPrompt := sp; o_maxTokens := mt; o_temperature := t;
       o_endpoint := ep; o_messages := ms |} log
  = callModel h modelId prompt
      {| o_systemPrompt := sp; o_maxTokens := mt; o_temperature := t';
         o_endpoint := ep; o_messages := ms |} log.
Proof.
  intros Hm Hp. unfold callModel. rewrite Hm. unfold bind at 1, lift.
  destruct (secrets h (secretKeyName m)) as [[[|c key]|]|msg]; try done.
  unfold try_catch, dispatch. rewrite Hp. simpl. reflexivity.
Qed.

Lemma anthropic_ignores_temperature_witness :
  getModelById "claude-3-opus" = Some Examples.claude_opus
  ∧ callModel Scenario.host_anthropic "claude-3-opus" "Explain this"
      (Examples.options_with None (Some (Js.Num (1 # 10)))) []
    = callModel Scenario.host_anthropic "claude-3-opus" "Explain this"
        (Examples.options_with None (Some (Js.Num (9 # 10)))) [].
Proof.
  split; [reflexivity|].
  exact (anthropic_ignores_temperature Scenario.host_anthropic "claude-3-opus"
           "Explain this" Examples.claude_opus None None _ _ None None []
           eq_refl eq_refl).
Defined.

(** X8.  For a Google model and for the custom model the system prompt of the
    options makes no difference to the request or to the result: it is not
    sent. *)
Theorem google_and_custom_ignore_systemPrompt (h : Host) (modelId prompt : string)
    (m : AIModel) (sp sp' : option string) (mt t : option Js.number) (ep : option string)
    (ms : option (list Message)) (log : list WireRequest) :
  getModelById modelId = Some m -> provider m = "Google" ∨ provider m = "Custom" ->
  callModel h modelId prompt
    {| o_systemPrompt := sp; o_maxTokens := mt; o_temperature := t;
       o_endpoint := ep; o_messages := ms |} log
  = callModel h modelId prompt
      {| o_systemPrompt := sp'; o_maxTokens := mt; o_temperature := t;
         o_endpoint := ep; o_messages := ms |} log.
Proof.
  intros Hm Hp. unfold callModel. rewrite Hm. unfold bind at 1, lift.
  destruct (secrets h (secretKeyName m)) as [[[|c key]|]|msg]; try done.
  unfold try_catch, dispatch. destruct Hp as [Hp|Hp]; rewrite Hp; simpl; reflexivity.
Qed.

Lemma google_and_custom_ignore_systemPrompt_witness :
  ∃ m, getModelById "gemini-pro" = Some m ∧ provider m = "Google"
    ∧ callModel Examples.host_google "gemini-pro" "Explain this"
        (Examples.options_with (Some "Answer in French.") None) []
      = callModel Examples.host_google "gemini-pro" "Explain this"
          (Examples.options_with None None) [].
Proof.
  eexists. split; [reflexivity|]. split; [reflexivity|].
  exact (google_and_custom_ignore_systemPrompt Examples.host_google "gemini-pro"
           "Explain this" _ _ _ None None None None [] eq_refl (or_introl eq_refl)).
Defined.

(** *** Replies without a choice *)

(** X9.  A successful reply of an OpenAI model whose body is an object without
    [choices] is not an error: the result has the empty text and no
    [error]. *)
Theorem openai_reply_without_choices (h : Host) (modelId prompt : string) (o : Options)
    (m : AIModel) (key : string) (resp : Response) (fs : list (string * Js.jsval))
    (log : list WireRequest) :
  getModelById modelId = Some m -> provider m = "OpenAI" ->
  secrets h (secretKeyName m) = Ok (Some key) -> key ≠ EmptyString ->
  (∀ w, fetch h w = Ok resp) -> ok resp = true ->
  body_json resp = Ok (Js.JObj fs) -> Js.field "choices" fs = Js.JUndefined ->
  ∃ r w, callModel h modelId prompt o log = (Ok r, (log ++ [w])%list)
    ∧ text r = Js.JStr "" ∧ error r = None.
Proof.
  intros Hm Hp Hkey Hne Hfetch Hok Hjson Hchoices.
  rewrite (callModel_dispatches h modelId prompt o m key Hm Hkey Hne).
  unfold try_catch, dispatch. rewrite Hp. simpl.
  unfold callOpenAI, bind at 1, do_fetch. rewrite Hfetch.
  unfold bind, check_ok, lift, ret. rewrite Hok, Hjson. simpl. rewrite Hchoices. simpl.
  eexists _, _. done.
Qed.

Lemma openai_reply_without_choices_witness :
  ∃ r w, callModel Examples.host_empty_reply "gpt-4" "Explain this" no_options []
         = (Ok r, [w])
    ∧ text r = Js.JStr "" ∧ error r = None.
Proof.
  exact (openai_reply_without_choices Examples.host_empty_reply "gpt-4" "Explain this"
           no_options Scenario.gpt4 "sk-test" Examples.reply_empty [] []
           eq_refl eq_refl eq_refl ltac:(discriminate) ltac:(reflexivity)
           eq_refl eq_refl eq_refl).
Defined.

End MoreApiClientFacts.

(** ** The key manager *)

Module ApiKeyManagerFacts.
Import AiModels ApiClient ApiKeyManager ApiClientFacts.

(** X10.  Once a key is stored for a model, [hasApiKey] answers for every model of
    the table: models that share the secret's name with it have a key
    exactly when the stored text is not empty, and the others are as
    before. *)
Theorem setApiKey_then_hasApiKey (secrets : gmap string string) (modelId apiKey : string)
    (m : AIModel) (i' : string) (m' : AIModel) :
  getModelById modelId = Some m -> getModelById i' = Some m' ->
  succeeded (setApiKey None secrets modelId apiKey) = true
  ∧ hasApiKey (secrets_after (setApiKey None secrets modelId apiKey)) i'
    = if decide (secretKeyName m' = secretKeyName m) then Js.truthy_str apiKey
      else hasApiKey secrets i'.
Proof.
  unfold getModelById. intros Hm Hm'. unfold setApiKey, hasApiKey. rewrite Hm, Hm'. simpl.
  split; [done|]. case_decide as Heq.
  - by rewrite Heq, lookup_insert_eq.
  - by rewrite lookup_insert_ne.
Qed.

Lemma setApiKey_then_hasApiKey_witness :
  getModelById "gpt-4" = Some Scenario.gpt4
  ∧ ∃ m', getModelById "gpt-3.5-turbo" = Some m'
    ∧ hasApiKey (secrets_after (setApiKey None Examples.no_secrets "gpt-4" "sk-new"))
        "gpt-3.5-turbo" = true.
Proof.
  split; [reflexivity|]. eexists. split; [reflexivity|].
  exact (proj2 (setApiKey_then_hasApiKey Examples.no_secrets "gpt-4" "sk-new"
                  Scenario.gpt4 "gpt-3.5-turbo" _ eq_refl eq_refl)).
Defined.

(** X11.  Removing the key of a model removes it for every model that shares the
    secret's name, and for no other. *)
Theorem removeApiKey_then_hasApiKey (secrets : gmap string string) (modelId : string)
    (m : AIModel) (i' : string) (m' : AIModel) :
  getModelById modelId = Some m -> getModelById i' = Some m' ->
  succeeded (removeApiKey None secrets modelId) = true
  ∧ hasApiKey (secrets_after (removeApiKey None secrets modelId)) i'
    = if decide (secretKeyName m' = secretKeyName m) then false
      else hasApiKey secrets i'.
Proof.
  unfold getModelById. intros Hm Hm'. unfold removeApiKey, hasApiKey. rewrite Hm, Hm'. simpl.
  split; [done|]. case_decide as Heq.
  - by rewrite Heq, lookup_delete_eq.
  - by rewrite lookup_delete_ne.
Qed.

Lemma removeApiKey_then_hasApiKey_witness :
  getModelById "gpt-3.5-turbo" = Some (default Scenario.gpt4 (getModelById "gpt-3.5-turbo"))
  ∧ getModelById "gpt-4" = Some Scenario.gpt4
  ∧ hasApiKey Examples.openai_secrets "gpt-4" = true
  ∧ hasApiKey (secrets_after (removeApiKey None Examples.openai_secrets "gpt-3.5-turbo"))
      "gpt-4" = false.
Proof.
  split; [reflexivity|]. split; [reflexivity|]. split; [reflexivity|].
  exact (proj2 (removeApiKey_then_hasApiKey Examples.openai_secrets "gpt-3.5-turbo"
                  _ "gpt-4" Scenario.gpt4 eq_refl eq_refl)).
Defined.

(** X12.  [hasApiKey] tells what [callModel] will do with the same secret
    storage: when it answers true the call gets as far as the request
    builder of the model, and when it answers false the call ends with
    [Invalid model ID] or [No API key found] and nothing is sent. *)
Theorem hasApiKey_decides_call (secrets : gmap string string) (h : Host)
    (modelId prompt : string) (o : Options) (log : list WireRequest) :
  if hasApiKey secrets modelId
  then ∃ m key, getModelById modelId = Some m ∧ secrets !! secretKeyName m = Some key
         ∧ callModel (with_secrets secrets h) modelId prompt o
           = try_catch (dispatch (with_secrets secrets h)
                          (build_request (with_secrets secrets h) m prompt o key) m)
                       (fun msg => ret (failure msg (id m)))
  else ∃ r, callModel (with_secrets secrets h) modelId prompt o log = (Ok r, log)
         ∧ (error r = Some "Invalid model ID" ∨ error r = Some "No API key found").
Proof.
  unfold hasApiKey, callModel. fold (getModelById modelId).
  destruct (getModelById modelId) as [m|]; [|eexists; split; [done|by left]].
  simpl. destruct (secrets !! secretKeyName m) as [[|c key]|] eqn:Hk; simpl.
  - eexists. split; [done|by right].
  - exists m, (String c key). done.
  - eexists. split; [done|by right].
Qed.

End ApiKeyManagerFacts.

(** ** The context helpers *)

Module ExtensionFacts.
Import Extension.

Lemma length_append (a b : string) :
  String.length (a ++ b) = (String.length a + String.length b)%nat.
Proof. induction a as [|c a IH]; simpl; [done | by rewrite IH]. Qed.

Lemma append_assoc (a b c : string) : (a ++ b) ++ c = a ++ (b ++ c).
Proof.
  induction a as [|x a IH]; [done|].
  change (String x ((a ++ b) ++ c) = String x (a ++ (b ++ c))). by rewrite IH.
Qed.

Lemma length_slice_to (n : nat) (s : string) :
  String.length (Js.slice_to n s) = Nat.min n (String.length s).
Proof.
  revert s. induction n as [|n IH]; intros [|c s]; simpl; try done.
  by rewrite IH.
Qed.

Lemma slice_to_prefix (n : nat) (s : string) :
  String.prefix (Js.slice_to n s) s = true.
Proof.
  revert s. induction n as [|n IH]; intros [|c s]; simpl; try done.
  destruct (ascii_dec c c); [apply IH | congruence].
Qed.

Lemma trim_length (contextText : string) (maxTokens : Z) :
  0 ≤ maxTokens ->
  Z.of_nat (String.length (trimContextToTokenLimit contextText maxTokens))
  ≤ 4 * maxTokens + 22.
Proof.
  intros Hpos. unfold trimContextToTokenLimit, slice0.
  replace (maxTokens * 4) with (4 * maxTokens) by lia.
  destruct (decide (4 * maxTokens < Z.of_nat (String.length contextText))); [|lia].
  rewrite decide_True by lia.
  rewrite length_append, length_slice_to. simpl. lia.
Qed.

(** X13.  A context within the budget is returned as it is.  A longer one is cut
    to the budget of four characters per token and marked, so that the
    result is 22 characters longer than the budget: no result is longer
    than that, and a result that was cut is itself over the budget. *)
Theorem trimContextToTokenLimit_bound (contextText : string) (maxTokens : Z) :
  0 ≤ maxTokens ->
  let out := trimContextToTokenLimit contextText maxTokens in
  (Z.of_nat (String.length contextText) ≤ 4 * maxTokens -> out = contextText)
  ∧ (4 * maxTokens < Z.of_nat (String.length contextText) ->
       out = Js.slice_to (Z.to_nat (4 * maxTokens)) contextText ++ TRIMMED_MARK
       ∧ Z.of_nat (String.length out) = 4 * maxTokens + 22)
  ∧ Z.of_nat (String.length out) ≤ 4 * maxTokens + 22.
Proof.
  intros Hpos out. unfold out, trimContextToTokenLimit, slice0.
  replace (maxTokens * 4) with (4 * maxTokens) by lia.
  destruct (decide (4 * maxTokens < Z.of_nat (String.length contextText))) as [Hlong|Hshort].
  - rewrite decide_True by lia.
    rewrite length_append, length_slice_to. simpl.
    split; [lia|]. split; [intros _; split; [done|lia]|lia].
  - split; [done|]. split; [lia|lia].
Qed.

Lemma trimContextToTokenLimit_bound_witness :
  0 ≤ 2
  ∧ trimContextToTokenLimit "const answer = 42;" 2
    = "const an" ++ TRIMMED_MARK
  ∧ String.length (trimContextToTokenLimit "const answer = 42;" 2) = 30%nat.
Proof.
  split; [lia|].
  destruct (trimContextToTokenLimit_bound "const answer = 42;" 2 ltac:(lia))
    as (_ & Hcut & _).
  destruct (Hcut ltac:(simpl; lia)) as [Heq Hlen].
  split; [exact Heq|]. apply Nat2Z.inj. exact Hlen.
Defined.

(** X14.  The prompt that is sent ends with the user's prompt, is that prompt
    alone when no context is attached, and carries at most 8046 characters
    in front of it otherwise. *)
Theorem callGpt4ApiWithContext_prompt {R : Type} (callGpt4Api : string -> string -> R)
    (stored : option string) (apiKey prompt : string) :
  ∃ front,
    callGpt4ApiWithContext callGpt4Api stored apiKey prompt
    = callGpt4Api apiKey (front ++ prompt)
    ∧ Z.of_nat (String.length front) ≤ 8046
    ∧ (getAttachedContext stored = EmptyString -> front = EmptyString).
Proof.
  unfold callGpt4ApiWithContext.
  destruct (Js.truthy_str (getAttachedContext stored)) eqn:Hatt.
  - destruct (Js.truthy_str (trimContextToTokenLimit (getAttachedContext stored) 2000)) eqn:Htr.
    + exists (CONTEXT_HEAD ++ trimContextToTokenLimit (getAttachedContext stored) 2000
              ++ PROMPT_HEAD).
      split; [|split].
      * f_equal. by rewrite !append_assoc.
      * pose proof (trim_length (getAttachedContext stored) 2000 ltac:(lia)) as Hlen.
        rewrite !length_append. simpl in *. lia.
      * intros Hempty. by rewrite Hempty in Hatt.
    + exists EmptyString. split; [done|]. split; [simpl; lia|done].
  - exists EmptyString. split; [done|]. split; [simpl; lia|done].
Qed.

Lemma callGpt4ApiWithContext_prompt_witness :
  getAttachedContext None = EmptyString
  ∧ callGpt4ApiWithContext (fun _ sent => sent) None "sk-test" "What is a monad?"
    = "What is a monad?".
Proof.
  split; [reflexivity|].
  destruct (callGpt4ApiWithContext_prompt (fun _ sent : string => sent) None "sk-test"
              "What is a monad?") as (front & Hsent & _ & Hnone).
  rewrite Hsent, (Hnone eq_refl). reflexivity.
Defined.

End ExtensionFacts.

(** ** More on the chat view *)

Module MoreChatFacts.
Import AiModels ApiClient Chat ApiClientFacts MoreApiClientFacts.


Lemma callOpenAI_conversation (h : Host) (request : ApiRequest) (m : AIModel)
    (ms : list Message) (log : list WireRequest) :
  messages request = Some ms ->
  ∃ w, snd (callOpenAI h request m log) = (log ++ [w])%list
       ∧ Js.opt_get (body w) "messages" = Js.JArr (map message_js ms).
Proof.
  intros Hms. unfold callOpenAI. rewrite Hms.
  eexists. split; [apply fetch_then_keeps; intros; keeps_log | reflexivity].
Qed.

(** X16.  The whole history goes out with every message: for an OpenAI model the
    conversation of the request is every earlier turn, assistant messages
    and stored errors included, followed by the new message. *)
Theorem sendMessage_sends_whole_history (h : Host) (dm ws : option string)
    (c : ChatViewProvider) (message : string) (m : AIModel) (key : string)
    (log : list WireRequest) :
  view c = true ->
  getModelById (Js.or_str (default EmptyString dm) "gpt-4") = Some m ->
  provider m = "OpenAI" ->
  secrets h (secretKeyName m) = Ok (Some key) -> key ≠ EmptyString ->
  ∃ c' w, _sendMessage h dm ws c message log = (Ok c', (log ++ [w])%list)
    ∧ Js.opt_get (body w) "messages"
      = Js.JArr (map message_js
                   (chatHistory c ++ [{| role := "user"; content := Js.JStr message |}])).
Proof.
  intros Hview Hm Hp Hkey Hne.
  unfold _sendMessage. rewrite Hview. simpl.
  unfold try_catch at 1, bind.
  match goal with
  | |- context [callModel ?h ?i ?p ?o log] =>
      assert (Hlog : ∃ w, snd (callModel h i p o log) = (log ++ [w])%list
                ∧ Js.opt_get (body w) "messages"
                  = Js.JArr (map message_js
                      (chatHistory c ++ [{| role := "user"; content := Js.JStr message |}])));
      [|destruct (callModel h i p o log) as [[r|msg] log'] eqn:Hcall]
  end.
  { rewrite (callModel_dispatches h _ message _ m key Hm Hkey Hne).
    match goal with
    | |- context [try_catch ?d ?k log] =>
        destruct (try_catch_returns d (fun msg => failure msg (id m)) log)
          as (r & log' & Heq & Hsnd & _)
    end.
    rewrite Heq. simpl. rewrite Hsnd. unfold dispatch. rewrite Hp. simpl.
    by apply callOpenAI_conversation. }
  - destruct Hlog as (w & Hw & Hbody). simpl in Hw. subst log'.
    eexists _, w. split; [reflexivity | exact Hbody].
  - destruct Hlog as (w & Hw & Hbody). simpl in Hw. subst log'.
    eexists _, w. split; [reflexivity | exact Hbody].
Qed.

Lemma sendMessage_sends_whole_history_witness :
  ∃ c' w, _sendMessage Scenario.host_openai None None Scenario.chat_used "And a functor?" []
          = (Ok c', [w])
    ∧ Js.opt_get (body w) "messages"
      = Js.JArr [Js.JObj [("role", Js.JStr "user"); ("content", Js.JStr "What is a monad?")];
                 Js.JObj [("role", Js.JStr "assistant"); ("content", Js.JStr "A monoid.")];
                 Js.JObj [("role", Js.JStr "user"); ("content", Js.JStr "And a functor?")]].
Proof.
  exact (sendMessage_sends_whole_history Scenario.host_openai None None Scenario.chat_used
           "And a functor?" Scenario.gpt4 "sk-test" [] eq_refl eq_refl eq_refl eq_refl
           ltac:(discriminate)).
Defined.

(** X17.  The workspace context is looked at for the first message of a
    conversation only: once the history is not empty it makes no
    difference. *)
Theorem workspace_context_first_message_only (h : Host) (dm ws ws' : option string)
    (c : ChatViewProvider) (message : string) :
  chatHistory c ≠ [] ->
  _sendMessage h dm ws c message = _sendMessage h dm ws' c message.
Proof.
  intros Hne. unfold _sendMessage. destruct (view c); [|done]. simpl.
  rewrite bool_decide_eq_false_2; [done|].
  rewrite length_app. simpl. destruct (chatHistory c); [done|]. simpl. lia.
Qed.

Lemma workspace_context_first_message_only_witness :
  chatHistory Scenario.chat_used ≠ []
  ∧ _sendMessage Scenario.host_anthropic (Some "claude-3-opus")
      (Some "File: /a.ts") Scenario.chat_used "And a functor?"
    = _sendMessage Scenario.host_anthropic (Some "claude-3-opus")
        None Scenario.chat_used "And a functor?".
Proof.
  assert (Hne : chatHistory Scenario.chat_used ≠ []) by discriminate.
  split; [exact Hne|].
  exact (workspace_context_first_message_only Scenario.host_anthropic _ _ _
           Scenario.chat_used "And a functor?" Hne).
Defined.


End MoreChatFacts.

(** ** More on the text heuristics *)

Module MoreHeuristicsFacts.
Import Editor Heuristics Completion HeuristicsFacts.

(** *** The skip conditions *)

(** X18.  An open completion menu, a blank line, or an odd number of single
    quotes, double quotes or backticks before the cursor on its line: each
    makes [provideInlineCompletionItems] return the empty list at once and
    leave the provider as it is. *)
Theorem skip_conditions_suppress (s : Provider) (d : TextDocument) (p : Position)
    (c : InlineCompletionContext) (token : nat) (now : Z) (t : string) :
  selectedCompletionInfo c = true
  ∨ (lines d !! line p = Some t
     ∧ (Js.trim t = EmptyString
        ∨ Nat.odd (Js.count_char "'" (Js.slice_to (character p) t)) = true
        ∨ Nat.odd (Js.count_char Js.DQUOTE (Js.slice_to (character p) t)) = true
        ∨ Nat.odd (Js.count_char Js.BACKTICK (Js.slice_to (character p) t)) = true)) ->
  provideInlineCompletionItems s d p c token now = (Returned no_items, s).
Proof.
  intros Hskip.
  assert (Hs : shouldSkipCompletion d p c = Ok true).
  { unfold shouldSkipCompletion. destruct Hskip as [->|(Ht & Hwhy)]; [done|].
    destruct (selectedCompletionInfo c); [done|].
    unfold lineAt at 1. rewrite Ht. simpl.
    destruct (Js.truthy_str (Js.trim t)) eqn:Hblank; simpl; [|done].
    destruct (isInComment d p); [done|].
    unfold isInString, lineAt. rewrite Ht. simpl.
    destruct Hwhy as [Hb|[Hq|[Hq|Hq]]].
    - by rewrite Hb in Hblank.
    - by rewrite Hq.
    - rewrite Hq. by rewrite orb_true_r.
    - rewrite Hq. by rewrite !orb_true_r. }
  unfold provideInlineCompletionItems. destruct (enabled s); [|done]. simpl.
  by rewrite Hs.
Qed.

Lemma skip_conditions_suppress_witness :
  lines Examples.doc_string !! line Examples.at_string = Some "const greeting = 'hello"
  ∧ Nat.odd (Js.count_char "'" (Js.slice_to (character Examples.at_string)
                                  "const greeting = 'hello")) = true
  ∧ provideInlineCompletionItems (initial Scenario.cfg) Examples.doc_string
      Examples.at_string Scenario.plain 1 100000
    = (Returned no_items, initial Scenario.cfg).
Proof.
  assert (Ht : lines Examples.doc_string !! line Examples.at_string
               = Some "const greeting = 'hello") by reflexivity.
  assert (Hq : Nat.odd (Js.count_char "'" (Js.slice_to (character Examples.at_string)
                                  "const greeting = 'hello")) = true) by reflexivity.
  split; [exact Ht|]. split; [exact Hq|].
  exact (skip_conditions_suppress (initial Scenario.cfg) Examples.doc_string
           Examples.at_string Scenario.plain 1 100000 "const greeting = 'hello"
           (or_intror (conj Ht (or_intror (or_introl Hq))))).
Defined.

(** *** The fence pattern *)

(** Text without a backtick in front of a fence is kept, and the scan goes
    on inside the fence. *)
Lemma replace_fenced_until_fence (pre rest : string) :
  Js.count_char Js.BACKTICK pre = 0%nat ->
  Js.replace_fenced None (pre ++ "```" ++ rest)
  = pre ++ Js.replace_fenced (Some "```") rest.
Proof.
  induction pre as [|a r IH]; [reflexivity|].
  rewrite count_char_cons. destruct (Ascii.eqb a Js.BACKTICK) eqn:Ha; [discriminate|].
  simpl. intros Hr.
  change ((String a r) ++ "```" ++ rest) with (String a (r ++ "```" ++ rest)).
  cbn [Js.replace_fenced]. rewrite Ha. simpl. rewrite (IH Hr).
  change (String a r ++ Js.replace_fenced (Some "```") rest)
    with (String a (r ++ Js.replace_fenced (Some "```") rest)).
  by destruct (r ++ "```" ++ rest) as [|b [|c r']].
Qed.

(** Inside a fence, text without a backtick up to the end of the input is
    given back together with what was held. *)
Lemma replace_fenced_unclosed (x h : string) :
  Js.count_char Js.BACKTICK x = 0%nat ->
  Js.replace_fenced (Some h) x = h ++ x.
Proof.
  revert h. induction x as [|a r IH]; intros h.
  - intros _. simpl. induction h as [|c h IHh]; [done|].
    change (String c h = String c (h ++ "")). by rewrite <- IHh.
  - rewrite count_char_cons. destruct (Ascii.eqb a Js.BACKTICK) eqn:Ha; [discriminate|].
    simpl. intros Hr. cbn [Js.replace_fenced]. rewrite Ha. simpl.
    rewrite (IH _ Hr).
    assert (Happ : (h ++ String a "") ++ r = h ++ String a r).
    { clear. induction h as [|c h IHh]; [done|].
      change (String c ((h ++ String a "") ++ r) = String c (h ++ String a r)).
      by rewrite IHh. }
    rewrite Happ. by destruct r as [|b [|c r']].
Qed.

(** X19.  The pattern needs both fences.  A reply that opens a fence and never
    closes it goes through unchanged, the fence included; a fenced block in
    the middle of a reply is cut out with its content, and the text around
    it stays. *)
Theorem fence_pattern_needs_both (pre x post : string) :
  Js.count_char Js.BACKTICK pre = 0%nat ->
  Js.count_char Js.BACKTICK x = 0%nat ->
  Js.count_char Js.BACKTICK post = 0%nat ->
  Js.replace_fenced None (pre ++ "```" ++ x) = pre ++ "```" ++ x
  ∧ Js.replace_fenced None (pre ++ "```" ++ x ++ "```" ++ post) = pre ++ post.
Proof.
  intros Hpre Hx Hpost. split.
  - rewrite replace_fenced_until_fence by done. by rewrite replace_fenced_unclosed.
  - rewrite replace_fenced_until_fence by done. f_equal.
    clear pre Hpre. revert Hx. generalize "```" at 1 as h.
    induction x as [|a r IH]; intros h.
    + intros _. simpl. by apply replace_fenced_plain.
    + rewrite count_char_cons. destruct (Ascii.eqb a Js.BACKTICK) eqn:Ha; [discriminate|].
      simpl. intros Hr.
      change (String a r ++ "```" ++ post) with (String a (r ++ "```" ++ post)).
      cbn [Js.replace_fenced]. rewrite Ha. simpl. rewrite (IH _ Hr).
      by destruct (r ++ "```" ++ post) as [|b [|c r']].
Qed.

Lemma fence_pattern_needs_both_witness :
  Js.replace_fenced None ("x = " ++ "```" ++ "js") = "x = ```js"
  ∧ Js.replace_fenced None ("x = " ++ "```" ++ "js" ++ "```" ++ "1;") = "x = 1;".
Proof.
  exact (fence_pattern_needs_both "x = " "js" "1;" eq_refl eq_refl eq_refl).
Defined.

(** *** Indentation *)

Lemma split_lines_without_lf (s : string) :
  Js.includes_lf s = false -> Js.split_lines s = [s].
Proof.
  unfold Js.includes_lf. induction s as [|c r IH]; [done|].
  cbn [list_ascii_of_string existsb Js.split_lines].
  rewrite Ascii.eqb_sym. destruct (Ascii.eqb c Js.LF); [done|]. simpl.
  intros Hr. by rewrite (IH Hr).
Qed.

Lemma imap_first_apart {A} (f : A -> A) (l : list A) :
  imap (fun i x => match i with O => x | S _ => f x end) l
  = match l with [] => [] | x :: xs => x :: map f xs end.
Proof.
  destruct l as [|x xs]; [done|]. rewrite imap_cons. f_equal.
  transitivity (imap (fun _ x => f x) xs); [by apply imap_ext|].
  clear x. induction xs as [|y ys IH]; [done|].
  rewrite imap_cons. simpl. f_equal. exact IH.
Qed.

(** X20.  When the current line does not end in an opening bracket, a reply
    without a backtick is trimmed, its first line is left alone and every
    further line gets the leading white space of the current line in front
    of its own. *)
Theorem postProcess_indents_continuation (text language currentLine : string) :
  Js.count_char Js.BACKTICK text = 0%nat ->
  (∀ ch, Js.last_char (Js.trim currentLine) = Some ch ->
         ch ≠ "{"%char ∧ ch ≠ "["%char ∧ ch ≠ "("%char) ->
  postProcessCompletion text language currentLine
  = match Js.split_lines (Js.trim text) with
    | first :: more =>
        Js.join (String Js.LF EmptyString)
          (first :: map (fun ln => Js.leading_space currentLine ++ ln) more)
    | [] => EmptyString
    end.
Proof.
  intros Hplain Hlast. unfold postProcessCompletion.
  rewrite (replace_fenced_plain text Hplain).
  assert (Hno : match Js.last_char (Js.trim currentLine) with
                | Some c => Ascii.eqb c "{" || Ascii.eqb c "[" || Ascii.eqb c "("
                | None => false
                end = false).
  { destruct (Js.last_char (Js.trim currentLine)) as [ch|]; [|done].
    destruct (Hlast ch eq_refl) as (H1 & H2 & H3).
    by rewrite (proj2 (Ascii.eqb_neq _ _) H1), (proj2 (Ascii.eqb_neq _ _) H2),
               (proj2 (Ascii.eqb_neq _ _) H3). }
  rewrite Hno. cbn [andb].
  destruct (Js.includes_lf (Js.trim text)) eqn:Hlf.
  - rewrite imap_first_apart. by destruct (Js.split_lines (Js.trim text)).
  - by rewrite (split_lines_without_lf _ Hlf).
Qed.

Lemma postProcess_indents_continuation_witness :
  postProcessCompletion ("if (x) {" ++ Scenario.NL ++ "  y();" ++ Scenario.NL ++ "}")
    "typescript" "    foo"
  = "if (x) {" ++ Scenario.NL ++ "      y();" ++ Scenario.NL ++ "    }".
Proof.
  rewrite (postProcess_indents_continuation
             ("if (x) {" ++ Scenario.NL ++ "  y();" ++ Scenario.NL ++ "}")
             "typescript" "    foo" eq_refl).
  - reflexivity.
  - intros ch [= <-]. repeat split; discriminate.
Defined.

(** *** The context around the cursor *)

Section WithMatcher.
Variable rt : string -> string -> bool.





End WithMatcher.


End MoreHeuristicsFacts.

(** ** More on the completion provider *)

Module MoreCompletionFacts.
Import Editor Heuristics Completion Spec CompletionFacts.

Section WithMatcher.
Variable rt : string -> string -> bool.

(** *** The cache only grows *)

Lemma step_cache_kept (s : Provider) (e : event) (s' : Provider) (k : string) :
  step rt s e = Some s' -> is_Some (completionCache s !! k) ->
  is_Some (completionCache s' !! k).
Proof.
  intros Hstep Hk.
  destruct e as [d q c token now|d now|pr r now|b|token]; simpl in Hstep.
  - injection Hstep as <-.
    by destruct (provide_cases s d q c token now) as [->|(_ & _ & _ & _ & _ & ->)].
  - destruct (debounceTimeout s) as [[due j]|]; [|done].
    destruct (decide (due ≤ now)); [|done]. injection Hstep as <-.
    by destruct (on_timeout_cases rt j d now (set_timer None s))
      as [->|[->|(_ & _ & call & a & -> & _)]].
  - destruct (take_awaiting pr (awaiting s)) as [[a rest]|]; [|done].
    injection Hstep as <-.
    destruct (on_reply_cases a r now (set_awaiting rest s)) as [->|[t ->]]; [done|].
    simpl. destruct (decide (j_key (a_job a) = k)) as [->|Hne].
    + rewrite lookup_insert_eq. eauto.
    + by rewrite lookup_insert_ne.
  - by injection Hstep as <-.
  - by injection Hstep as <-.
Qed.

(** X22.  No event removes an entry from the completion cache: a key that has
    been cached stays in the map, expired or not, whatever happens
    afterwards. *)
Theorem cache_never_shrinks (es : list event) (s s' : Provider) (k : string) :
  run rt s es = Some s' -> is_Some (completionCache s !! k) ->
  is_Some (completionCache s' !! k).
Proof.
  revert s. induction es as [|e es IH]; intros s; simpl.
  - by intros [= <-].
  - destruct (step rt s e) as [s1|] eqn:Hstep; [|done].
    intros Hrun Hk. apply (IH s1 Hrun). by apply (step_cache_kept s e).
Qed.

(** *** What promises settle with *)

Lemma settle_values (P : InlineCompletionList -> Prop) (j : Job) (v : InlineCompletionList)
    (s : Provider) :
  P v -> (∀ p w, settled s !! p = Some w -> P w) ->
  ∀ p w, settled (settle j v s) !! p = Some w -> P w.
Proof.
  intros Hv Hs p w. unfold settle. simpl.
  destruct (settled s !! j_promise j) eqn:Hj; [apply Hs|].
  intros [[_ <-]|[_ Hp]]%lookup_insert_Some; [done|by apply (Hs p)].
Qed.

(** X23.  Every list in the cache has exactly one item, whose range is empty, and
    every promise has settled with the empty list or with a list of one
    item. *)
Theorem completions_have_one_item (s : Provider) :
  reachable rt s ->
  (∀ k e l, completionCache s !! k = Some (e, l) ->
     ∃ item, items l = [item] ∧ fst (range item) = snd (range item))
  ∧ (∀ p v, settled s !! p = Some v -> (length (items v) ≤ 1)%nat).
Proof.
  induction 1 as [cfg|s e s' _ [IHc IHs] Hstep].
  - split; simpl; [intros k e l Hk | intros p v Hp]; by apply lookup_empty_Some in Hk || by apply lookup_empty_Some in Hp.
  - destruct e as [d q c token now|d now|pr r now|b|token]; simpl in Hstep.
    + injection Hstep as <-.
      by destruct (provide_cases s d q c token now) as [->|(_ & _ & _ & _ & _ & ->)].
    + destruct (debounceTimeout s) as [[due j]|]; [|done].
      destruct (decide (due ≤ now)); [|done]. injection Hstep as <-.
      destruct (on_timeout_cases rt j d now (set_timer None s))
        as [->|[->|(_ & _ & call & a & -> & _)]]; [| |done].
      * split; [done|]. apply settle_values; [simpl; lia | done].
      * split; [done|]. apply settle_values; [simpl; lia | done].
    + destruct (take_awaiting pr (awaiting s)) as [[a rest]|]; [|done].
      injection Hstep as <-.
      destruct (on_reply_cases a r now (set_awaiting rest s)) as [->|[t ->]].
      * split; [done|]. apply settle_values; [simpl; lia | done].
      * split; [|apply settle_values; [simpl; lia | done]].
        simpl. intros k e l [[_ [= <- <-]]|[_ Hk]]%lookup_insert_Some; [|by apply (IHc k e)].
        by eexists.
    + by injection Hstep as <-.
    + by injection Hstep as <-.
Qed.

(** *** Requests that are never sent *)

(** X24.  A request whose caller has cancelled before the timer fires makes no
    call: the callback settles the promise with the empty list and removes
    the key, and the list of calls and of awaited replies stay as they
    were. *)
Theorem cancelled_request_makes_no_call (s : Provider) (due : Z) (j : Job)
    (d : TextDocument) (now : Z) :
  reachable rt s -> debounceTimeout s = Some (due, j) -> due ≤ now ->
  j_token j ∈ cancelled s ->
  ∃ s', step rt s (TimerFires d now) = Some s'
        ∧ calls s' = calls s ∧ awaiting s' = awaiting s
        ∧ settled s' !! j_promise j = Some no_items
        ∧ pendingCompletions s' !! j_key j = None.
Proof.
  intros Hs Ht Hdue Hcancel. eexists. simpl. rewrite Ht, decide_True by done.
  split; [reflexivity|].
  pose proof (reachable_invariant rt s Hs) as Hinv.
  assert (Hp : pendingCompletions s !! j_key j = Some (j_promise j)).
  { apply (inv_jobs_pending s Hinv). unfold jobs. rewrite Ht. apply list_elem_of_here. }
  assert (Hu : settled s !! j_promise j = None)
    by apply (inv_pending_unsettled s Hinv _ _ Hp).
  assert (Hsettle : ∀ s0, calls s0 = calls s -> awaiting s0 = awaiting s ->
            settled s0 = settled s ->
            calls (settle j no_items s0) = calls s
            ∧ awaiting (settle j no_items s0) = awaiting s
            ∧ settled (settle j no_items s0) !! j_promise j = Some no_items
            ∧ pendingCompletions (settle j no_items s0) !! j_key j = None).
  { intros s0 Hc Ha Hs0. rewrite settle_pending, decide_True by done.
    unfold settle. simpl. rewrite Hs0, Hu, lookup_insert_eq. done. }
  destruct (on_timeout_cases rt j d now (set_timer None s))
    as [->|[->|(Hnot & _)]]; [by apply Hsettle|by apply Hsettle|done].
Qed.

(** X25.  A callback that passes the limiter takes the limiter's slot before it
    looks at the context and the token.  So a request that is not sent
    (too little context, or cancelled) still blocks the next one: the
    callback of a request that follows and fires less than a second later
    makes no call either. *)
Theorem unsent_request_uses_limiter_slot (s : Provider) (due : Z) (j : Job)
    (d : TextDocument) (now : Z) (s1 : Provider) :
  debounceTimeout s = Some (due, j) ->
  1000 ≤ now - lastCompletionTime s ->
  step rt s (TimerFires d now) = Some s1 ->
  calls s1 = calls s ->
  lastCompletionTime s1 = now
  ∧ ∀ d2 p2 c2 token2 t2 d3 t3 s3,
      run rt s1 [Provide d2 p2 c2 token2 t2; TimerFires d3 t3] = Some s3 ->
      t3 < now + 1000 ->
      calls s3 = calls s.
Proof.
  intros Ht Hfree Hstep Hcalls. simpl in Hstep. rewrite Ht in Hstep.
  destruct (decide (due ≤ now)); [|done]. injection Hstep as Hs1.
  assert (Hlast : lastCompletionTime s1 = now).
  { rewrite <- Hs1. unfold on_timeout. rewrite decide_False by (simpl; lia). simpl.
    destruct (getSmartCompletionContext _ _ _ _ _) as [ctx|]; [|done].
    destruct (currentLine ctx) as [current|]; [|done].
    destruct (andb _ _); [done|]. by destruct (decide _). }
  split; [done|].
  intros d2 p2 c2 token2 t2 d3 t3 s3. simpl.
  set (s2 := snd (provideInlineCompletionItems s1 d2 p2 c2 token2 t2)).
  assert (H2 : calls s2 = calls s ∧ lastCompletionTime s2 = now).
  { unfold s2. rewrite <- Hcalls, <- Hlast.
    by destruct (provide_cases s1 d2 p2 c2 token2 t2)
      as [->|(_ & _ & _ & _ & _ & ->)]. }
  destruct H2 as (Hc2 & Hl2).
  destruct (debounceTimeout s2) as [[due3 j3]|]; [|done].
  destruct (decide (due3 ≤ t3)); [|done]. intros [= <-] Hsoon.
  rewrite on_timeout_limited by (simpl; lia). done.
Qed.

(** *** Requests whose timer was cleared *)

(** X26.  A request that arms a new timer while the timer of an earlier request
    is still armed clears that timer.  The earlier request's key stays in
    [pendingCompletions] and its promise is never settled, whatever
    happens afterwards. *)
Theorem superseded_request_never_settles (s : Provider) (due : Z) (j : Job)
    (d : TextDocument) (p : Position) (c : InlineCompletionContext) (token : nat)
    (now : Z) (es : list event) (s' : Provider) :
  reachable rt s -> debounceTimeout s = Some (due, j) ->
  enabled s = true -> shouldSkipCompletion d p c = Ok false ->
  (∀ e l, completionCache s !! cache_key d p = Some (e, l) -> e ≤ now) ->
  pendingCompletions s !! cache_key d p = None ->
  run rt s (Provide d p c token now :: es) = Some s' ->
  pendingCompletions s' !! j_key j = Some (j_promise j)
  ∧ settled s' !! j_promise j = None.
Proof.
  intros Hs Ht Hen Hskip Hstale Hnone. simpl.
  set (s1 := snd (provideInlineCompletionItems s d p c token now)). intros Hrun.
  pose proof (reachable_invariant rt s Hs) as Hinv.
  assert (Hj : j ∈ jobs s) by (unfold jobs; rewrite Ht; apply list_elem_of_here).
  assert (Hp : pendingCompletions s !! j_key j = Some (j_promise j))
    by apply (inv_jobs_pending s Hinv j Hj).
  assert (Hne : cache_key d p ≠ j_key j) by congruence.
  assert (Hs1 : s1 = set_pending (<[cache_key d p := next_promise s]> (pendingCompletions s))
                 (set_timer (Some (now + completionDelay (settings s),
                                   {| j_key := cache_key d p; j_promise := next_promise s;
                                      j_position := p; j_token := token |}))
                    (set_next (S (next_promise s)) s))).
  { unfold s1, provideInlineCompletionItems. rewrite Hen, Hskip, Hnone. simpl.
    destruct (completionCache s !! cache_key d p) as [[e l]|] eqn:Hc; [|done].
    specialize (Hstale e l eq_refl). by rewrite decide_False by lia. }
  apply (stranded_forever rt (j_key j) (j_promise j) es s1 s'); [|    |done].
  - by apply (reachable_step rt s (Provide d p c token now)).
  - rewrite Hs1. split; simpl; [by rewrite lookup_insert_ne|].
    intros j' Hj'. unfold jobs in Hj'. simpl in Hj'.
    apply elem_of_cons in Hj' as [->|Hj']; [done|].
    pose proof (inv_jobs_nodup s Hinv) as Hnd. unfold jobs in Hnd. rewrite Ht in Hnd.
    simpl in Hnd. apply NoDup_cons in Hnd as [Hnotin _].
    intros Heq. apply Hnotin. rewrite <- Heq. by apply list_elem_of_fmap_2.
Qed.

(** *** Switching the provider off *)

Lemma settle_set_enabled (b : bool) (j : Job) (v : InlineCompletionList) (s : Provider) :
  settle j v (set_enabled b s) = set_enabled b (settle j v s).
Proof. unfold settle. simpl. by destruct (settled s !! j_promise j). Qed.

(** X27.  [setEnabled(false)] stops new requests only: a request made while the
    provider is off gets the empty list and changes nothing, but the timer
    that is armed and the calls that await their reply go on as they would
    have (the callback never reads the flag). *)
Theorem disabled_only_stops_new_requests (s : Provider) (b : bool) :
  (∀ d p c token now,
     provideInlineCompletionItems (set_enabled false s) d p c token now
     = (Returned no_items, set_enabled false s))
  ∧ (∀ d now, step rt (set_enabled b s) (TimerFires d now)
              = set_enabled b <$> step rt s (TimerFires d now))
  ∧ (∀ pr r now, step rt (set_enabled b s) (Reply pr r now)
                 = set_enabled b <$> step rt s (Reply pr r now)).
Proof.
  split; [done|]. split.
  - intros d now. simpl. destruct (debounceTimeout s) as [[due j]|]; [|done].
    destruct (decide (due ≤ now)); [|done]. simpl. f_equal.
    unfold on_timeout. simpl.
    destruct (decide (now - lastCompletionTime s < 1000));
      [apply (settle_set_enabled b j no_items (set_timer None s))|].
    destruct (getSmartCompletionContext _ _ _ _ _) as [ctx|];
      [|apply (settle_set_enabled b j no_items (set_last now (set_timer None s)))].
    destruct (currentLine ctx) as [current|];
      [|apply (settle_set_enabled b j no_items (set_last now (set_timer None s)))].
    destruct (andb _ _);
      [apply (settle_set_enabled b j no_items (set_last now (set_timer None s)))|].
    destruct (decide (j_token j ∈ cancelled s));
      [apply (settle_set_enabled b j no_items (set_last now (set_timer None s)))|done].
  - intros pr r now. simpl. destruct (take_awaiting pr (awaiting s)) as [[a rest]|]; [|done].
    simpl. f_equal. unfold on_reply.
    destruct r as [response|]; [|apply (settle_set_enabled b _ _ (set_awaiting rest s))].
    destruct (orb _ _); [apply (settle_set_enabled b _ _ (set_awaiting rest s))|].
    destruct (AiModels.text response);
      try apply (settle_set_enabled b _ _ (set_awaiting rest s)).
    apply (settle_set_enabled b _ _ (set_cache _ (set_awaiting rest s))).
Qed.

(** *** Calls and promises *)

Lemma NoDup_below_length (l : list nat) (n : nat) :
  NoDup l -> (∀ x, x ∈ l -> (x < n)%nat) -> (length l ≤ n)%nat.
Proof.
  intros Hnd Hlt. transitivity (length (seq 0 n)); [|by rewrite length_seq].
  apply submseteq_length.
  apply NoDup_submseteq; [done|]. intros x Hx. apply elem_of_seq. specialize (Hlt x Hx). lia.
Qed.

(** X28.  The provider makes at most one call per promise it has created, and no
    two calls are made for the same promise. *)
Theorem calls_bounded_by_requests (s : Provider) :
  reachable rt s ->
  (length (calls s) ≤ next_promise s)%nat ∧ NoDup (map c_promise (calls s)).
Proof.
  intros Hs. pose proof (reachable_invariant rt s Hs) as Hinv.
  split; [|apply (inv_calls_nodup s Hinv)].
  rewrite <- (length_map c_promise). apply NoDup_below_length; [apply (inv_calls_nodup s Hinv)|].
  intros x (call & -> & Hc)%list_elem_of_fmap. by apply (inv_calls_fresh s Hinv).
Qed.

End WithMatcher.

(** *** The examples *)

Lemma state_replied_reachable : reachable Scenario.no_match Scenario.state_replied.
Proof.
  apply (reachable_step _ Scenario.state_calling (Reply 0 (Ok Scenario.the_reply) 101300));
    [exact state_calling_reachable | vm_compute; reflexivity].
Qed.

Lemma cache_never_shrinks_witness :
  run Scenario.no_match Scenario.state_replied Scenario.trace_between
  = Some Scenario.state_later
  ∧ is_Some (completionCache Scenario.state_replied !! "file:///a.ts|0:27")
  ∧ is_Some (completionCache Scenario.state_later !! "file:///a.ts|0:27").
Proof.
  assert (Hrun : run Scenario.no_match Scenario.state_replied Scenario.trace_between
                 = Some Scenario.state_later) by (vm_compute; reflexivity).
  assert (Hk : is_Some (completionCache Scenario.state_replied !! "file:///a.ts|0:27"))
    by (vm_compute; eauto).
  split; [exact Hrun|]. split; [exact Hk|].
  exact (cache_never_shrinks Scenario.no_match _ _ _ _ Hrun Hk).
Defined.

Lemma completions_have_one_item_witness :
  reachable Scenario.no_match Scenario.state_replied
  ∧ completionCache Scenario.state_replied !! "file:///a.ts|0:27"
    = Some (131300, completion_of Scenario.the_call "(sum, x) => sum + x, 0)")
  ∧ ∃ item, items (completion_of Scenario.the_call "(sum, x) => sum + x, 0)") = [item]
            ∧ fst (range item) = snd (range item).
Proof.
  assert (Hk : completionCache Scenario.state_replied !! "file:///a.ts|0:27"
               = Some (131300, completion_of Scenario.the_call "(sum, x) => sum + x, 0)"))
    by (vm_compute; reflexivity).
  split; [exact state_replied_reachable|]. split; [exact Hk|].
  exact (proj1 (completions_have_one_item Scenario.no_match _ state_replied_reachable)
           _ _ _ Hk).
Defined.

Lemma cancelled_request_makes_no_call_witness :
  reachable Scenario.no_match Examples.state_cancelled
  ∧ debounceTimeout Examples.state_cancelled = Some (100300, a_job Scenario.the_call)
  ∧ 100300 ≤ 100300
  ∧ j_token (a_job Scenario.the_call) ∈ cancelled Examples.state_cancelled
  ∧ ∃ s', step Scenario.no_match Examples.state_cancelled
            (TimerFires Scenario.doc_reduce 100300) = Some s'
          ∧ calls s' = [] ∧ settled s' !! 0%nat = Some no_items.
Proof.
  assert (Ht : debounceTimeout Examples.state_cancelled
               = Some (100300, a_job Scenario.the_call)) by (vm_compute; reflexivity).
  assert (Hdue : 100300 ≤ 100300) by lia.
  assert (Hc : j_token (a_job Scenario.the_call) ∈ cancelled Examples.state_cancelled).
  { apply (bool_decide_unpack _). vm_compute. exact I. }
  split; [exact state_cancelled_reachable|].
  split; [exact Ht|]. split; [exact Hdue|]. split; [exact Hc|].
  destruct (cancelled_request_makes_no_call Scenario.no_match _ _ _ Scenario.doc_reduce _
              state_cancelled_reachable Ht Hdue Hc)
    as (s' & Hstep & Hcalls & _ & Hsettled & _).
  exists s'. split; [exact Hstep|]. split; [exact Hcalls | exact Hsettled].
Defined.

Lemma unsent_request_uses_limiter_slot_witness :
  debounceTimeout Examples.state_short_requested
  = Some (100300, {| j_key := "file:///c.ts|0:4"; j_promise := 0;
                     j_position := Scenario.at_short; j_token := 1 |})
  ∧ 1000 ≤ 100300 - lastCompletionTime Examples.state_short_requested
  ∧ step Scenario.no_match Examples.state_short_requested
      (TimerFires Scenario.doc_short 100300) = Some Examples.state_short_fired
  ∧ calls Examples.state_short_fired = calls Examples.state_short_requested
  ∧ run Scenario.no_match Examples.state_short_fired Examples.trace_after_short
    = Some Examples.state_after_short
  ∧ 100700 < 100300 + 1000
  ∧ lastCompletionTime Examples.state_short_fired = 100300
  ∧ calls Examples.state_after_short = calls Examples.state_short_requested.
Proof.
  assert (Ht : debounceTimeout Examples.state_short_requested
               = Some (100300, {| j_key := "file:///c.ts|0:4"; j_promise := 0;
                                  j_position := Scenario.at_short; j_token := 1 |}))
    by (vm_compute; reflexivity).
  assert (Hfree : 1000 ≤ 100300 - lastCompletionTime Examples.state_short_requested)
    by (vm_compute; discriminate).
  assert (Hstep : step Scenario.no_match Examples.state_short_requested
                    (TimerFires Scenario.doc_short 100300) = Some Examples.state_short_fired)
    by (vm_compute; reflexivity).
  assert (Hcalls : calls Examples.state_short_fired = calls Examples.state_short_requested)
    by (vm_compute; reflexivity).
  assert (Hrun : run Scenario.no_match Examples.state_short_fired Examples.trace_after_short
                 = Some Examples.state_after_short) by (vm_compute; reflexivity).
  assert (Hsoon : 100700 < 100300 + 1000) by lia.
  split; [exact Ht|]. split; [exact Hfree|]. split; [exact Hstep|]. split; [exact Hcalls|].
  split; [exact Hrun|]. split; [exact Hsoon|].
  destruct (unsent_request_uses_limiter_slot Scenario.no_match _ _ _ _ _ _
              Ht Hfree Hstep Hcalls) as [Hlast Hnext].
  split; [exact Hlast|].
  exact (Hnext _ _ _ _ _ _ _ _ Hrun Hsoon).
Defined.

Lemma superseded_request_never_settles_witness :
  reachable Scenario.no_match Scenario.state_requested
  ∧ debounceTimeout Scenario.state_requested = Some (100300, a_job Scenario.the_call)
  ∧ enabled Scenario.state_requested = true
  ∧ shouldSkipCompletion Scenario.doc_filter Scenario.at_filter Scenario.plain = Ok false
  ∧ pendingCompletions Scenario.state_requested
      !! cache_key Scenario.doc_filter Scenario.at_filter = None
  ∧ run Scenario.no_match Scenario.state_requested Examples.trace_superseding
    = Some Examples.state_superseded_replied
  ∧ pendingCompletions Examples.state_superseded_replied !! "file:///a.ts|0:27" = Some 0%nat
  ∧ settled Examples.state_superseded_replied !! 0%nat = None.
Proof.
  assert (Ht : debounceTimeout Scenario.state_requested
               = Some (100300, a_job Scenario.the_call)) by (vm_compute; reflexivity).
  assert (Hen : enabled Scenario.state_requested = true) by reflexivity.
  assert (Hskip : shouldSkipCompletion Scenario.doc_filter Scenario.at_filter Scenario.plain
                  = Ok false) by (vm_compute; reflexivity).
  assert (Hstale : ∀ e l, completionCache Scenario.state_requested
                            !! cache_key Scenario.doc_filter Scenario.at_filter = Some (e, l) ->
                          e ≤ 100100).
  { intros e l Hc. vm_compute in Hc. discriminate. }
  assert (Hnone : pendingCompletions Scenario.state_requested
                    !! cache_key Scenario.doc_filter Scenario.at_filter = None)
    by (vm_compute; reflexivity).
  assert (Hrun : run Scenario.no_match Scenario.state_requested Examples.trace_superseding
                 = Some Examples.state_superseded_replied) by (vm_compute; reflexivity).
  split; [exact state_requested_reachable|].
  split; [exact Ht|]. split; [exact Hen|]. split; [exact Hskip|]. split; [exact Hnone|].
  split; [exact Hrun|].
  exact (superseded_request_never_settles Scenario.no_match Scenario.state_requested
           100300 (a_job Scenario.the_call) Scenario.doc_filter Scenario.at_filter
           Scenario.plain 2%nat 100100 _ Examples.state_superseded_replied
           state_requested_reachable Ht Hen Hskip Hstale Hnone Hrun).
Defined.

Lemma calls_bounded_by_requests_witness :
  reachable Scenario.no_match Scenario.state_calling
  ∧ (length (calls Scenario.state_calling) ≤ next_promise Scenario.state_calling)%nat
  ∧ NoDup (map c_promise (calls Scenario.state_calling)).
Proof.
  split; [exact state_calling_reachable|].
  exact (calls_bounded_by_requests Scenario.no_match _ state_calling_reachable).
Defined.

End MoreCompletionFacts.

(** ** Similarity of embeddings *)

Module SimilarityFacts.
Import Similarity.

Lemma prim_zero : Prim2SF 0%float = S754_zero false.
Proof. reflexivity. Qed.












Lemma sqrt_zero (x : float) (s : bool) :
  Prim2SF x = S754_zero s -> Prim2SF (sqrt x) = S754_zero s.
Proof. intros Hx. by rewrite sqrt_spec, Hx. Qed.

(** *** The sums *)













End SimilarityFacts.
